(** * GnuCash report generator: the report definition engine

    A shallow embedding of [gnucash_report_generator.py] (utilities, cache
    builder, markup parser and calculator) together with the properties of the
    report definition engine that the specification states about it.

    Conventions of the embedding.
    - A Python function that can raise returns a [result]: [Ok v] for a normal
      return and [Raise e] for an exception that leaves the function.
    - [str] values are Rocq strings over ASCII characters; the markup language
      is ASCII, and the character classes of [str.strip], [\s] and [\d] are
      modelled on that range.
    - [decimal.Decimal] is modelled by [Decimal] below with the arithmetic of
      Python's default context (28 significant digits, ROUND_HALF_EVEN, traps
      on InvalidOperation, DivisionByZero and Overflow).
    - Dictionaries are finite maps ([gmap]); objects compared by identity
      (report elements) are identified by their position in the element list. *)

From Stdlib Require Import ZArith NArith Ascii String Bool Lia DecimalString.
From stdpp Require Import gmap strings list.

Local Open Scope Z_scope.

(** ** Exceptions and results *)

(** The reasons for which the markup parser raises [ValueError]; each carries
    the line number that the message of the source starts with. *)
Inductive value_error :=
| DuplicateReference (line_num : nat) (ref : N) (first_line : nat)
| InvalidPeriod (line_num : nat)
| InvalidAccountName (line_num : nat)
| InvalidInvertIncome (line_num : nat)
| FilterWithoutAccount (line_num : nat)
| RegexWithoutAccount (line_num : nat)
| PlaceholderFormat (line_num : nat)
| CalcFormat (line_num : nat)
| UndefinedReference (line_num : nat) (ref : N)
| UnrecognizedCommand (line_num : nat)
| PlaceholderCount (line_num : nat) (got expected : nat)
| InvalidDateFormat
| DateOutOfRange
| SignalingNaNToFloat.

Inductive exn :=
| InvalidOperation
| DivisionByZero
| Overflow
| ValueError (why : value_error)
| KeyError
| IndexError
| TypeError
| RecursionError
| RegexError
| OtherException
| Uncaught (name : string)
| OutsideModel.

Inductive result (A : Type) :=
| Ok (a : A)
| Raise (e : exn).
Arguments Ok {A} a.
Arguments Raise {A} e.

#[global] Instance result_ret : MRet result := fun A a => Ok a.
#[global] Instance result_bind : MBind result := fun A B f m =>
  match m with
  | Ok a => f a
  | Raise e => Raise e
  end.
#[global] Instance result_fmap : FMap result := fun A B f m =>
  match m with
  | Ok a => Ok (f a)
  | Raise e => Raise e
  end.

Definition is_Ok {A} (r : result A) : bool :=
  match r with Ok _ => true | Raise _ => false end.

(** [mapM] over a list, left to right, stopping at the first exception: a
    [for] loop (or a list comprehension) whose body can raise. *)
Fixpoint map_result {A B} (f : A -> result B) (l : list A) : result (list B) :=
  match l with
  | [] => Ok []
  | x :: l' => y ← f x; ys ← map_result f l'; Ok (y :: ys)
  end.

(** ** Decimal arithmetic of the default context *)

Module Dec.

Definition prec : Z := 28.
Definition Emax : Z := 999999.
Definition Emin : Z := -999999.
Definition Etiny : Z := Emin - prec + 1.
Definition Etop : Z := Emax - prec + 1.

(** A decimal is a finite number [(-1)^sign * coeff * 10^exp], an infinity or
    a (quiet or signaling) NaN with its payload. *)
Inductive Decimal :=
| DFin (sign : bool) (coeff : N) (exp : Z)
| DInf (sign : bool)
| DNaN (sign : bool) (signaling : bool) (payload : N).

Definition zero : Decimal := DFin false 0 0.      (* Decimal('0') *)
Definition cent : Decimal := DFin false 1 (-2).   (* Decimal('0.01') *)
Definition hundred : Decimal := DFin false 100 0. (* Decimal(100) *)

Definition is_nan (d : Decimal) : bool :=
  match d with DNaN _ _ _ => true | _ => false end.
Definition is_snan (d : Decimal) : bool :=
  match d with DNaN _ s _ => s | _ => false end.
Definition is_inf (d : Decimal) : bool :=
  match d with DInf _ => true | _ => false end.
(** [not d]: a finite decimal with a zero coefficient. *)
Definition is_zero (d : Decimal) : bool :=
  match d with DFin _ c _ => (c =? 0)%N | _ => false end.
Definition sign_of (d : Decimal) : bool :=
  match d with DFin s _ _ | DInf s | DNaN s _ _ => s end.

(** Number of decimal digits of a coefficient ([len(self._int)]); 1 for 0. *)
Fixpoint ndigits_fuel (fuel : nat) (c : N) : Z :=
  match fuel with
  | O => 1
  | S f => if (c <? 10)%N then 1 else 1 + ndigits_fuel f (c / 10)%N
  end.
Definition ndigits (c : N) : Z := ndigits_fuel (N.to_nat (N.size c)) c.

Definition pow10 (k : Z) : N := (10 ^ Z.to_N k)%N.

(** Drop the last [k] digits of [c], rounding half to even
    ([_round_half_even]): the quotient goes up when the dropped part is more
    than half a unit, or exactly half and the quotient is odd. *)
Definition round_half_even (c : N) (k : Z) : N :=
  let p := pow10 k in
  let q := (c / p)%N in
  let r := (c mod p)%N in
  match (2 * r ?= p)%N with
  | Lt => q
  | Gt => (q + 1)%N
  | Eq => if N.even q then q else (q + 1)%N
  end.

(** [_fix]: round a finite result to the context; Overflow is trapped. *)
Definition fix_finite (s : bool) (c : N) (e : Z) : result Decimal :=
  if (c =? 0)%N then Ok (DFin s 0 (Z.min (Z.max e Etiny) Emax))
  else
    let exp_min0 := ndigits c + e - prec in
    if Etop <? exp_min0 then Raise Overflow
    else
      let exp_min := Z.max exp_min0 Etiny in
      if e <? exp_min then
        let c1 := round_half_even c (exp_min - e) in
        let '(c2, e2) := if prec <? ndigits c1
                         then ((c1 / 10)%N, exp_min + 1)
                         else (c1, exp_min) in
        if Etop <? e2 then Raise Overflow else Ok (DFin s c2 e2)
      else Ok (DFin s c e).

Definition fix_dec (d : Decimal) : result Decimal :=
  match d with
  | DFin s c e => fix_finite s c e
  | DInf s => Ok (DInf s)
  | DNaN s sg p => Ok (DNaN s sg (p mod pow10 prec)%N)
  end.

(** [_check_nans]: a signaling NaN operand raises InvalidOperation, a quiet
    one is the result (the first operand's first). *)
Definition check_nans (a b : Decimal) : option (result Decimal) :=
  if is_snan a || is_snan b then Some (Raise InvalidOperation)
  else if is_nan a then Some (fix_dec a)
  else if is_nan b then Some (fix_dec b)
  else None.

(** [Decimal.__neg__]: minus zero becomes zero; the result is rounded. *)
Definition neg (d : Decimal) : result Decimal :=
  match check_nans d d with
  | Some r => r
  | None =>
      match d with
      | DFin s c e => if (c =? 0)%N then fix_finite false c e
                      else fix_finite (negb s) c e
      | DInf s => Ok (DInf (negb s))
      | DNaN _ _ _ => Ok d
      end
  end.

Definition copy_negate (d : Decimal) : Decimal :=
  match d with
  | DFin s c e => DFin (negb s) c e
  | DInf s => DInf (negb s)
  | DNaN s sg p => DNaN (negb s) sg p
  end.

Definition signed (s : bool) (c : N) : Z :=
  if s then - Z.of_N c else Z.of_N c.

(** [Decimal.__add__]: the exact sum at the smaller exponent, rounded. *)
Definition add (a b : Decimal) : result Decimal :=
  match check_nans a b with
  | Some r => r
  | None =>
      match a, b with
      | DInf sa, DInf sb =>
          if Bool.eqb sa sb then Ok a else Raise InvalidOperation
      | DInf _, _ => Ok a
      | _, DInf _ => Ok b
      | DFin sa ca ea, DFin sb cb eb =>
          let e := Z.min ea eb in
          if (ca =? 0)%N && (cb =? 0)%N then fix_finite (sa && sb) 0 e
          else
            let v := signed sa (ca * pow10 (ea - e)) +
                     signed sb (cb * pow10 (eb - e)) in
            if v =? 0 then fix_finite false 0 e
            else fix_finite (v <? 0) (Z.to_N (Z.abs v)) e
      | _, _ => Raise InvalidOperation
      end
  end.

(** [Decimal.__sub__] is [self + (-other)] after the NaN check. *)
Definition sub (a b : Decimal) : result Decimal :=
  match check_nans a b with
  | Some r => r
  | None => add a (copy_negate b)
  end.

(** [Decimal.__mul__]. *)
Definition mul (a b : Decimal) : result Decimal :=
  match check_nans a b with
  | Some r => r
  | None =>
      let s := xorb (sign_of a) (sign_of b) in
      match a, b with
      | DInf _, _ => if is_zero b then Raise InvalidOperation else Ok (DInf s)
      | _, DInf _ => if is_zero a then Raise InvalidOperation else Ok (DInf s)
      | DFin _ ca ea, DFin _ cb eb => fix_finite s (ca * cb) (ea + eb)
      | _, _ => Raise InvalidOperation
      end
  end.

(** The loop of [__truediv__] that brings an exact quotient as close to the
    ideal exponent as its trailing zeros allow. *)
Fixpoint strip_to_ideal (n : nat) (c : N) (e : Z) : N * Z :=
  match n with
  | O => (c, e)
  | S n' => if (c mod 10 =? 0)%N then strip_to_ideal n' (c / 10)%N (e + 1)
            else (c, e)
  end.

(** [Decimal.__truediv__]. *)
Definition div (a b : Decimal) : result Decimal :=
  match check_nans a b with
  | Some r => r
  | None =>
      let s := xorb (sign_of a) (sign_of b) in
      match a, b with
      | DInf _, DInf _ => Raise InvalidOperation
      | DInf _, _ => Ok (DInf s)
      | _, DInf _ => Ok (DFin s 0 Etiny)
      | DFin _ ca ea, DFin _ cb eb =>
          if (cb =? 0)%N then
            if (ca =? 0)%N then Raise InvalidOperation else Raise DivisionByZero
          else if (ca =? 0)%N then fix_finite s 0 (ea - eb)
          else
            let shift := ndigits cb - ndigits ca + prec + 1 in
            let e := ea - eb - shift in
            let '(q, r) := if 0 <=? shift
                           then N.div_eucl (ca * pow10 shift) cb
                           else N.div_eucl ca (cb * pow10 (- shift)) in
            if (r =? 0)%N then
              let '(q', e') := strip_to_ideal (Z.to_nat (ea - eb - e)) q e in
              fix_finite s q' e'
            else
              fix_finite s (if (q mod 5 =? 0)%N then q + 1 else q)%N e
      | _, _ => Raise InvalidOperation
      end
  end.

(** [Decimal._rescale] of a finite number to exponent [e'], half-even. *)
Definition rescale (s : bool) (c : N) (e e' : Z) : Decimal :=
  if (c =? 0)%N then DFin s 0 e'
  else if e' <=? e then DFin s (c * pow10 (e - e')) e'
  else DFin s (round_half_even c (e' - e)) e'.

(** [Decimal.quantize(exp)] with the context's rounding. *)
Definition quantize (d q : Decimal) : result Decimal :=
  match check_nans d q with
  | Some r => r
  | None =>
      match d, q with
      | DInf _, DInf _ => Ok d
      | DInf _, _ | _, DInf _ => Raise InvalidOperation
      | DFin s c e, DFin _ _ e' =>
          if negb ((Etiny <=? e') && (e' <=? Emax)) then Raise InvalidOperation
          else if (c =? 0)%N then fix_finite s 0 e'
          else if Emax <? ndigits c + e - 1 then Raise InvalidOperation
          else if prec <? ndigits c + e - 1 - e' + 1 then Raise InvalidOperation
          else
            match rescale s c e e' with
            | DFin s1 c1 e1 =>
                if Emax <? ndigits c1 + e1 - 1 then Raise InvalidOperation
                else if prec <? ndigits c1 then Raise InvalidOperation
                else fix_finite s1 c1 e1
            | _ => Raise InvalidOperation
            end
      | _, _ => Raise InvalidOperation
      end
  end.

(** [d != 0]: a signaling NaN raises; any other NaN differs from everything. *)
Definition ne_zero (d : Decimal) : result bool :=
  match d with
  | DNaN _ true _ => Raise InvalidOperation
  | DNaN _ false _ => Ok true
  | DInf _ => Ok true
  | DFin _ c _ => Ok (negb (c =? 0)%N)
  end.

End Dec.

(** ** Strings *)

Local Open Scope string_scope.
Local Open Scope char_scope.

Definition ascii_code (c : ascii) : N := N_of_ascii c.

(** [str.isspace] on the ASCII range, which is also the class [\s] of [re]:
    TAB, LF, VT, FF, CR, the separators FS, GS, RS, US and the space. *)
Definition is_space (c : ascii) : bool :=
  let n := ascii_code c in
  ((9 <=? n) && (n <=? 13) || (28 <=? n) && (n <=? 32))%N.

(** [\d] on the ASCII range. *)
Definition is_digit (c : ascii) : bool :=
  let n := ascii_code c in ((48 <=? n) && (n <=? 57))%N.

Definition digit_value (c : ascii) : N := (ascii_code c - 48)%N.

Fixpoint lstrip (s : string) : string :=
  match s with
  | String c s' => if is_space c then lstrip s' else s
  | EmptyString => EmptyString
  end.

Fixpoint rstrip (s : string) : string :=
  match s with
  | String c s' =>
      match rstrip s' with
      | EmptyString => if is_space c then EmptyString else String c EmptyString
      | r => String c r
      end
  | EmptyString => EmptyString
  end.

(** [s.strip()] *)
Definition strip (s : string) : string := rstrip (lstrip s).

(** [c in s] for a one-character string [c]. *)
Fixpoint contains (c : ascii) (s : string) : bool :=
  match s with
  | String x s' => Ascii.eqb x c || contains c s'
  | EmptyString => false
  end.

(** [s.split(c, 1)] when [c] occurs in [s]: the text before the first
    occurrence and the text after it; [None] when [c] does not occur (Python
    then returns the one-element list [[s]]). *)
Fixpoint split_once (c : ascii) (s : string) : option (string * string) :=
  match s with
  | String x s' =>
      if Ascii.eqb x c then Some (EmptyString, s')
      else match split_once c s' with
           | Some (a, b) => Some (String x a, b)
           | None => None
           end
  | EmptyString => None
  end.

(** [s.split(c)]: one part more than there are occurrences of [c]. *)
Fixpoint split_all (c : ascii) (s : string) : list string :=
  match s with
  | String x s' =>
      if Ascii.eqb x c then EmptyString :: split_all c s'
      else match split_all c s' with
           | p :: ps => String x p :: ps
           | [] => [String x EmptyString]
           end
  | EmptyString => [EmptyString]
  end.

(** [s.startswith(p)] *)
Definition startswith (p s : string) : bool := String.prefix p s.

(** [s[n:]] *)
Fixpoint drop_chars (n : nat) (s : string) : string :=
  match n, s with
  | S n', String _ s' => drop_chars n' s'
  | _, _ => s
  end.

(** [s[:n]] *)
Fixpoint take_chars (n : nat) (s : string) : string :=
  match n, s with
  | S n', String c s' => String c (take_chars n' s')
  | _, _ => EmptyString
  end.

(** The last character of [s] and what precedes it ([s[:-1]]). *)
Fixpoint unsnoc (s : string) : option (string * ascii) :=
  match s with
  | EmptyString => None
  | String c s' =>
      match unsnoc s' with
      | None => Some (EmptyString, c)
      | Some (r, l) => Some (String c r, l)
      end
  end.

Definition upper_char (c : ascii) : ascii :=
  let n := ascii_code c in
  if ((97 <=? n) && (n <=? 122))%N then ascii_of_N (n - 32) else c.
Definition lower_char (c : ascii) : ascii :=
  let n := ascii_code c in
  if ((65 <=? n) && (n <=? 90))%N then ascii_of_N (n + 32) else c.

Fixpoint map_string (f : ascii -> ascii) (s : string) : string :=
  match s with
  | String c s' => String (f c) (map_string f s')
  | EmptyString => EmptyString
  end.
Definition upper : string -> string := map_string upper_char.
Definition lower : string -> string := map_string lower_char.

Fixpoint filter_string (p : ascii -> bool) (s : string) : string :=
  match s with
  | String c s' => if p c then String c (filter_string p s')
                   else filter_string p s'
  | EmptyString => EmptyString
  end.

(** The longest prefix of characters satisfying [p], and the rest: a greedy
    [p*] of a regular expression. *)
Fixpoint span (p : ascii -> bool) (s : string) : string * string :=
  match s with
  | String c s' =>
      if p c then let '(a, b) := span p s' in (String c a, b)
      else (EmptyString, s)
  | EmptyString => (EmptyString, EmptyString)
  end.

(** [int(s)] for a string of ASCII digits. *)
Fixpoint digits_value (acc : N) (s : string) : N :=
  match s with
  | String c s' => digits_value (10 * acc + digit_value c)%N s'
  | EmptyString => acc
  end.

Definition str_len (s : string) : nat := String.length s.

(** ** The [Decimal(str)] constructor *)

Module DecStr.
Import Dec.

(** The exponent part [(E[-+]?\d+)?] followed by the end of the string. *)
Definition parse_exponent (s : string) : option Z :=
  match s with
  | EmptyString => Some 0%Z
  | String c r =>
      if Ascii.eqb (lower_char c) "e" then
        let '(neg, r1) := match r with
                          | String "-" r' => (true, r')
                          | String "+" r' => (false, r')
                          | _ => (false, r)
                          end in
        let '(ds, rest) := span is_digit r1 in
        match ds, rest with
        | String _ _, EmptyString =>
            let v := Z.of_N (digits_value 0 ds) in
            Some (if neg then (- v)%Z else v)
        | _, _ => None
        end
      else None
  end.

(** A finite numeric string: digits with an optional fraction and exponent,
    at least one digit in all. *)
Definition parse_finite (s : string) : option (N * Z) :=
  let '(ip, r1) := span is_digit s in
  let '(fp, r2) := match r1 with
                   | String "." r => span is_digit r
                   | _ => (EmptyString, r1)
                   end in
  match ip ++ fp with
  | EmptyString => None
  | String _ _ as ds =>
      match parse_exponent r2 with
      | Some e => Some (digits_value 0 ds, (e - Z.of_nat (str_len fp))%Z)
      | None => None
      end
  end.

(** [Inf], [Infinity], [NaN] and [sNaN] with optional diagnostic digits,
    in any letter case. *)
Definition parse_special (sign : bool) (s : string) : option Decimal :=
  let l := lower s in
  if String.eqb l "inf" || String.eqb l "infinity" then Some (DInf sign)
  else
    let '(sg, r) := match l with
                    | String "s" r' => (true, r')
                    | _ => (false, l)
                    end in
    if startswith "nan" r then
      let '(ds, rest) := span is_digit (drop_chars 3 r) in
      match rest with
      | EmptyString => Some (DNaN sign sg (digits_value 0 ds))
      | _ => None
      end
    else None.

(** [Decimal(value)] for a string: surrounding whitespace and underscores
    are dropped; a string that is no numeric string raises InvalidOperation
    (ConversionSyntax). The value is exact: the constructor does not round. *)
Definition of_str (value : string) : result Decimal :=
  let s := filter_string (fun c => negb (Ascii.eqb c "_")) (strip value) in
  let '(sign, s1) := match s with
                     | String "-" r => (true, r)
                     | String "+" r => (false, r)
                     | _ => (false, s)
                     end in
  match parse_finite s1 with
  | Some (c, e) => Ok (DFin sign c e)
  | None =>
      match parse_special sign s1 with
      | Some d => Ok d
      | None => Raise InvalidOperation
      end
  end.

End DecStr.

Close Scope char_scope.

Import Dec.
Definition Decimal_of_str : string -> result Decimal := DecStr.of_str.

(** ** Module 1: utilities *)

(** *** Calendar dates ([datetime.date]) *)

Record date := mkdate { year : Z; month : Z; day : Z }.

Definition isleap (y : Z) : bool :=
  ((y mod 4 =? 0) && (negb (y mod 100 =? 0) || (y mod 400 =? 0)))%Z.

(** [calendar.monthrange(y, m)[1]] for a month between 1 and 12. *)
Definition monthrange (y m : Z) : Z :=
  (if m =? 2 then (if isleap y then 29 else 28)
   else if (m =? 4) || (m =? 6) || (m =? 9) || (m =? 11) then 30
   else 31)%Z.

Definition valid_date (y m d : Z) : bool :=
  ((1 <=? y) && (y <=? 9999) && (1 <=? m) && (m <=? 12) &&
   (1 <=? d) && (d <=? monthrange y m))%Z.

(** The constructor behind [date.replace] and [datetime(y, m, d).date()]:
    ValueError unless the fields name a day of the calendar. *)
Definition make_date (y m d : Z) : result date :=
  if valid_date y m d then Ok (mkdate y m d)
  else Raise (ValueError DateOutOfRange).

Definition date_eqb (a b : date) : bool :=
  ((year a =? year b) && (month a =? month b) && (day a =? day b))%Z.
Definition date_ltb (a b : date) : bool :=
  ((year a <? year b) ||
   ((year a =? year b) &&
    ((month a <? month b) || ((month a =? month b) && (day a <? day b)))))%Z.
Definition date_leb (a b : date) : bool := negb (date_ltb b a).
(** [max(a, b)] and [min(a, b)] of two dates. *)
Definition date_max (a b : date) : date := if date_ltb a b then b else a.
Definition date_min (a b : date) : date := if date_ltb b a then b else a.

(** The day after [d] ([d + timedelta(days=1)]) within the calendar. *)
Definition next_day (d : date) : date :=
  (if day d <? monthrange (year d) (month d)
   then mkdate (year d) (month d) (day d + 1)
   else if month d <? 12 then mkdate (year d) (month d + 1) 1
   else mkdate (year d + 1) 1 1)%Z.

(** [datetime.strptime(s, '%Y-%m-%d').date()]: four digits, a month and a
    day of one or two digits (a day may be a space and a digit), and a day
    that exists; ValueError otherwise. *)
Definition two_digit_field (s : string) (allow_space : bool) : option Z :=
  match s with
  | String a EmptyString =>
      if is_digit a && negb (Ascii.eqb a "0"%char)
      then Some (Z.of_N (digit_value a)) else None
  | String a (String b EmptyString) =>
      if is_digit a && is_digit b then
        let v := Z.of_N (10 * digit_value a + digit_value b) in
        if (v =? 0)%Z then None else Some v
      else if allow_space && Ascii.eqb a " "%char && is_digit b
              && negb (Ascii.eqb b "0"%char)
      then Some (Z.of_N (digit_value b)) else None
  | _ => None
  end.

Definition strptime_ymd (s : string) : result date :=
  let bad := Raise (ValueError InvalidDateFormat) in
  let ys := take_chars 4 s in
  if negb ((str_len ys =? 4)%nat && String.eqb (filter_string is_digit ys) ys)
  then bad
  else
    match drop_chars 4 s with
    | String "-"%char r =>
        match split_once "-"%char r with
        | Some (ms, ds) =>
            match two_digit_field ms false, two_digit_field ds true with
            | Some m, Some d =>
                if ((m <=? 12) && (d <=? 31))%Z
                then make_date (Z.of_N (digits_value 0 ys)) m d
                else bad
            | _, _ => bad
            end
        | None => bad
        end
    | _ => bad
    end.

(** *** [get_period_ranges] *)

(** One iteration of the monthly [while] loop: the period of the month of
    [current_date] clipped to the overall range, and the next position,
    which keeps the day of [current_date]. *)
Definition monthly_step (start_date end_date current_date : date)
  : result ((date * date) * date) :=
  period_start ← make_date (year current_date) (month current_date) 1;
  let last_day := monthrange (year current_date) (month current_date) in
  period_end ← make_date (year current_date) (month current_date) last_day;
  let period_start := date_max period_start start_date in
  let period_end := date_min period_end end_date in
  next ← (if (month current_date =? 12)%Z
          then make_date (year current_date + 1) 1 (day current_date)
          else make_date (year current_date) (month current_date + 1)
                         (day current_date));
  Ok ((period_start, period_end), next).

(** One iteration of the quarterly loop. *)
Definition quarterly_step (start_date end_date current_date : date)
  : result ((date * date) * date) :=
  let quarter := ((month current_date - 1) / 3 + 1)%Z in
  let first_month := ((quarter - 1) * 3 + 1)%Z in
  period_start ← make_date (year current_date) first_month 1;
  let last_month := (quarter * 3)%Z in
  let last_day := monthrange (year current_date) last_month in
  period_end ← make_date (year current_date) last_month last_day;
  let period_start := date_max period_start start_date in
  let period_end := date_min period_end end_date in
  next ← (if (quarter =? 4)%Z
          then make_date (year current_date + 1) 1 (day current_date)
          else make_date (year current_date) (last_month + 1)
                         (day current_date));
  Ok ((period_start, period_end), next).

(** The [while current_date <= end_date] loop; [None] when [fuel] iterations
    did not reach the end of the loop. *)
Fixpoint period_loop (step : date -> result ((date * date) * date))
    (fuel : nat) (end_date current_date : date) (ranges : list (date * date))
  : option (result (list (date * date))) :=
  if date_leb current_date end_date then
    match fuel with
    | O => None
    | S fuel' =>
        match step current_date with
        | Ok (p, next) => period_loop step fuel' end_date next (ranges ++ [p])
        | Raise e => Some (Raise e)
        end
    end
  else Some (Ok ranges).

(** Every iteration moves [current_date] to a later month and the loop ends
    once the year of [end_date] is passed, so the months of the years from
    one date to the other bound the iterations. *)
Definition period_fuel (start_date end_date : date) : nat :=
  Z.to_nat (12 * (year end_date - year start_date + 1) + 2).

Definition get_period_ranges_fuel (fuel : nat) (start_date end_date : date)
    (period_type : string) : option (result (list (date * date))) :=
  if String.eqb period_type "m" then
    period_loop (monthly_step start_date end_date) fuel end_date start_date []
  else if String.eqb period_type "q" then
    period_loop (quarterly_step start_date end_date) fuel end_date start_date []
  else Some (Ok []).

(** [get_period_ranges]. The fuel is enough for every input (lemma
    [get_period_ranges_fuel_enough] below), so the last case is never
    taken. *)
Definition get_period_ranges (start_date end_date : date)
    (period_type : string) : result (list (date * date)) :=
  match get_period_ranges_fuel (period_fuel start_date end_date)
                               start_date end_date period_type with
  | Some r => r
  | None => Ok []
  end.

(** *** [apply_operation] *)

(** An operation is the pair (operator, operand) of the source. *)
Definition operation : Type := string * Decimal.

(** [value OP operand], the new value before it is rounded. *)
Definition operate (op : operation) (value : Decimal) : result Decimal :=
  let '(operator, operand) := op in
  if String.eqb operator "*" then mul value operand
  else if String.eqb operator "/" then
    match ne_zero operand with
    | Ok true => div value operand
    | Ok false => Ok zero
    | Raise e => Raise e
    end
  else if String.eqb operator "+" then add value operand
  else if String.eqb operator "-" then sub value operand
  else if String.eqb operator "%" then mul value operand
  else Ok value.

(** The body of the loop: the new value, quantized to cents. *)
Definition apply_one (op : operation) (value : Decimal) : result Decimal :=
  new_value ← operate op value;
  quantize new_value cent.

Definition apply_operation (values : list Decimal) (op : operation)
  : result (list Decimal) :=
  map_result (apply_one op) values.

(** *** [parse_gnucash_date] and [parse_gnucash_value] *)

Definition parse_gnucash_date (date_str : string) : result date :=
  strptime_ymd (take_chars 10 date_str).

Definition parse_gnucash_value (value_str : string) : result Decimal :=
  match split_all "/"%char value_str with
  | [p0; p1] =>
      numerator ← Decimal_of_str p0;
      denominator ← Decimal_of_str p1;
      value ← div numerator denominator;
      quantize value cent
  | _ => Ok zero
  end.

(** ** Report elements (classes of module 3, used by every later module) *)

Record AccountElement := mkAccountElement {
  guid : string;
  label : option string;
  acc_operation : option operation;
  recursive : bool;
  filter_guid : option string;
  regex_include : list string;
  regex_exclude : list string
}.

Inductive element_kind :=
| SectionElement (title : string)
| TitleElement (text : string)
| AccountElem (a : AccountElement)
| PlaceholderElement (description : string) (values : list Decimal)
| SumElement (description : string)
| CalcElement (description : string) (formula : string)
| BlankElement.

(** [ReportElement]: the base class fields and the variant. The reference
    is the integer of a [[n]] tag. *)
Record ReportElement := mkElement {
  line_num : nat;
  reference : option N;
  kind : element_kind
}.

(** Truth value of a string-or-None attribute ([if elem.filter_guid]). *)
Definition truthy_str (s : option string) : bool :=
  match s with
  | Some (String _ _) => true
  | _ => false
  end.
Definition nonempty {A} (l : list A) : bool :=
  match l with [] => false | _ => true end.
(** Truth value of a tuple-or-None attribute. *)
Definition truthy_tuple {A} (t : option (list A)) : bool :=
  match t with
  | Some (_ :: _) => true
  | _ => false
  end.

(** ** Module 2: the cache builder *)

Record Account := mkAccount {
  name : string;
  account_guid_of : string;
  parent_guid : option string;
  account_type : option string
}.

(** [CacheKey]: lists become tuples, an empty list becomes [None]. *)
Record CacheKey := mkCacheKey {
  account_guid : string;
  key_filter_guid : option string;
  key_regex_include : option (list string);
  key_regex_exclude : option (list string)
}.

Definition tuple_or_none (l : list string) : option (list string) :=
  match l with [] => None | _ => Some l end.

Definition make_CacheKey (account_guid : string) (filter_guid : option string)
    (regex_include regex_exclude : list string) : CacheKey :=
  mkCacheKey account_guid filter_guid
             (tuple_or_none regex_include) (tuple_or_none regex_exclude).

#[global] Instance CacheKey_eq_dec : EqDecision CacheKey.
Proof. solve_decision. Defined.

#[global] Instance CacheKey_countable : Countable CacheKey.
Proof.
  refine (inj_countable'
    (fun k => (account_guid k, key_filter_guid k,
               key_regex_include k, key_regex_exclude k))
    (fun t => let '(a, f, i, e) := t in mkCacheKey a f i e) _).
  by intros [].
Defined.

Definition needs_cache (a : AccountElement) : bool :=
  truthy_str (filter_guid a) || nonempty (regex_include a)
  || nonempty (regex_exclude a).

Definition key_of_account (a : AccountElement) : CacheKey :=
  make_CacheKey (guid a) (filter_guid a) (regex_include a) (regex_exclude a).

(** [identify_required_caches] *)
Fixpoint identify_required_caches (elements : list ReportElement)
  : gset CacheKey :=
  match elements with
  | [] => ∅
  | elem :: rest =>
      match kind elem with
      | AccountElem a =>
          if needs_cache a
          then identify_required_caches rest ∪ {[ key_of_account a ]}
          else identify_required_caches rest
      | _ => identify_required_caches rest
      end
  end.

(** The transaction store as the builder reads it from the XML tree: the
    text of the elements it looks up, [None] where [find] finds none. For
    the description and the notes the text itself can be [None] (an element
    without text), which [transaction_matches_regex] formats into the
    searched text. *)
Record Split := mkSplit {
  split_account : option string;
  split_value : option string
}.
Record Transaction := mkTransaction {
  date_posted : option string;
  trn_description : option (option string);
  trn_notes : option (option string);
  splits : list Split
}.

(** The first period that contains [trn_date], by index. *)
Fixpoint find_period (idx : nat) (period_ranges : list (date * date))
    (trn_date : date) : option nat :=
  match period_ranges with
  | [] => None
  | (start, end_) :: rest =>
      if date_leb start trn_date && date_leb trn_date end_ then Some idx
      else find_period (S idx) rest trn_date
  end.

(** [d[idx] += value] on a [defaultdict] whose default is [Decimal('0')]. *)
Definition add_to_period (totals : gmap nat Decimal) (period_idx : nat)
    (value : Decimal) : result (gmap nat Decimal) :=
  total ← add (default zero (totals !! period_idx)) value;
  Ok (<[period_idx := total]> totals).

(** [cache[split_guid][period_idx] += value] on the nested [defaultdict]:
    a missing account starts from the empty totals, a missing period from
    [Decimal('0')]. *)
Definition add_to_account (cache : gmap string (gmap nat Decimal))
    (split_guid : string) (period_idx : nat) (value : Decimal)
  : result (gmap string (gmap nat Decimal)) :=
  totals ← add_to_period (default ∅ (cache !! split_guid)) period_idx value;
  Ok (<[split_guid := totals]> cache).

(** The loop over the splits of a transaction in [build_transaction_cache]. *)
Fixpoint add_account_splits (account_guids : gset string) (period_idx : nat)
    (splits : list Split) (cache : gmap string (gmap nat Decimal))
  : result (gmap string (gmap nat Decimal)) :=
  match splits with
  | [] => Ok cache
  | split :: rest =>
      match split_account split with
      | None => add_account_splits account_guids period_idx rest cache
      | Some split_guid =>
          if negb (bool_decide (split_guid ∈ account_guids))
          then add_account_splits account_guids period_idx rest cache
          else
            match split_value split with
            | Some text =>
                value ← parse_gnucash_value text;
                cache' ← add_to_account cache split_guid period_idx value;
                add_account_splits account_guids period_idx rest cache'
            | None => add_account_splits account_guids period_idx rest cache
            end
      end
  end.

(** The body of the loop over the transactions. *)
Definition cache_transaction (period_ranges : list (date * date))
    (account_guids : gset string) (trn : Transaction)
    (cache : gmap string (gmap nat Decimal))
  : result (gmap string (gmap nat Decimal)) :=
  match date_posted trn with
  | None => Ok cache
  | Some text =>
      trn_date ← parse_gnucash_date text;
      match find_period 0 period_ranges trn_date with
      | None => Ok cache
      | Some period_idx =>
          add_account_splits account_guids period_idx (splits trn) cache
      end
  end.

Fixpoint transaction_cache_loop (period_ranges : list (date * date))
    (account_guids : gset string) (trns : list Transaction)
    (cache : gmap string (gmap nat Decimal))
  : result (gmap string (gmap nat Decimal)) :=
  match trns with
  | [] => Ok cache
  | trn :: rest =>
      cache' ← cache_transaction period_ranges account_guids trn cache;
      transaction_cache_loop period_ranges account_guids rest cache'
  end.

(** [build_transaction_cache] *)
Definition build_transaction_cache (tree : list Transaction)
    (period_ranges : list (date * date)) (account_guids : gset string)
  : result (gmap string (gmap nat Decimal)) :=
  transaction_cache_loop period_ranges account_guids tree ∅.

Section Caches.

(** [re.search(pattern, text, re.IGNORECASE) is not None]; a pattern that
    does not compile raises. *)
Variable re_search : string -> string -> result bool.

(** [elem.text if elem is not None else (the empty string)], as the
    f-string prints it: the text of an element without text is [None],
    printed as the word None. *)
Definition text_or_empty (elem : option (option string)) : string :=
  match elem with
  | None => ""
  | Some None => "None"
  | Some (Some text) => text
  end.

(** [transaction_matches_regex] *)
Fixpoint none_match (patterns : list string) (search_text : string)
  : result bool :=
  match patterns with
  | [] => Ok true
  | pattern :: rest =>
      m ← re_search pattern search_text;
      if m : bool then Ok false else none_match rest search_text
  end.
Fixpoint all_match (patterns : list string) (search_text : string)
  : result bool :=
  match patterns with
  | [] => Ok true
  | pattern :: rest =>
      m ← re_search pattern search_text;
      if m : bool then all_match rest search_text else Ok false
  end.

Definition transaction_matches_regex (trn : Transaction)
    (include_patterns exclude_patterns : list string) : result bool :=
  let description := text_or_empty (trn_description trn) in
  let notes := text_or_empty (trn_notes trn) in
  let search_text := description ++ " " ++ notes in
  ok ← none_match exclude_patterns search_text;
  if ok : bool then all_match include_patterns search_text else Ok false.

(** [filtered_caches[cache_key][period_idx] += value] *)
Definition add_to_cache (filtered_caches : gmap CacheKey (gmap nat Decimal))
    (cache_key : CacheKey) (period_idx : nat) (value : Decimal)
  : result (gmap CacheKey (gmap nat Decimal)) :=
  match filtered_caches !! cache_key with
  | Some totals =>
      totals' ← add_to_period totals period_idx value;
      Ok (<[cache_key := totals']> filtered_caches)
  | None => Raise KeyError
  end.

(** The splits of the target account add their values to the key's total
    of the period. *)
Fixpoint add_target_splits (cache_key : CacheKey) (period_idx : nat)
    (splits : list Split) (filtered_caches : gmap CacheKey (gmap nat Decimal))
  : result (gmap CacheKey (gmap nat Decimal)) :=
  match splits with
  | [] => Ok filtered_caches
  | split :: rest =>
      match split_account split with
      | None => add_target_splits cache_key period_idx rest filtered_caches
      | Some acct =>
          if negb (String.eqb acct (account_guid cache_key))
          then add_target_splits cache_key period_idx rest filtered_caches
          else
            match split_value split with
            | Some text =>
                value ← parse_gnucash_value text;
                caches' ← add_to_cache filtered_caches cache_key period_idx
                                       value;
                add_target_splits cache_key period_idx rest caches'
            | None =>
                add_target_splits cache_key period_idx rest filtered_caches
            end
      end
  end.

Definition has_filter_split (filter : string) (splits : list Split) : bool :=
  existsb (fun split => match split_account split with
                        | Some acct => String.eqb acct filter
                        | None => false
                        end) splits.

(** The body of the loop over the required caches, for one key: the FILTER
    test, the REGEX test, then the target account's splits. *)
Definition apply_key (trn : Transaction) (period_idx : nat)
    (cache_key : CacheKey)
    (filtered_caches : gmap CacheKey (gmap nat Decimal))
  : result (gmap CacheKey (gmap nat Decimal)) :=
  if truthy_str (key_filter_guid cache_key)
     && negb (has_filter_split (default "" (key_filter_guid cache_key))
                               (splits trn))
  then Ok filtered_caches
  else
    pass ← (if truthy_tuple (key_regex_include cache_key)
               || truthy_tuple (key_regex_exclude cache_key)
            then transaction_matches_regex trn
                   (default [] (key_regex_include cache_key))
                   (default [] (key_regex_exclude cache_key))
            else Ok true);
    if pass : bool
    then add_target_splits cache_key period_idx (splits trn) filtered_caches
    else Ok filtered_caches.

(** [for cache_key in required_caches: ...] for one transaction. *)
Fixpoint apply_keys (trn : Transaction) (period_idx : nat)
    (keys : list CacheKey)
    (filtered_caches : gmap CacheKey (gmap nat Decimal))
  : result (gmap CacheKey (gmap nat Decimal)) :=
  match keys with
  | [] => Ok filtered_caches
  | cache_key :: rest =>
      caches' ← apply_key trn period_idx cache_key filtered_caches;
      apply_keys trn period_idx rest caches'
  end.

(** The body of the loop over the transactions. *)
Definition process_transaction (period_ranges : list (date * date))
    (keys : list CacheKey) (trn : Transaction)
    (filtered_caches : gmap CacheKey (gmap nat Decimal))
  : result (gmap CacheKey (gmap nat Decimal)) :=
  match date_posted trn with
  | None => Ok filtered_caches
  | Some text =>
      trn_date ← parse_gnucash_date text;
      match find_period 0 period_ranges trn_date with
      | None => Ok filtered_caches
      | Some period_idx => apply_keys trn period_idx keys filtered_caches
      end
  end.

(** [for trn_elem in root.findall(...)]: the loop over the store, with the
    log of the transactions it visits (the counting store of the
    specification); an exception ends the loop at the transaction that
    raised. *)
Fixpoint transactions_loop (period_ranges : list (date * date))
    (keys : list CacheKey) (trns : list Transaction)
    (filtered_caches : gmap CacheKey (gmap nat Decimal))
    (visited : list Transaction)
  : list Transaction * result (gmap CacheKey (gmap nat Decimal)) :=
  match trns with
  | [] => (visited, Ok filtered_caches)
  | trn :: rest =>
      match process_transaction period_ranges keys trn filtered_caches with
      | Ok caches' =>
          transactions_loop period_ranges keys rest caches'
                            (visited ++ [trn])%list
      | Raise e => ((visited ++ [trn])%list, Raise e)
      end
  end.

(** [build_all_filtered_caches], with the visit log. Iterating over the set
    [required_caches] enumerates its elements in a fixed order. *)
Definition build_all_filtered_caches_traced (tree : list Transaction)
    (period_ranges : list (date * date)) (required_caches : gset CacheKey)
  : list Transaction * result (gmap CacheKey (gmap nat Decimal)) :=
  if decide (required_caches = ∅) then ([], Ok ∅)
  else
    let filtered_caches := gset_to_gmap (∅ : gmap nat Decimal) required_caches in
    transactions_loop period_ranges (elements required_caches) tree
                      filtered_caches [].

Definition build_all_filtered_caches (tree : list Transaction)
    (period_ranges : list (date * date)) (required_caches : gset CacheKey)
  : result (gmap CacheKey (gmap nat Decimal)) :=
  snd (build_all_filtered_caches_traced tree period_ranges required_caches).

End Caches.

(** ** Module 3: the markup parser *)

Record ReportConfig := mkConfig {
  start_date : option date;
  end_date : option date;
  period : string;
  account_name : string;
  gnucash_file : option string;
  csv_file : option string;
  invert_income : bool
}.

(** [ReportConfig()] *)
Definition default_config : ReportConfig :=
  mkConfig None None "m" "name_only" None None true.

Definition backslash : ascii := "\"%char.
Definition hash : ascii := "#"%char.
Definition dquote : ascii := "034"%char.
Definition newline : ascii := "010"%char.

Definition is_escaped (next_char : ascii) : bool :=
  Ascii.eqb next_char hash || Ascii.eqb next_char backslash.

(** [process_escape_sequences] *)
Fixpoint process_escape_sequences (text : string) : string :=
  match text with
  | String c rest =>
      match rest with
      | String next_char rest' =>
          if Ascii.eqb c backslash && is_escaped next_char
          then String next_char (process_escape_sequences rest')
          else String c (process_escape_sequences rest)
      | EmptyString => String c EmptyString
      end
  | EmptyString => EmptyString
  end.

(** The loop of [strip_comments], before the final [strip]. *)
Fixpoint strip_comments_loop (in_quotes : bool) (line : string) : string :=
  match line with
  | String char rest =>
      let unescaped :=
        if Ascii.eqb char dquote
        then String char (strip_comments_loop (negb in_quotes) rest)
        else if Ascii.eqb char hash && negb in_quotes then EmptyString
        else String char (strip_comments_loop in_quotes rest) in
      match rest with
      | String next_char rest' =>
          if Ascii.eqb char backslash && is_escaped next_char
          then String char (String next_char
                              (strip_comments_loop in_quotes rest'))
          else unescaped
      | EmptyString => unescaped
      end
  | EmptyString => EmptyString
  end.

Definition strip_comments (line : string) : string :=
  strip (strip_comments_loop false line).

Definition is_operator (c : ascii) : bool :=
  Ascii.eqb c "*" || Ascii.eqb c "/" || Ascii.eqb c "%"
  || Ascii.eqb c "+" || Ascii.eqb c "-".

Definition not_newline (c : ascii) : bool := negb (Ascii.eqb c newline).

(** [Decimal(value_str[:-1]) / 100] for a trailing percent sign, else
    [Decimal(value_str)]. *)
Definition parse_operand (value_str : string) : result Decimal :=
  match unsnoc value_str with
  | Some (literal, last) =>
      if Ascii.eqb last "%"
      then d ← Decimal_of_str literal; div d hundred
      else Decimal_of_str value_str
  | None => Decimal_of_str value_str
  end.

(** [parse_operation]. The pattern [^([*/%+-])\s*(.+)] is matched against a
    stripped string, so after the operator and the white space that follows
    it either nothing is left (no match) or a character that [.] accepts;
    the second group then runs to the end of that line. *)
Definition parse_operation (op_str : string) : result (option operation) :=
  match strip op_str with
  | String operator rest =>
      if is_operator operator then
        let '(_, r) := span is_space rest in
        let '(body, _) := span not_newline r in
        match body with
        | EmptyString => Ok None
        | String _ _ =>
            value ← parse_operand (strip body);
            Ok (Some (String operator EmptyString, value))
        end
      else Ok None
  | EmptyString => Ok None
  end.

(** [parse_date], with the current date [today] of [datetime.now()]. *)
Definition current_quarter (today : date) : Z :=
  ((month today - 1) / 3 + 1)%Z.

Definition parse_date (today : date) (date_str : string) : result date :=
  let date_str := upper (strip date_str) in
  let y := year today in
  let m := month today in
  let q := current_quarter today in
  let '(prev_quarter, prev_q_year) :=
    (if q =? 1 then (4, y - 1) else (q - 1, y))%Z in
  let '(prev_month, prev_m_year) :=
    (if m =? 1 then (12, y - 1) else (m - 1, y))%Z in
  if String.eqb date_str "TODAY" then Ok today
  else if String.eqb date_str "BPY" then make_date (y - 1) 1 1
  else if String.eqb date_str "BPQ"
  then make_date prev_q_year ((prev_quarter - 1) * 3 + 1) 1
  else if String.eqb date_str "BPM" then make_date prev_m_year prev_month 1
  else if String.eqb date_str "BY" then make_date y 1 1
  else if String.eqb date_str "BQ" then make_date y ((q - 1) * 3 + 1) 1
  else if String.eqb date_str "BM" then make_date y m 1
  else if String.eqb date_str "EPY" then make_date (y - 1) 12 31
  else if String.eqb date_str "EPQ"
  then make_date prev_q_year (prev_quarter * 3)
                 (monthrange prev_q_year (prev_quarter * 3))
  else if String.eqb date_str "EPM"
  then make_date prev_m_year prev_month (monthrange prev_m_year prev_month)
  else if String.eqb date_str "EY" then make_date y 12 31
  else if String.eqb date_str "EQ"
  then make_date y (q * 3) (monthrange y (q * 3))
  else if String.eqb date_str "EM" then make_date y m (monthrange y m)
  else
    match strptime_ymd date_str with
    | Ok d => Ok d
    | Raise _ => Raise (ValueError InvalidDateFormat)
    end.

(** The [re.finditer] of the REGEX line: an optional minus sign, a double
    quote, one or more characters that are no double quote, and a double
    quote. The quoted tokens come from left to right, each with its
    exclusion mark. *)
Fixpoint regex_tokens (fuel : nat) (s : string) : list (bool * string) :=
  match fuel with
  | O => []
  | S fuel' =>
      match s with
      | EmptyString => []
      | String c rest =>
          let quoted (is_exclude : bool) (after_quote : string) :=
            let '(body, r) := span (fun x => negb (Ascii.eqb x dquote))
                                   after_quote in
            match body, r with
            | String _ _, String _ r' =>
                (is_exclude, body) :: regex_tokens fuel' r'
            | _, _ => regex_tokens fuel' rest
            end in
          if Ascii.eqb c dquote then quoted false rest
          else if Ascii.eqb c "-" then
            match rest with
            | String c' after =>
                if Ascii.eqb c' dquote then quoted true after
                else regex_tokens fuel' rest
            | EmptyString => []
            end
          else regex_tokens fuel' rest
      end
  end.

Definition find_regex_tokens (patterns : string) : list (bool * string) :=
  regex_tokens (S (str_len patterns)) patterns.

(** [re.finditer(r'\[(\d+)\]', formula)]: the reference numbers of the
    formula from left to right. *)
Fixpoint ref_tokens (fuel : nat) (s : string) : list N :=
  match fuel with
  | O => []
  | S fuel' =>
      match s with
      | EmptyString => []
      | String c rest =>
          if Ascii.eqb c "[" then
            let '(ds, r) := span is_digit rest in
            match ds, r with
            | String _ _, String c' r' =>
                if Ascii.eqb c' "]"
                then digits_value 0 ds :: ref_tokens fuel' r'
                else ref_tokens fuel' rest
            | _, _ => ref_tokens fuel' rest
            end
          else ref_tokens fuel' rest
      end
  end.

Definition find_refs (formula : string) : list N :=
  ref_tokens (S (str_len formula)) formula.

(** The local variables of [parse_report_definition] that the loop over
    the lines updates. [last_account] aliases an element of [elements]: it
    is kept as the position of that element. *)
Record parser_state := mkState {
  ps_config : ReportConfig;
  ps_elements : list ReportElement;
  ps_references : gmap N nat;
  ps_last_account : option nat
}.

Definition initial_state : parser_state :=
  mkState default_config [] ∅ None.

Definition commands : list string :=
  ["SECTION:"; "TITLE:"; "ACCOUNT:"; "ACCOUNTS:"; "SUM:"; "CALC:";
   "PLACEHOLDER:"; "BLANK:"; "FILTER:"; "REGEX:"].

(** The [[n]] prefix: [re.match(r'^\[(\d+)\]\s+(.+)', line)] on a stripped
    line, giving [int(group(1))] and [group(2)]. *)
Definition match_reference (line : string) : option (N * string) :=
  match line with
  | String c r =>
      if Ascii.eqb c "[" then
        let '(ds, r1) := span is_digit r in
        match ds, r1 with
        | String _ _, String c' r2 =>
            if Ascii.eqb c' "]" then
              let '(ws, r3) := span is_space r2 in
              let '(body, _) := span not_newline r3 in
              match ws, body with
              | String _ _, String _ _ => Some (digits_value 0 ds, body)
              | _, _ => None
              end
            else None
        | _, _ => None
        end
      else None
  | EmptyString => None
  end.

(** The statements every element-creating branch but BLANK repeats:
    [elem.reference = current_reference], the recording of a reference that
    is truthy, [elements.append(elem)] and the new [last_account]. *)
Definition record_reference (references : gmap N nat)
    (current_reference : option N) (line_num : nat) : gmap N nat :=
  match current_reference with
  | Some n => if (n =? 0)%N then references else <[n := line_num]> references
  | None => references
  end.

Definition append_element (st : parser_state) (line_num : nat)
    (current_reference : option N) (k : element_kind) (is_account : bool)
  : parser_state :=
  mkState (ps_config st)
          (ps_elements st ++ [mkElement line_num current_reference k])%list
          (record_reference (ps_references st) current_reference line_num)
          (if is_account then Some (length (ps_elements st)) else None).

Definition update_account (f : AccountElement -> AccountElement)
    (e : ReportElement) : ReportElement :=
  match kind e with
  | AccountElem a => mkElement (line_num e) (reference e) (AccountElem (f a))
  | _ => e
  end.

Definition set_filter (g : string) (a : AccountElement) : AccountElement :=
  mkAccountElement (guid a) (label a) (acc_operation a) (recursive a)
                   (Some g) (regex_include a) (regex_exclude a).

Definition add_pattern (tok : bool * string) (a : AccountElement)
  : AccountElement :=
  let '(is_exclude, pattern) := tok in
  if is_exclude
  then mkAccountElement (guid a) (label a) (acc_operation a) (recursive a)
         (filter_guid a) (regex_include a) (regex_exclude a ++ [pattern])%list
  else mkAccountElement (guid a) (label a) (acc_operation a) (recursive a)
         (filter_guid a) (regex_include a ++ [pattern])%list (regex_exclude a).

(** The loop over the operators of the ACCOUNT branch: the first operator
    of the list that occurs in the text splits it at its first occurrence. *)
Fixpoint find_operation (ops : list ascii) (guid_and_op : string)
  : result (string * option operation) :=
  match ops with
  | [] => Ok (guid_and_op, None)
  | op :: ops' =>
      match split_once op guid_and_op with
      | Some (before, after) =>
          operation ← parse_operation (String op after);
          Ok (strip before, operation)
      | None => find_operation ops' guid_and_op
      end
  end.

Definition operators : list ascii :=
  ["*"%char; "/"%char; "+"%char; "-"%char; "%"%char].

(** The text after [ACCOUNT:] or [ACCOUNTS:]: the account id, the operation
    and the label. *)
Definition parse_account_content (content : string) (is_recursive : bool)
  : result AccountElement :=
  let '(guid_and_op, label) :=
    match split_once "|"%char content with
    | Some (a, b) => (strip a, Some (strip b))
    | None => (content, None)
    end in
  '(guid, operation) ← find_operation operators guid_and_op;
  Ok (mkAccountElement guid label operation is_recursive None [] []).

Definition set_config_start (c : ReportConfig) (d : date) : ReportConfig :=
  mkConfig (Some d) (end_date c) (period c) (account_name c)
           (gnucash_file c) (csv_file c) (invert_income c).
Definition set_config_end (c : ReportConfig) (d : date) : ReportConfig :=
  mkConfig (start_date c) (Some d) (period c) (account_name c)
           (gnucash_file c) (csv_file c) (invert_income c).
Definition set_config_period (c : ReportConfig) (v : string) : ReportConfig :=
  mkConfig (start_date c) (end_date c) v (account_name c)
           (gnucash_file c) (csv_file c) (invert_income c).
Definition set_config_account_name (c : ReportConfig) (v : string)
  : ReportConfig :=
  mkConfig (start_date c) (end_date c) (period c) v
           (gnucash_file c) (csv_file c) (invert_income c).
Definition set_config_gnucash_file (c : ReportConfig) (v : string)
  : ReportConfig :=
  mkConfig (start_date c) (end_date c) (period c) (account_name c)
           (Some v) (csv_file c) (invert_income c).
Definition set_config_csv_file (c : ReportConfig) (v : string)
  : ReportConfig :=
  mkConfig (start_date c) (end_date c) (period c) (account_name c)
           (gnucash_file c) (Some v) (invert_income c).
Definition set_config_invert (c : ReportConfig) (v : bool) : ReportConfig :=
  mkConfig (start_date c) (end_date c) (period c) (account_name c)
           (gnucash_file c) (csv_file c) v.

Definition str_in (s : string) (l : list string) : bool :=
  existsb (String.eqb s) l.

(** A configuration line [key: value]. An unknown key changes nothing. *)
Definition parse_config_line (today : date) (line_num : nat)
    (config : ReportConfig) (line : string) : result ReportConfig :=
  match split_once ":"%char line with
  | None => Ok config
  | Some (key, value) =>
      let key := upper (strip key) in
      let value := strip value in
      if String.eqb key "START_DATE"
      then d ← parse_date today value; Ok (set_config_start config d)
      else if String.eqb key "END_DATE"
      then d ← parse_date today value; Ok (set_config_end config d)
      else if String.eqb key "PERIOD" then
        let value := lower value in
        if str_in value ["m"; "q"] then Ok (set_config_period config value)
        else Raise (ValueError (InvalidPeriod line_num))
      else if String.eqb key "ACCOUNT_NAME" then
        let value_lower := lower value in
        if str_in value_lower ["full_path"; "name_only"]
        then Ok (set_config_account_name config value_lower)
        else Raise (ValueError (InvalidAccountName line_num))
      else if String.eqb key "GNUCASH_FILE"
      then Ok (set_config_gnucash_file config value)
      else if String.eqb key "CSV_FILE"
      then Ok (set_config_csv_file config value)
      else if String.eqb key "INVERT_INCOME" then
        let value_lower := lower value in
        if str_in value_lower ["true"; "yes"; "1"]
        then Ok (set_config_invert config true)
        else if str_in value_lower ["false"; "no"; "0"]
        then Ok (set_config_invert config false)
        else Raise (ValueError (InvalidInvertIncome line_num))
      else Ok config
  end.

Definition with_config (st : parser_state) (c : ReportConfig) : parser_state :=
  mkState c (ps_elements st) (ps_references st) (ps_last_account st).

Definition with_elements (st : parser_state) (es : list ReportElement)
  : parser_state :=
  mkState (ps_config st) es (ps_references st) (ps_last_account st).

(** The command branches of the loop body, for a line that is no
    configuration line. *)
Definition parse_command (line_num : nat) (current_reference : option N)
    (st : parser_state) (line : string) : result parser_state :=
  if startswith "SECTION:" line then
    Ok (append_element st line_num current_reference
          (SectionElement (strip (drop_chars 8 line))) false)
  else if startswith "TITLE:" line then
    Ok (append_element st line_num current_reference
          (TitleElement (strip (drop_chars 6 line))) false)
  else if startswith "ACCOUNT:" line || startswith "ACCOUNTS:" line then
    let is_recursive := startswith "ACCOUNTS:" line in
    let content := if is_recursive then strip (drop_chars 9 line)
                   else strip (drop_chars 8 line) in
    a ← parse_account_content content is_recursive;
    Ok (append_element st line_num current_reference (AccountElem a) true)
  else if startswith "FILTER:" line then
    match ps_last_account st with
    | None => Raise (ValueError (FilterWithoutAccount line_num))
    | Some i =>
        let g := strip (drop_chars 7 line) in
        Ok (with_elements st
              (alter (update_account (set_filter g)) i (ps_elements st)))
    end
  else if startswith "REGEX:" line then
    match ps_last_account st with
    | None => Raise (ValueError (RegexWithoutAccount line_num))
    | Some i =>
        let patterns := strip (drop_chars 6 line) in
        Ok (with_elements st
              (alter (update_account
                        (fun a => fold_left (fun a tok => add_pattern tok a)
                                            (find_regex_tokens patterns) a))
                     i (ps_elements st)))
    end
  else if startswith "PLACEHOLDER:" line then
    let content := strip (drop_chars 12 line) in
    match split_once "|"%char content with
    | None => Raise (ValueError (PlaceholderFormat line_num))
    | Some (description, values_str) =>
        values ← map_result (fun v => Decimal_of_str (strip v))
                            (split_all ","%char values_str);
        Ok (append_element st line_num current_reference
              (PlaceholderElement (strip description) values) false)
    end
  else if startswith "SUM:" line then
    Ok (append_element st line_num current_reference
          (SumElement (strip (drop_chars 4 line))) false)
  else if startswith "CALC:" line then
    let content := strip (drop_chars 5 line) in
    match split_once "|"%char content with
    | None => Raise (ValueError (CalcFormat line_num))
    | Some (description, formula) =>
        let formula := strip formula in
        match List.find (fun ref_num =>
                           negb (bool_decide (is_Some (ps_references st !! ref_num))))
                        (find_refs formula) with
        | Some ref_num =>
            Raise (ValueError (UndefinedReference line_num ref_num))
        | None =>
            Ok (append_element st line_num current_reference
                  (CalcElement (strip description) formula) false)
        end
    end
  else if String.eqb (upper line) "BLANK:" then
    Ok (mkState (ps_config st)
                (ps_elements st ++ [mkElement line_num None BlankElement])%list
                (ps_references st) None)
  else Raise (ValueError (UnrecognizedCommand line_num)).

(** The body of the loop over the lines of the file. *)
Definition process_line (today : date) (line_num : nat) (st : parser_state)
    (raw_line : string) : result parser_state :=
  let line := strip_comments raw_line in
  let line := process_escape_sequences line in
  let line := strip line in
  match line with
  | EmptyString => Ok st
  | String _ _ =>
      '(current_reference, line) ←
        match match_reference line with
        | Some (n, rest) =>
            match ps_references st !! n with
            | Some first_line =>
                Raise (ValueError
                         (DuplicateReference line_num n first_line))
            | None => Ok (Some n, rest)
            end
        | None => Ok (None, line)
        end;
      if contains ":"%char line
         && negb (existsb (fun k => startswith k line) commands)
      then
        config ← parse_config_line today line_num (ps_config st) line;
        Ok (with_config st config)
      else parse_command line_num current_reference st line
  end.

(** The loop over the lines; the first line has number 1. *)
Fixpoint process_lines (today : date) (line_num : nat) (st : parser_state)
    (lines : list string) : result parser_state :=
  match lines with
  | [] => Ok st
  | raw_line :: rest =>
      st' ← process_line today (S line_num) st raw_line;
      process_lines today (S line_num) st' rest
  end.

(** The check of the PLACEHOLDER value counts after the loop. *)
Fixpoint check_placeholders (expected_periods : nat)
    (elements : list ReportElement) : result unit :=
  match elements with
  | [] => Ok tt
  | elem :: rest =>
      match kind elem with
      | PlaceholderElement _ values =>
          if (length values =? expected_periods)%nat
          then check_placeholders expected_periods rest
          else Raise (ValueError (PlaceholderCount (line_num elem)
                                    (length values) expected_periods))
      | _ => check_placeholders expected_periods rest
      end
  end.

(** [parse_report_definition] on the lines that [readlines] returns. The
    result is the configuration, the elements and the reference table. *)
Definition parse_report_definition (today : date) (lines : list string)
  : result (ReportConfig * list ReportElement * gmap N nat) :=
  st ← process_lines today 0 initial_state lines;
  let config := ps_config st in
  start ← match start_date config with
          | Some d => Ok d
          | None => parse_date today "BY"
          end;
  end_ ← match end_date config with
         | Some d => Ok d
         | None => parse_date today "EY"
         end;
  let config := set_config_end (set_config_start config start) end_ in
  period_ranges ← get_period_ranges start end_ (period config);
  _ ← check_placeholders (length period_ranges) (ps_elements st);
  Ok (config, ps_elements st, ps_references st).

(** ** Module 4: the calculator *)

(** The account registry: the items of the [accounts] dictionary in their
    order. *)
Definition lookup_account (g : string) (accounts : list (string * Account))
  : option Account :=
  snd <$> List.find (fun item => String.eqb (fst item) g) accounts.

(** [get_descendant_guids]: [add_children] appends to the shared list
    [guids]. [frames] is the number of nested calls of [add_children] that
    the interpreter still allows when [get_descendant_guids] is called: its
    recursion limit ([sys.getrecursionlimit()], 1000 unless changed) less
    the frames of the callers. A deeper nesting, and so every cycle of
    parents, raises RecursionError. *)
Fixpoint add_children (frames : nat) (accounts : list (string * Account))
    (parent : string) (guids : list string) : result (list string) :=
  match frames with
  | O => Raise RecursionError
  | S fuel' =>
      (fix loop (items : list (string * Account)) (guids : list string)
         : result (list string) :=
         match items with
         | [] => Ok guids
         | (acc_guid, account) :: rest =>
             match parent_guid account with
             | Some pg =>
                 if String.eqb pg parent then
                   guids' ← add_children fuel' accounts acc_guid
                                         (guids ++ [acc_guid])%list;
                   loop rest guids'
                 else loop rest guids
             | None => loop rest guids
             end
         end) accounts guids
  end.

Definition get_descendant_guids (frames : nat) (account_guid : string)
    (accounts : list (string * Account)) : result (list string) :=
  add_children frames accounts account_guid [account_guid].

(** The dictionary that [calculate_account_values] returns; the keys
    ['filtered'] and ['regex_filtered'] are optional. *)
Record account_values := mkValues {
  raw : list Decimal;
  filtered : option (list Decimal);
  regex_filtered : option (list Decimal);
  final : list Decimal;
  valid : bool
}.

(** [period_total += value] over the target accounts. *)
Fixpoint sum_decimals (acc : Decimal) (vs : list Decimal) : result Decimal :=
  match vs with
  | [] => Ok acc
  | v :: rest => acc' ← add acc v; sum_decimals acc' rest
  end.

Definition cache_get (cache : gmap string (gmap nat Decimal)) (g : string)
    (period_idx : nat) : Decimal :=
  default zero (default ∅ (cache !! g) !! period_idx).

Definition is_income (account : Account) : bool :=
  match account_type account with
  | Some t => String.eqb t "INCOME"
  | None => false
  end.

(** [calculate_account_values]; [frames] is the depth of calls left for
    [get_descendant_guids]. *)
Definition calculate_account_values (frames : nat) (elem : AccountElement)
    (period_ranges : list (date * date)) (accounts : list (string * Account))
    (config : ReportConfig)
    (transaction_cache : gmap string (gmap nat Decimal))
    (filtered_caches : gmap CacheKey (gmap nat Decimal))
  : result account_values :=
  let num_periods := length period_ranges in
  match lookup_account (guid elem) accounts with
  | None =>
      let zero_values := replicate num_periods zero in
      Ok (mkValues zero_values None None zero_values false)
  | Some account =>
      target_guids ← (if recursive elem
                      then get_descendant_guids frames (guid elem) accounts
                      else Ok [guid elem]);
      raw_values ←
        map_result (fun period_idx =>
                      sum_decimals zero
                        (map (fun g => cache_get transaction_cache g period_idx)
                             target_guids))
                   (seq 0 num_periods);
      let invert := invert_income config && is_income account in
      raw_values ← (if invert then map_result neg raw_values
                    else Ok raw_values);
      '(filtered, regex_filtered, working_values) ←
        (if needs_cache elem then
           match filtered_caches !! key_of_account elem with
           | Some totals =>
               filtered_values ←
                 map_result (fun period_idx =>
                               let value := default zero (totals !! period_idx) in
                               if invert then neg value else Ok value)
                            (seq 0 num_periods);
               if nonempty (regex_include elem) || nonempty (regex_exclude elem)
               then Ok (None, Some filtered_values, filtered_values)
               else if truthy_str (filter_guid elem)
               then Ok (Some filtered_values, None, filtered_values)
               else Ok (None, None, filtered_values)
           | None => Ok (None, None, raw_values)
           end
         else Ok (None, None, raw_values));
      final_values ← match acc_operation elem with
                     | Some op => apply_operation working_values op
                     | None => Ok working_values
                     end;
      Ok (mkValues raw_values filtered regex_filtered final_values true)
  end.

(** What [stored_values] holds for an element: the dictionary of an account
    row, or the value list of a SUM or CALC row. The keys are elements,
    compared by identity: here their positions in [elements]. *)
Inductive stored_value :=
| AccountValues (v : account_values)
| SeriesValues (v : list Decimal).

(** [values[i]] *)
Definition getitem {A} (l : list A) (i : nat) : result A :=
  match l !! i with
  | Some x => Ok x
  | None => Raise IndexError
  end.

(** [for period_idx in range(num_periods):
       sum_values[period_idx] += values[period_idx]] *)
Definition add_at (values : list Decimal) (sum_values : list Decimal)
    (period_idx : nat) : result (list Decimal) :=
  s ← getitem sum_values period_idx;
  v ← getitem values period_idx;
  total ← add s v;
  Ok (<[period_idx := total]> sum_values).

Fixpoint fold_result {A B} (f : A -> B -> result A) (l : list B) (a : A)
  : result A :=
  match l with
  | [] => Ok a
  | x :: l' => a' ← f a x; fold_result f l' a'
  end.

Definition add_series (num_periods : nat) (values sum_values : list Decimal)
  : result (list Decimal) :=
  fold_result (add_at values) (seq 0 num_periods) sum_values.

(** The backward scan of [calculate_sum_values] over the elements before
    the SUM, nearest first, each with its position. *)
Fixpoint sum_scan (num_periods : nat) (stored_values : gmap nat stored_value)
    (before : list (nat * ReportElement)) (sum_values : list Decimal)
  : result (list Decimal) :=
  match before with
  | [] => Ok sum_values
  | (i, prev_elem) :: rest =>
      match kind prev_elem with
      | TitleElement _ | SumElement _ | CalcElement _ _ => Ok sum_values
      | SectionElement _ | BlankElement =>
          sum_scan num_periods stored_values rest sum_values
      | AccountElem _ =>
          match stored_values !! i with
          | Some (AccountValues v) =>
              sum_values' ← add_series num_periods (final v) sum_values;
              sum_scan num_periods stored_values rest sum_values'
          | Some (SeriesValues _) => Raise TypeError
          | None => sum_scan num_periods stored_values rest sum_values
          end
      | PlaceholderElement _ values =>
          sum_values' ← add_series num_periods values sum_values;
          sum_scan num_periods stored_values rest sum_values'
      end
  end.

(** The elements with their positions. *)
Definition indexed {A} (l : list A) : list (nat * A) :=
  imap (fun i x => (i, x)) l.

(** [calculate_sum_values]; [elem_idx] is [elements.index(elem)], the
    position of the SUM element. *)
Definition calculate_sum_values (elem_idx : nat)
    (elements : list ReportElement) (stored_values : gmap nat stored_value)
    (num_periods : nat) : result (list Decimal) :=
  sum_scan num_periods stored_values
           (rev (take elem_idx (indexed elements)))
           (replicate num_periods zero).

(** [s.replace(old, new)] for a non-empty [old]. *)
Fixpoint str_replace_fuel (fuel : nat) (old new s : string) : string :=
  match fuel with
  | O => s
  | S fuel' =>
      match s with
      | EmptyString => EmptyString
      | String c rest =>
          if startswith old s
          then new ++ str_replace_fuel fuel' old new
                        (drop_chars (str_len old) s)
          else String c (str_replace_fuel fuel' old new rest)
      end
  end.
Definition str_replace (old new s : string) : string :=
  str_replace_fuel (str_len s) old new s.

(** The percent rewriting of the formula: a number (digits, optionally a
    point and digits) followed by a percent sign becomes that number
    divided by 100 in parentheses. *)
Definition percent_literal (s : string) : option (string * string) :=
  let '(ds, r) := span is_digit s in
  match ds with
  | EmptyString => None
  | String _ _ =>
      let whole :=
        match r with
        | String c r' => if Ascii.eqb c "%" then Some (ds, r') else None
        | EmptyString => None
        end in
      match r with
      | String c r1 =>
          if Ascii.eqb c "." then
            let '(fs, r2) := span is_digit r1 in
            match fs, r2 with
            | String _ _, String c2 r3 =>
                if Ascii.eqb c2 "%" then Some (ds ++ "." ++ fs, r3)
                else whole
            | _, _ => whole
            end
          else whole
      | EmptyString => whole
      end
  end.

Fixpoint percent_rewrite_fuel (fuel : nat) (s : string) : string :=
  match fuel with
  | O => s
  | S fuel' =>
      match s with
      | EmptyString => EmptyString
      | String c rest =>
          match percent_literal s with
          | Some (x, r) => "(" ++ x ++ "/100)" ++ percent_rewrite_fuel fuel' r
          | None => String c (percent_rewrite_fuel fuel' rest)
          end
      end
  end.
Definition percent_rewrite (s : string) : string :=
  percent_rewrite_fuel (str_len s) s.

(** [str(n)] of an integer. *)
Definition string_of_N (n : N) : string :=
  DecimalString.NilZero.string_of_uint (N.to_uint n).

(** The first element whose reference is [ref_num]. *)
Fixpoint find_reference (ref_num : N) (items : list (nat * ReportElement))
  : option (nat * ReportElement) :=
  match items with
  | [] => None
  | (i, e) :: rest =>
      match reference e with
      | Some n => if (n =? ref_num)%N then Some (i, e)
                  else find_reference ref_num rest
      | None => find_reference ref_num rest
      end
  end.

(** The value of the referenced row at a period, as the CALC loop reads
    it. *)
Definition referenced_value (stored_values : gmap nat stored_value)
    (ref : nat * ReportElement) (period_idx : nat) : result Decimal :=
  let '(i, ref_elem) := ref in
  match kind ref_elem with
  | AccountElem _ =>
      match stored_values !! i with
      | Some (AccountValues v) => getitem (final v) period_idx
      | Some (SeriesValues _) => Raise TypeError
      | None => Raise KeyError
      end
  | PlaceholderElement _ values => getitem values period_idx
  | SumElement _ | CalcElement _ _ =>
      match stored_values !! i with
      | Some (SeriesValues l) => getitem l period_idx
      | Some (AccountValues _) => Raise KeyError
      | None => Raise KeyError
      end
  | _ => Ok zero
  end.

(** What the evaluation of a formula can reach and change. The formula is
    text of the definition file, evaluated by [eval] in the scope of
    [calculate_calc_values]: it can call methods of the objects of that
    scope, so it can change the list [calc_values] that the function is
    filling and the dictionary [stored_values] of the rows computed so far
    (an object that it puts there is taken to be a Decimal); [world] stands
    for what else it can read and change in the interpreter without a
    change of the objects that the calculation reads. *)
Record calc_scope (World : Type) := mkScope {
  scope_world : World;
  scope_values : list Decimal;
  scope_stored : gmap nat stored_value
}.
Arguments mkScope {World} _ _ _.
Arguments scope_world {World} _.
Arguments scope_values {World} _.
Arguments scope_stored {World} _.

(** How [str(eval(formula_str))] ends: with the printed value, with an
    exception of the class Exception (which the [except Exception] clause
    catches), or with an exception outside that class (SystemExit,
    KeyboardInterrupt), which it does not catch. An evaluation that changes
    another object that the calculation reads (the element list, the
    formula or the reference tables of the call, the arguments of the
    caller) has interfered: the model does not follow the program from
    there, and marks the result with [OutsideModel]. *)
Inductive eval_outcome :=
| Evaluated (text : string)
| Failed
| Escaped (name : string)
| Interfered.

Section Calculator.

(** [str(float(d))] for a decimal that is no signaling NaN. *)
Variable float_repr : Decimal -> string.
Variable World : Type.
(** [str(eval(formula_str))] for the CALC element [elem] in the period
    [period_idx]: how it ends and what it leaves of the scope. *)
Variable eval_str : ReportElement -> nat -> string -> calc_scope World ->
                    eval_outcome * calc_scope World.

Definition str_float (d : Decimal) : result string :=
  if is_snan d then Raise (ValueError SignalingNaNToFloat)
  else Ok (float_repr d).

(** The substitution of the references of the formula for one period. *)
Definition substitute_refs (formula : string) (elements : list ReportElement)
    (stored_values : gmap nat stored_value) (period_idx : nat)
  : result string :=
  fold_result
    (fun formula_str ref_num =>
       match find_reference ref_num (indexed elements) with
       | Some ref =>
           value ← referenced_value stored_values ref period_idx;
           text ← str_float value;
           Ok (str_replace ("[" ++ string_of_N ref_num ++ "]") text
                           formula_str)
       | None => Ok formula_str
       end)
    (find_refs formula) formula.

(** [calc_values.append(result)] *)
Definition append_value (result : Decimal) (scope : calc_scope World)
  : calc_scope World :=
  mkScope (scope_world scope) (scope_values scope ++ [result])%list
          (scope_stored scope).

(** The [try] block of the CALC loop and its [except Exception] clause: the
    conversion and the rounding of the value are inside the block. *)
Definition evaluate_formula (elem : ReportElement) (period_idx : nat)
    (formula_str : string) (scope : calc_scope World)
  : result (calc_scope World) :=
  let '(outcome, scope') := eval_str elem period_idx formula_str scope in
  match outcome with
  | Evaluated text =>
      match (result ← Decimal_of_str text; quantize result cent) with
      | Ok result => Ok (append_value result scope')
      | Raise _ => Ok (append_value zero scope')
      end
  | Failed => Ok (append_value zero scope')
  | Escaped name => Raise (Uncaught name)
  | Interfered => Raise OutsideModel
  end.

(** The body of the loop over the periods. *)
Definition calc_period (elem : ReportElement) (formula : string)
    (elements : list ReportElement) (scope : calc_scope World)
    (period_idx : nat) : result (calc_scope World) :=
  formula_str ← substitute_refs formula elements (scope_stored scope)
                                period_idx;
  evaluate_formula elem period_idx (percent_rewrite formula_str) scope.

(** [calculate_calc_values] for the CALC element [elem] with the formula
    [formula]; it returns the scope as the evaluations leave it, whose
    [scope_values] are the list that the source returns. *)
Definition calculate_calc_values (elem : ReportElement) (formula : string)
    (stored_values : gmap nat stored_value) (elements : list ReportElement)
    (num_periods : nat) (world : World) : result (calc_scope World) :=
  fold_result (calc_period elem formula elements) (seq 0 num_periods)
              (mkScope world [] stored_values).

(** [process_report_elements]: the loop over the elements, storing each
    result before the next element is processed. [gnucash] is the loaded
    account registry, [None] when no GnuCash file was loaded; the state of
    the loop is [stored_values] and the world of the evaluations. *)
Definition process_element (frames : nat) (config : ReportConfig)
    (elements : list ReportElement)
    (gnucash : option (list (string * Account)))
    (period_ranges : list (date * date))
    (transaction_cache : gmap string (gmap nat Decimal))
    (filtered_caches : gmap CacheKey (gmap nat Decimal))
    (state : World * gmap nat stored_value) (item : nat * ReportElement)
  : result (World * gmap nat stored_value) :=
  let '(world, stored_values) := state in
  let '(i, elem) := item in
  let num_periods := length period_ranges in
  match kind elem with
  | AccountElem a =>
      match gnucash with
      | Some ((_ :: _) as accounts) =>
          values_dict ← calculate_account_values frames a period_ranges
                          accounts config transaction_cache filtered_caches;
          Ok (world, <[i := AccountValues values_dict]> stored_values)
      | _ =>
          Ok (world,
              <[i := AccountValues
                       (mkValues (replicate num_periods zero) None None
                                 (replicate num_periods zero) true)]>
                stored_values)
      end
  | SumElement _ =>
      sum_values ← calculate_sum_values i elements stored_values num_periods;
      Ok (world, <[i := SeriesValues sum_values]> stored_values)
  | CalcElement _ formula =>
      scope ← calculate_calc_values elem formula stored_values elements
                num_periods world;
      Ok (scope_world scope,
          <[i := SeriesValues (scope_values scope)]> (scope_stored scope))
  | _ => Ok state
  end.

Definition process_report_elements (frames : nat) (config : ReportConfig)
    (elements : list ReportElement)
    (gnucash : option (list (string * Account)))
    (period_ranges : list (date * date))
    (transaction_cache : gmap string (gmap nat Decimal))
    (filtered_caches : gmap CacheKey (gmap nat Decimal))
    (world : World) : result (gmap nat stored_value) :=
  state ← fold_result (process_element frames config elements gnucash
                         period_ranges transaction_cache filtered_caches)
                      (indexed elements) (world, ∅);
  Ok (snd state).

End Calculator.

Arguments append_value {World} _ _.
Arguments evaluate_formula {World} _ _ _ _ _.
Arguments calc_period _ {World} _ _ _ _ _ _.
Arguments calculate_calc_values _ {World} _ _ _ _ _ _ _.
Arguments process_element _ {World} _ _ _ _ _ _ _ _ _ _.
Arguments process_report_elements _ {World} _ _ _ _ _ _ _ _ _.

(** ** Module 5: CSV output *)

(** [quote_csv_field]: a field with a comma, a double quote or a newline is
    wrapped in double quotes, its own double quotes doubled. *)
Definition quote_csv_field (text : string) : string :=
  if contains ","%char text || contains dquote text || contains newline text
  then
    let escaped := str_replace (String dquote EmptyString)
                               (String dquote (String dquote EmptyString))
                               text in
    String dquote (escaped ++ String dquote EmptyString)
  else text.

(** ** Specification-side definitions

    The definitions below are not part of the program: they state the
    properties that the theorems compare the program with. *)

(** [c'] is [c * 10^e] in cents, rounded to the nearest integer with ties
    going to the even neighbour. *)
Definition nearest_cent_half_even (c : N) (e : Z) (c' : N) : Prop :=
  if (-2 <=? e)%Z then c' = (c * pow10 (e + 2))%N
  else
    let p := Z.of_N (pow10 (-2 - e)) in
    let d := Z.abs (Z.of_N c - Z.of_N c' * p) in
    (2 * d <= p)%Z /\ ((2 * d = p)%Z -> N.even c' = true).

(** [r] is [new_value] rounded half-even to two decimal places; an infinity
    cannot be rounded and a NaN stays a NaN. *)
Definition rounded_to_cents (new_value r : Decimal) : Prop :=
  match new_value with
  | DFin s c e => exists c', r = DFin s c' (-2) /\ nearest_cent_half_even c e c'
  | DInf _ => False
  | DNaN _ _ _ => is_nan r = true
  end.

(** The rounding that the specification words: to the nearest cent, a tie
    going away from zero. *)
Definition round_half_away (c : N) (k : Z) : N :=
  let p := pow10 k in
  if (p <=? 2 * (c mod p))%N then (c / p + 1)%N else (c / p)%N.

Definition cents_ties_away (d : Decimal) : Decimal :=
  match d with
  | DFin s c e =>
      if (-2 <=? e)%Z then DFin s (c * pow10 (e + 2)) (-2)
      else DFin s (round_half_away c (-2 - e)) (-2)
  | _ => d
  end.

(** The number of occurrences of a character in a string. *)
Fixpoint count_char (c : ascii) (s : string) : nat :=
  match s with
  | String x s' => (if Ascii.eqb x c then 1 else 0) + count_char c s'
  | EmptyString => 0
  end.

(** The scope of a SUM as the specification words it: scanning backward
    from the element before the SUM, the elements met before the first
    TITLE, SUM or CALC element. *)
Definition is_boundary (e : ReportElement) : bool :=
  match kind e with
  | TitleElement _ | SumElement _ | CalcElement _ _ => true
  | _ => false
  end.

Definition is_account (e : ReportElement) : bool :=
  match kind e with AccountElem _ => true | _ => false end.

Fixpoint until_boundary (before : list (nat * ReportElement))
  : list (nat * ReportElement) :=
  match before with
  | [] => []
  | item :: rest =>
      if is_boundary (snd item) then [] else item :: until_boundary rest
  end.

Definition sum_scope (elem_idx : nat) (elements : list ReportElement)
  : list (nat * ReportElement) :=
  until_boundary (rev (take elem_idx (indexed elements))).

(** What an element of the scope contributes: the final series of an
    account row, the literal series of a placeholder row, nothing for a
    section or a blank row. *)
Definition contribution (stored_values : gmap nat stored_value)
    (item : nat * ReportElement) : option (list Decimal) :=
  match kind (snd item) with
  | AccountElem _ =>
      match stored_values !! fst item with
      | Some (AccountValues v) => Some (final v)
      | _ => None
      end
  | PlaceholderElement _ values => Some values
  | _ => None
  end.

Definition contributions (stored_values : gmap nat stored_value)
    (elem_idx : nat) (elements : list ReportElement) : list (list Decimal) :=
  omap (contribution stored_values) (sum_scope elem_idx elements).

(** The sum of the series of the scope, period by period. *)
Definition sum_of_series (num_periods : nat) (series : list (list Decimal))
  : result (list Decimal) :=
  fold_result (fun sum_values values => add_series num_periods values sum_values)
              series (replicate num_periods zero).

(** An account row never holds the value list of a SUM or CALC row. *)
Definition stored_consistent (elements : list ReportElement)
    (stored_values : gmap nat stored_value) : Prop :=
  forall i e v, elements !! i = Some e ->
                stored_values !! i = Some (SeriesValues v) ->
                is_account e = false.

(** Two decimals denote the same number (the same infinity, the same NaN):
    what [==] compares, the exponent and the sign of a zero left aside. *)
Definition same_value (a b : Decimal) : Prop :=
  match a, b with
  | DFin sa ca ea, DFin sb cb eb =>
      let m := Z.min ea eb in
      signed sa (ca * pow10 (ea - m)) = signed sb (cb * pow10 (eb - m))
  | DInf sa, DInf sb => sa = sb
  | DNaN sa ga pa, DNaN sb gb pb => sa = sb /\ ga = gb /\ pa = pb
  | _, _ => False
  end.

(** The decimals that the arithmetic of the context produces: at most
    [prec] digits, an exponent within the range, no signaling NaN. *)
Definition in_context (d : Decimal) : Prop :=
  match d with
  | DFin _ c e =>
      (ndigits c <= prec /\ Etiny <= e /\ ndigits c + e - 1 <= Emax)%Z
  | DInf _ => True
  | DNaN _ g p => g = false /\ (p < pow10 prec)%N
  end.

(** The cache builder seen from one key: what the loops do to the totals
    of that key alone. These follow the program text with the cache map
    replaced by the entry of the key, and are compared with it below. *)
Section OneKey.

Variable re_search : string -> string -> result bool.

Fixpoint splits_totals (cache_key : CacheKey) (period_idx : nat)
    (splits : list Split) (totals : gmap nat Decimal)
  : result (gmap nat Decimal) :=
  match splits with
  | [] => Ok totals
  | split :: rest =>
      match split_account split with
      | None => splits_totals cache_key period_idx rest totals
      | Some acct =>
          if negb (String.eqb acct (account_guid cache_key))
          then splits_totals cache_key period_idx rest totals
          else
            match split_value split with
            | Some text =>
                value ← parse_gnucash_value text;
                totals' ← add_to_period totals period_idx value;
                splits_totals cache_key period_idx rest totals'
            | None => splits_totals cache_key period_idx rest totals
            end
      end
  end.

Definition key_totals (trn : Transaction) (period_idx : nat)
    (cache_key : CacheKey) (totals : gmap nat Decimal)
  : result (gmap nat Decimal) :=
  if truthy_str (key_filter_guid cache_key)
     && negb (has_filter_split (default "" (key_filter_guid cache_key))
                               (splits trn))
  then Ok totals
  else
    pass ← (if truthy_tuple (key_regex_include cache_key)
               || truthy_tuple (key_regex_exclude cache_key)
            then transaction_matches_regex re_search trn
                   (default [] (key_regex_include cache_key))
                   (default [] (key_regex_exclude cache_key))
            else Ok true);
    if pass : bool
    then splits_totals cache_key period_idx (splits trn) totals
    else Ok totals.

Definition transaction_totals (period_ranges : list (date * date))
    (cache_key : CacheKey) (trn : Transaction) (totals : gmap nat Decimal)
  : result (gmap nat Decimal) :=
  match date_posted trn with
  | None => Ok totals
  | Some text =>
      trn_date ← parse_gnucash_date text;
      match find_period 0 period_ranges trn_date with
      | None => Ok totals
      | Some period_idx => key_totals trn period_idx cache_key totals
      end
  end.

Definition key_run (period_ranges : list (date * date))
    (cache_key : CacheKey) (tree : list Transaction)
    (totals : gmap nat Decimal) : result (gmap nat Decimal) :=
  fold_result (fun totals trn =>
                 transaction_totals period_ranges cache_key trn totals)
              tree totals.

End OneKey.

(** The split that the specification words for an ACCOUNT line: at the
    first character, from left to right, that is one of the operators. *)
Fixpoint split_at_first_operator (s : string)
  : option (string * ascii * string) :=
  match s with
  | String c s' =>
      if is_operator c then Some (EmptyString, c, s')
      else match split_at_first_operator s' with
           | Some (before, op, after) => Some (String c before, op, after)
           | None => None
           end
  | EmptyString => None
  end.

Fixpoint all_chars (p : ascii -> bool) (s : string) : bool :=
  match s with
  | String c s' => p c && all_chars p s'
  | EmptyString => true
  end.

(** The text of a line as the parser classifies it, and the reference tag
    that the parser reads at its start. *)
Definition clean_line (raw_line : string) : string :=
  strip (process_escape_sequences (strip_comments raw_line)).






(** A list of periods tiles the days from [first] to [last]: the first
    period starts on [first], each period starts no later than it ends, the
    day after the end of a period is the start of the next, and the last
    period ends on [last]. *)
Fixpoint tiles (first last : date) (ranges : list (date * date)) : Prop :=
  match ranges with
  | [] => False
  | (period_start, period_end) :: rest =>
      period_start = first /\ date_leb period_start period_end = true /\
      match rest with
      | [] => period_end = last
      | _ :: _ => tiles (next_day period_end) last rest
      end
  end.

(** The date part of a GnuCash timestamp, [YYYY-MM-DD]: the year in four
    digits, the month and the day in two. *)
Definition digit_char (n : Z) : ascii := ascii_of_N (48 + Z.to_N n).

Definition two_digits (n : Z) : string :=
  String (digit_char (n / 10)) (String (digit_char (n mod 10)) EmptyString).

Definition iso_date (d : date) : string :=
  String (digit_char (year d / 1000))
    (String (digit_char (year d / 100 mod 10))
       (two_digits (year d mod 100)))
  ++ "-" ++ two_digits (month d) ++ "-" ++ two_digits (day d).

(** A period of [months] calendar months from the first day of a month to
    the last day of a month of the same year, aligned on the calendar: it
    begins after a multiple of [months] months of the year (for 12 the
    calendar year, for 3 a calendar quarter, for 1 a calendar month). *)
Definition calendar_period (months : Z) (first last : date) : Prop :=
  day first = 1%Z /\ day (next_day last) = 1%Z /\
  year last = year first /\
  month last = (month first + months - 1)%Z /\
  ((month first - 1) mod months = 0)%Z.

(** What the abbreviations of [parse_date] promise for one kind of period
    (the year, the quarter or the month, of 12, 3 or 1 months): [b] and [e]
    name the first and the last day of the calendar period that contains
    [today], [bp] and [ep] those of the calendar period before it, which
    ends the day before [b]. *)
Definition keyword_periods (today : date) (months : Z) (b e bp ep : string)
  : Prop :=
  exists db de dbp dep,
    parse_date today b = Ok db /\ parse_date today e = Ok de /\
    parse_date today bp = Ok dbp /\ parse_date today ep = Ok dep /\
    date_leb db today = true /\ date_leb today de = true /\
    date_leb dbp dep = true /\ next_day dep = db /\
    calendar_period months db de /\ calendar_period months dbp dep.

(** The text that the markup language writes for [text]: each hash and each
    backslash behind a backslash. *)
Fixpoint escape (text : string) : string :=
  match text with
  | String c rest =>
      if is_escaped c then String backslash (String c (escape rest))
      else String c (escape rest)
  | EmptyString => EmptyString
  end.

(** A reader of one field of a CSV record (RFC 4180): a field that starts
    with a double quote runs to the closing double quote, a doubled double
    quote standing for one; any other field runs to the next comma or
    newline. The result is the field and the text after it. *)
Fixpoint csv_quoted (s : string) : option (string * string) :=
  match s with
  | EmptyString => None
  | String c r =>
      if Ascii.eqb c dquote then
        match r with
        | String c2 r2 =>
            if Ascii.eqb c2 dquote
            then match csv_quoted r2 with
                 | Some (field, rest) => Some (String dquote field, rest)
                 | None => None
                 end
            else Some (EmptyString, r)
        | EmptyString => Some (EmptyString, EmptyString)
        end
      else match csv_quoted r with
           | Some (field, rest) => Some (String c field, rest)
           | None => None
           end
  end.

Definition ends_field (c : ascii) : bool :=
  Ascii.eqb c ","%char || Ascii.eqb c newline.

Fixpoint csv_plain (s : string) : string * string :=
  match s with
  | EmptyString => (EmptyString, EmptyString)
  | String c r =>
      if ends_field c then (EmptyString, s)
      else let '(field, rest) := csv_plain r in (String c field, rest)
  end.

Definition csv_read_field (s : string) : option (string * string) :=
  match s with
  | String c r => if Ascii.eqb c dquote then csv_quoted r
                  else Some (csv_plain s)
  | EmptyString => Some (EmptyString, EmptyString)
  end.

(** What may follow a field in a record: nothing, a comma or a newline. *)
Definition after_field (rest : string) : bool :=
  match rest with
  | EmptyString => true
  | String c _ => ends_field c
  end.

(** The quotes of a text doubled, by structural recursion: what the
    replacement in [quote_csv_field] computes. *)
Fixpoint double_quotes (s : string) : string :=
  match s with
  | String c r =>
      if Ascii.eqb c dquote then String dquote (String dquote (double_quotes r))
      else String c (double_quotes r)
  | EmptyString => EmptyString
  end.

(** The key of the totals of an account with no FILTER and no REGEX. *)
Definition unfiltered_key (account_guid : string) : CacheKey :=
  mkCacheKey account_guid None None None.

(** What Python prints for the text of an XML element: the text, or the
    word None for an element without text. *)
Definition printed_text (text : option string) : string :=
  match text with
  | Some t => t
  | None => "None"
  end.

(** The text that [transaction_matches_regex] searches: the description and
    the notes as printed, joined by a space; an element that the
    transaction does not have counts as the empty string. *)
Definition search_text (trn : Transaction) : string :=
  from_option printed_text "" (trn_description trn) ++ " " ++
  from_option printed_text "" (trn_notes trn).

(** Every period of the totals is a period of the report. *)
Definition periods_within (num_periods : nat) (totals : gmap nat Decimal)
  : Prop :=
  forall period_idx, is_Some (totals !! period_idx) ->
                     (period_idx < num_periods)%nat.

(** Example: an account row with a FILTER. *)
Definition example_filtered_account : AccountElement :=
  mkAccountElement "A" None None false (Some "B") [] [].

Definition example_filtered_elements : list ReportElement :=
  [mkElement 1 None (AccountElem example_filtered_account)].

(** *** Proof devices for the invariants of the parser *)

Definition config_ok (c : ReportConfig) : Prop :=
  (period c = "m" \/ period c = "q") /\
  (account_name c = "full_path" \/ account_name c = "name_only").

(** [last_account] is the last element when that is an account row, and
    [None] otherwise. *)
Definition last_account_ok (st : parser_state) : Prop :=
  match ps_last_account st with
  | Some i => S i = length (ps_elements st) /\
              exists e, ps_elements st !! i = Some e /\ is_account e = true
  | None => forall e, last (ps_elements st) = Some e -> is_account e = false
  end.

(** What holds of the parser state after the line [ln]: the reference
    table and the references of the elements agree, the references of a
    CALC formula are carried by earlier elements, the elements are in the
    order of their lines, and the configuration has valid settings. *)
Definition parser_invariant (ln : nat) (st : parser_state) : Prop :=
  (forall n l, ps_references st !! n = Some l ->
     n <> 0%N /\ exists i e, ps_elements st !! i = Some e /\
                             reference e = Some n /\ line_num e = l) /\
  (forall i e n, ps_elements st !! i = Some e -> reference e = Some n ->
     n <> 0%N -> ps_references st !! n = Some (line_num e)) /\
  (forall i e d f n, ps_elements st !! i = Some e ->
     kind e = CalcElement d f -> n ∈ find_refs f ->
     exists j e', (j < i)%nat /\ ps_elements st !! j = Some e' /\
                  reference e' = Some n) /\
  (forall i j ei ej, (i < j)%nat -> ps_elements st !! i = Some ei ->
     ps_elements st !! j = Some ej -> (line_num ei < line_num ej)%nat) /\
  (forall i e, ps_elements st !! i = Some e ->
     (1 <= line_num e <= ln)%nat) /\
  config_ok (ps_config st) /\
  last_account_ok st.

(** Example: a report definition with a period of two months. *)
Definition example_definition : list string :=
  ["START_DATE: 2025-01-01"; "END_DATE: 2025-02-28"; "";
   "TITLE: Income"; "[1] ACCOUNT: A | Salary"; "FILTER: B";
   "[2] PLACEHOLDER: Bonus | 10, 20"; "SUM: Total";
   "CALC: Share | [1] / [2]"].

(** A definition whose placeholder holds a signaling NaN, which the CALC
    row below it cannot convert for its formula. *)
Definition example_nan_definition : list string :=
  ["START_DATE: 2025-01-01"; "END_DATE: 2025-01-31";
   "[1] PLACEHOLDER: Bonus | sNaN"; "CALC: Twice | [1] * 2"].

(** The exceptions of the decimal arithmetic. *)
Definition arithmetic_error (e : exn) : Prop :=
  e = InvalidOperation \/ e = DivisionByZero \/ e = Overflow.

(** The exceptions that the calculation of a report can raise when the
    formulas leave the calculator's objects alone: those of the arithmetic,
    the recursion limit reached in the account hierarchy, the conversion of
    a signaling NaN for a CALC formula, and what the evaluation of a
    formula raises outside the class Exception. *)
Definition calculation_error (e : exn) : Prop :=
  arithmetic_error e \/ e = RecursionError \/
  e = ValueError SignalingNaNToFloat \/ exists name, e = Uncaught name.

(** What [stored_values] holds for the element at position [i] once it is
    processed: the dictionary of an account row, with one raw and one final
    value per period, the value list of a SUM or CALC row, with one value
    per period, and nothing for the other rows. *)
Definition stored_row (num_periods : nat) (e : ReportElement)
    (v : option stored_value) : Prop :=
  match kind e with
  | AccountElem _ =>
      exists values, v = Some (AccountValues values) /\
                     length (raw values) = num_periods /\
                     length (final values) = num_periods
  | SumElement _ | CalcElement _ _ =>
      exists values, v = Some (SeriesValues values) /\
                     length values = num_periods
  | _ => v = None
  end.

(** The state of [stored_values] when the first [k] elements are
    processed. *)
Definition stored_upto (num_periods : nat) (elements : list ReportElement)
    (k : nat) (stored_values : gmap nat stored_value) : Prop :=
  (forall i e, (i < k)%nat -> elements !! i = Some e ->
               stored_row num_periods e (stored_values !! i)) /\
  (forall i, (k <= i)%nat -> stored_values !! i = None).

(** The elements that the calculator can process without a failing lookup:
    every PLACEHOLDER has one value per period, and every reference of a
    CALC formula resolves to an earlier element. *)
Definition elements_ready (num_periods : nat)
    (elements : list ReportElement) : Prop :=
  (forall i e d values, elements !! i = Some e ->
     kind e = PlaceholderElement d values -> length values = num_periods) /\
  (forall i e d formula n, elements !! i = Some e ->
     kind e = CalcElement d formula -> n ∈ find_refs formula ->
     exists j e', (j < i)%nat /\
                  find_reference n (indexed elements) = Some (j, e') /\
                  elements !! j = Some e').

(** The account [g] is registered with the parent [p]. *)
Definition child_of (accounts : list (string * Account)) (g p : string)
  : Prop :=
  exists account, (g, account) ∈ accounts /\ parent_guid account = Some p.

(** The descendants of [root] in the registry: [root] itself, and every
    account registered with a descendant as its parent. *)
Inductive descends (accounts : list (string * Account)) (root : string)
  : string -> Prop :=
| descends_root : descends accounts root root
| descends_child g p :
    descends accounts root p -> child_of accounts g p ->
    descends accounts root g.

(** What the nested calls of [add_children] append for a parent:
    descendants of the parent only, and the children of what they
    append. *)
Definition appended (accounts : list (string * Account)) (parent : string)
    (new : list string) : Prop :=
  (forall g, g ∈ new -> descends accounts parent g) /\
  (forall p g, p ∈ new -> child_of accounts g p -> g ∈ new).

(** The hierarchy below [p] is at least [n] levels deep: there is a chain
    of [n] accounts, each registered with the one before it as its parent,
    that starts with a child of [p]. *)
Inductive deep (accounts : list (string * Account)) : nat -> string -> Prop :=
| deep_zero p : deep accounts 0 p
| deep_child n p g :
    child_of accounts g p -> deep accounts n g -> deep accounts (S n) p.

(** A registry of three accounts: Income, its child Salary and the child
    Bonus of Salary. *)
Definition example_accounts : list (string * Account) :=
  [("i", mkAccount "Income" "i" None (Some "INCOME"));
   ("b", mkAccount "Bonus" "b" (Some "s") (Some "INCOME"));
   ("s", mkAccount "Salary" "s" (Some "i") (Some "INCOME"))].

Definition example_rank (g : string) : nat :=
  if String.eqb g "i" then 2 else if String.eqb g "s" then 1 else 0.

(** The filtered cache of one key as the specification describes it: the
    period of a transaction is the first interval that contains its date;
    the transaction counts for the key when (a) it has a split on the
    filter account, if the key has one, and (b) its description and notes
    match all include patterns and none of the exclude patterns; then the
    values of all its splits of the target account are added to the
    running total of the period. *)
Section KeySpecification.

Variable re_search : string -> string -> result bool.

Definition pattern_found (pattern : string) (trn : Transaction) : bool :=
  match re_search pattern (search_text trn) with
  | Ok true => true
  | _ => false
  end.

Definition filter_condition (cache_key : CacheKey) (trn : Transaction)
  : bool :=
  match key_filter_guid cache_key with
  | Some (String _ _ as filter) =>
      existsb (fun split => bool_decide (split_account split = Some filter))
              (splits trn)
  | _ => true
  end.

Definition regex_condition (cache_key : CacheKey) (trn : Transaction)
  : bool :=
  forallb (fun pattern => negb (pattern_found pattern trn))
          (default [] (key_regex_exclude cache_key))
  && forallb (fun pattern => pattern_found pattern trn)
             (default [] (key_regex_include cache_key)).

Definition transaction_period (period_ranges : list (date * date))
    (trn : Transaction) : option nat :=
  match date_posted trn with
  | Some text =>
      match parse_gnucash_date text with
      | Ok trn_date =>
          fst <$> list_find (fun range => date_leb (fst range) trn_date
                                          && date_leb trn_date (snd range))
                            period_ranges
      | Raise _ => None
      end
  | None => None
  end.

Definition target_values (cache_key : CacheKey) (trn : Transaction)
  : list Decimal :=
  omap (fun split =>
          if bool_decide (split_account split = Some (account_guid cache_key))
          then match split_value split with
               | Some text =>
                   match parse_gnucash_value text with
                   | Ok value => Some value
                   | Raise _ => None
                   end
               | None => None
               end
          else None)
       (splits trn).

(** The values that the transactions of the store add to the total of the
    key for a period, in the order of the store. *)
Definition key_contributions (period_ranges : list (date * date))
    (cache_key : CacheKey) (period_idx : nat) (tree : list Transaction)
  : list Decimal :=
  flat_map (fun trn =>
              if bool_decide (transaction_period period_ranges trn
                              = Some period_idx)
                 && filter_condition cache_key trn
                 && regex_condition cache_key trn
              then target_values cache_key trn
              else [])
           tree.

End KeySpecification.

(** A running total: [after] is [before] with the values added in order,
    from zero when there was no total; with no value to add it is
    [before]. *)
Definition accumulated (before : option Decimal) (values : list Decimal)
    (after : option Decimal) : Prop :=
  match values with
  | [] => after = before
  | _ :: _ => exists total,
      sum_decimals (default zero before) values = Ok total /\
      after = Some total
  end.

(** The value that a period of a CALC row gets from the way the evaluation
    of its formula ends: the printed value converted and rounded to cents,
    and zero when there is none or the conversion or the rounding fails. *)
Definition outcome_value (outcome : eval_outcome) : Decimal :=
  match outcome with
  | Evaluated text =>
      match Decimal_of_str text with
      | Ok d => match quantize d cent with
                | Ok value => value
                | Raise _ => zero
                end
      | Raise _ => zero
      end
  | Failed | Escaped _ | Interfered => zero
  end.

(** The evaluation of [formula_str] changes no object that the calculation
    reads, in whatever state it runs: neither [calc_values] nor
    [stored_values], and it does not interfere otherwise. *)
Definition keeps_scope {World : Type}
    (eval_str : ReportElement -> nat -> string -> calc_scope World ->
                eval_outcome * calc_scope World)
    (elem : ReportElement) (period_idx : nat) (formula_str : string) : Prop :=
  forall scope,
    fst (eval_str elem period_idx formula_str scope) <> Interfered /\
    scope_values (snd (eval_str elem period_idx formula_str scope))
      = scope_values scope /\
    scope_stored (snd (eval_str elem period_idx formula_str scope))
      = scope_stored scope.

(** The evaluations of the CALC formulas of [elements] change no object
    that the calculation reads: whatever the referenced rows hold, the
    formula string of each period is evaluated without such a change. *)
Definition formulas_keep_scope {World : Type} (float_repr : Decimal -> string)
    (eval_str : ReportElement -> nat -> string -> calc_scope World ->
                eval_outcome * calc_scope World)
    (elements : list ReportElement) (num_periods : nat) : Prop :=
  forall i e description formula stored_values p formula_str,
    elements !! i = Some e -> kind e = CalcElement description formula ->
    (p < num_periods)%nat ->
    substitute_refs float_repr formula elements stored_values p
      = Ok formula_str ->
    keeps_scope eval_str e p (percent_rewrite formula_str).

(** The evaluation of [formula_str] does not end with an exception outside
    the class Exception. *)
Definition stays_inside {World : Type}
    (eval_str : ReportElement -> nat -> string -> calc_scope World ->
                eval_outcome * calc_scope World)
    (elem : ReportElement) (period_idx : nat) (formula_str : string) : Prop :=
  forall scope name,
    fst (eval_str elem period_idx formula_str scope) <> Escaped name.

(** *** Example inputs *)

(** Example report: a title, two data rows with a blank row between, a
    section header and the SUM row. *)
Definition example_elements : list ReportElement :=
  [mkElement 1 None (PlaceholderElement "before" [DFin false 700 (-2)]);
   mkElement 2 None (TitleElement "Income");
   mkElement 3 (Some 1%N) (PlaceholderElement "Bonus" [DFin false 1000 (-2)]);
   mkElement 4 None BlankElement;
   mkElement 5 (Some 2%N)
     (AccountElem (mkAccountElement "salary" None None false None [] []));
   mkElement 6 None (SectionElement "Totals");
   mkElement 7 None (SumElement "Total income")].

Definition example_stored : gmap nat stored_value :=
  {[ 4%nat := AccountValues
                (mkValues [DFin false 2000 (-2)] None None
                          [DFin false 2000 (-2)] true) ]}.

(** [str(float(d))] for the decimals of the examples. *)
Definition example_float (d : Decimal) : string :=
  match d with
  | DFin false c e =>
      if (c =? 0)%N then "0.0"
      else if (c =? 1)%N && (e =? 0)%Z then "1.0"
      else if (c =? 4)%N && (e =? 0)%Z then "4.0"
      else if (c =? 10)%N && (e =? 0)%Z then "10.0"
      else if (c =? 20)%N && (e =? 0)%Z then "20.0"
      else if (c =? 25)%N && (e =? -1)%Z then "2.5"
      else "nan"
  | _ => "nan"
  end.

(** What [str(eval(formula_str))] does with the formula strings of the
    examples, as a table: two quotients, a division by zero
    (ZeroDivisionError) and a call of [exit] (SystemExit); the table gives
    a failure to every other string. This evaluator changes nothing. *)
Definition example_outcome (formula_str : string) : eval_outcome :=
  if String.eqb formula_str "2.5 / 4.0 * (50/100)" then Evaluated "0.3125"
  else if String.eqb formula_str "1.0 / 0.0 * (50/100)" then Failed
  else if String.eqb formula_str "0.0 / 10.0" then Evaluated "0.0"
  else if String.eqb formula_str "0.0 / 20.0" then Evaluated "0.0"
  else if String.eqb formula_str "exit()" then Escaped "SystemExit"
  else Failed.
Definition example_eval (elem : ReportElement) (period_idx : nat)
    (formula_str : string) (scope : calc_scope unit)
  : eval_outcome * calc_scope unit :=
  (example_outcome formula_str, scope).

(** The same with two formulas that change the scope: one appends the
    integer 1 to [calc_values], the other empties [stored_values]; both
    calls evaluate to None. *)
Definition example_eval_changing (elem : ReportElement) (period_idx : nat)
    (formula_str : string) (scope : calc_scope unit)
  : eval_outcome * calc_scope unit :=
  if String.eqb formula_str "calc_values.append(1)"
  then (Evaluated "None",
        mkScope (scope_world scope)
                (scope_values scope ++ [DFin false 1 0])%list
                (scope_stored scope))
  else if String.eqb formula_str "stored_values.clear()"
  then (Evaluated "None", mkScope (scope_world scope) (scope_values scope) ∅)
  else example_eval elem period_idx formula_str scope.

(** Two placeholder rows and a CALC row that divides the first by the
    second and takes half of the quotient. *)
Definition example_calc_element : ReportElement :=
  mkElement 3 None (CalcElement "r" "[1] / [2] * 50%").
Definition example_calc_elements : list ReportElement :=
  [mkElement 1 (Some 1%N)
     (PlaceholderElement "p" [DFin false 1 0; DFin false 25 (-1)]);
   mkElement 2 (Some 2%N)
     (PlaceholderElement "q" [DFin false 0 0; DFin false 4 0]);
   example_calc_element].

Definition example_key1 : CacheKey := mkCacheKey "A" None (Some ["x"]) None.
Definition example_key2 : CacheKey := mkCacheKey "A" (Some "B") None None.
Definition example_store : list Transaction :=
  [mkTransaction (Some "2025-01-15 00:00:00 -0600") (Some (Some "rent")) None
     [mkSplit (Some "A") (Some "100/100"); mkSplit (Some "B") (Some "-100/100")];
   mkTransaction (Some "2025-02-03 00:00:00 -0600") None None
     [mkSplit (Some "A") (Some "250/100"); mkSplit (Some "C") (Some "-250/100")]].
Definition example_periods : list (date * date) :=
  [(mkdate 2025 1 1, mkdate 2025 1 31); (mkdate 2025 2 1, mkdate 2025 2 28)].

(** *** Proof devices for the period loop *)

Definition month_index (d : date) : Z := 12 * year d + month d.

(** A step of the period loop moves to a later month of the calendar. *)
Definition advancing (step : date -> result ((date * date) * date)) : Prop :=
  forall cur p next, step cur = Ok (p, next) ->
    1 <= month cur <= 12 /\ 1 <= month next <= 12 /\
    month_index cur < month_index next.

(** *** Proof devices for the reference table *)




(** * Properties *)

Close Scope Z_scope.
Local Open Scope Z_scope.

(** ** Rounding of [apply_operation] *)

Lemma pow10_pos k : (0 < pow10 k)%N.
Proof. unfold pow10. apply N.neq_0_lt_0. apply N.pow_nonzero. discriminate. Qed.

Lemma round_half_even_nearest (c : N) (k : Z) :
  let p := Z.of_N (pow10 k) in
  let c' := round_half_even c k in
  let d := Z.abs (Z.of_N c - Z.of_N c' * p) in
  2 * d <= p /\ (2 * d = p -> N.even c' = true).
Proof.
  cbv zeta. unfold round_half_even.
  pose proof (pow10_pos k) as Hp.
  set (p := pow10 k) in *.
  pose proof (N.div_mod c p ltac:(lia)) as Hdm.
  pose proof (N.mod_lt c p ltac:(lia)) as Hlt.
  set (q := (c / p)%N) in *. set (r := (c mod p)%N) in *.
  assert (Hc : Z.of_N c = Z.of_N p * Z.of_N q + Z.of_N r) by lia.
  destruct (N.compare_spec (2 * r) p) as [He|Hl|Hg].
  - destruct (N.even q) eqn:Hev.
    + split; [|auto]. rewrite Hc. nia.
    + split.
      * rewrite Hc. nia.
      * intros _. rewrite N.even_add, Hev. reflexivity.
  - split; [rewrite Hc; nia|]. intros H. rewrite Hc in H. nia.
  - split; [rewrite Hc; nia|]. intros H. rewrite Hc in H. nia.
Qed.

Lemma fix_finite_cents s c : ndigits c <= prec -> fix_finite s c (-2) = Ok (DFin s c (-2)).
Proof.
  intros H. unfold fix_finite.
  destruct (N.eqb_spec c 0) as [->|Hc]; [reflexivity|].
  unfold Etop, Etiny, Emax, Emin, prec in *.
  destruct (Z.ltb_spec (999999 - 28 + 1) (ndigits c + -2 - 28)); [lia|].
  destruct (Z.ltb_spec (-2) (Z.max (ndigits c + -2 - 28) (-999999 - 28 + 1))); [lia|].
  reflexivity.
Qed.

Lemma quantize_cent_fin s c e r :
  quantize (DFin s c e) cent = Ok r ->
  exists c', r = DFin s c' (-2) /\ nearest_cent_half_even c e c'.
Proof.
  unfold quantize, cent. cbn [check_nans is_snan is_nan orb].
  change (negb ((Etiny <=? -2) && (-2 <=? Emax))) with false. cbv iota.
  destruct (N.eqb_spec c 0) as [->|Hc].
  - intros H. injection H as <-. exists 0%N. split; [reflexivity|].
    unfold nearest_cent_half_even. destruct (-2 <=? e); [reflexivity|].
    cbv zeta. pose proof (pow10_pos (-2 - e)). split; lia.
  - destruct (Emax <? ndigits c + e - 1); [discriminate|].
    destruct (prec <? ndigits c + e - 1 - -2 + 1); [discriminate|].
    unfold rescale. destruct (N.eqb_spec c 0) as [|_]; [contradiction|].
    unfold nearest_cent_half_even.
    destruct (-2 <=? e) eqn:He.
    + destruct (Emax <? _); [discriminate|].
      destruct (Z.ltb_spec prec (ndigits (c * pow10 (e - -2)))); [discriminate|].
      rewrite fix_finite_cents by lia. intros Hq; injection Hq as <-.
      eexists; split; reflexivity.
    + destruct (Emax <? _); [discriminate|].
      destruct (Z.ltb_spec prec (ndigits (round_half_even c (-2 - e)))); [discriminate|].
      rewrite fix_finite_cents by lia. intros Hq; injection Hq as <-.
      eexists; split; [reflexivity|]. apply round_half_even_nearest.
Qed.

Lemma quantize_cent_rounded d r : quantize d cent = Ok r -> rounded_to_cents d r.
Proof.
  destruct d as [s c e|s|s sg p]; simpl.
  - apply quantize_cent_fin.
  - discriminate.
  - unfold quantize, check_nans. simpl. destruct sg; simpl; [discriminate|].
    intros H; injection H as <-. reflexivity.
Qed.

Lemma map_result_Forall2 {A B} (f : A -> result B) l rs :
  map_result f l = Ok rs -> Forall2 (fun x r => f x = Ok r) l rs.
Proof.
  revert rs. induction l as [|x l IH]; simpl; intros rs H.
  - injection H as <-. constructor.
  - destruct (f x) eqn:Hx; simpl in H; [|discriminate].
    destruct (map_result f l) eqn:Hl; simpl in H; [|discriminate].
    injection H as <-. constructor; auto.
Qed.

Lemma apply_operation_half_even values op results :
  apply_operation values op = Ok results ->
  Forall2 (fun value r => exists new_value,
             operate op value = Ok new_value /\ rounded_to_cents new_value r)
          values results.
Proof.
  intros H. apply map_result_Forall2 in H.
  eapply Forall2_impl; [exact H|]. intros value r Hr. cbv beta in Hr.
  unfold apply_one in Hr. destruct (operate op value) as [nv|] eqn:Hop; simpl in Hr; [|discriminate].
  exists nv. split; [reflexivity|]. by apply quantize_cent_rounded.
Qed.

Lemma ndigits_fuel_spec fuel c :
  (N.log2 c < N.of_nat fuel)%N -> (0 < c)%N ->
  1 <= ndigits_fuel fuel c /\
  10 ^ (ndigits_fuel fuel c - 1) <= Z.of_N c < 10 ^ (ndigits_fuel fuel c).
Proof.
  revert c. induction fuel as [|fuel IH]; intros c Hf Hc; [lia|].
  cbn [ndigits_fuel]. destruct (N.ltb_spec c 10) as [Hlt|Hge].
  - change (10 ^ (1 - 1)) with 1. change (10 ^ 1) with 10. lia.
  - assert (Hq : (0 < c / 10)%N).
    { apply N.div_str_pos. lia. }
    assert (Hlog : (N.log2 (c / 10) < N.of_nat fuel)%N).
    { assert (H2 : (2 * (c / 10) <= c)%N).
      { pose proof (N.Div0.mul_div_le c 10). lia. }
      apply N.log2_le_mono in H2. rewrite N.log2_double in H2 by lia. lia. }
    destruct (IH _ Hlog Hq) as [H1 [Hlo Hhi]].
    set (n := ndigits_fuel fuel (c / 10)) in *.
    split; [lia|].
    replace (1 + n - 1) with (Z.succ (n - 1)) by lia.
    replace (1 + n) with (Z.succ n) by lia.
    rewrite !Z.pow_succ_r by lia.
    pose proof (N.div_mod c 10 ltac:(lia)) as Hdm.
    pose proof (N.mod_lt c 10 ltac:(lia)) as Hm.
    set (A := 10 ^ (n - 1)) in *. set (B := 10 ^ n) in *.
    clearbody A B n. clear IH Hf Hlog.
    set (d := (c / 10)%N) in *. set (m := (c mod 10)%N) in *.
    clearbody d m. lia.
Qed.

Lemma ndigits_spec c : (0 < c)%N ->
  1 <= ndigits c /\ 10 ^ (ndigits c - 1) <= Z.of_N c < 10 ^ (ndigits c).
Proof.
  intros Hc. unfold ndigits. apply ndigits_fuel_spec; [|done].
  rewrite N.size_log2 by lia. lia.
Qed.

Lemma ndigits_zero : ndigits 0%N = 1.
Proof. reflexivity. Qed.

Lemma ndigits_pos c : 1 <= ndigits c.
Proof.
  destruct (N.eq_dec c 0%N) as [->|H]; [rewrite ndigits_zero; lia|].
  apply ndigits_spec. lia.
Qed.

(** Upper bound: fewer than [10^n] means at most [n] digits. *)
Lemma ndigits_le c n : 1 <= n -> Z.of_N c < 10 ^ n -> ndigits c <= n.
Proof.
  intros Hn Hc. destruct (N.eq_dec c 0%N) as [->|H]; [rewrite ndigits_zero; lia|].
  destruct (ndigits_spec c ltac:(lia)) as [H1 [Hlo _]].
  destruct (Z.le_gt_cases (ndigits c) n) as [|Hgt]; [done|].
  assert (10 ^ n <= 10 ^ (ndigits c - 1)) by (apply Z.pow_le_mono_r; lia).
  lia.
Qed.

Lemma pow10_Z k : 0 <= k -> Z.of_N (pow10 k) = 10 ^ k.
Proof. intros. unfold pow10. rewrite N2Z.inj_pow. rewrite Z2N.id by lia. reflexivity. Qed.

Lemma round_half_even_le c k : (round_half_even c k <= c / pow10 k + 1)%N.
Proof.
  unfold round_half_even. destruct (_ ?= _)%N; [destruct (N.even _)|..]; lia.
Qed.

(** Dividing a number of [n] digits by [10^k] leaves at most [n - k] digits. *)
Lemma div_pow10_lt c k n :
  0 <= k -> 0 <= n -> Z.of_N c < 10 ^ n ->
  Z.of_N (c / pow10 k) < 10 ^ (Z.max 0 (n - k)).
Proof.
  intros Hk Hn Hc. rewrite N2Z.inj_div, pow10_Z by lia.
  assert (0 < 10 ^ k) by (apply Z.pow_pos_nonneg; lia).
  apply Z.div_lt_upper_bound; [lia|].
  rewrite <- Z.pow_add_r by lia.
  eapply Z.lt_le_trans; [exact Hc|]. apply Z.pow_le_mono_r; lia.
Qed.

Lemma quantize_cent_ok s c e :
  ndigits c + e <= 25 -> exists r, quantize (DFin s c e) cent = Ok r.
Proof.
  intros Hb. unfold quantize, cent. cbn [check_nans is_snan is_nan orb].
  change (negb ((Etiny <=? -2) && (-2 <=? Emax))) with false. cbv iota.
  destruct (N.eqb_spec c 0%N) as [->|Hc]; [eexists; reflexivity|].
  destruct (ndigits_spec c ltac:(lia)) as [H1 [Hlo Hhi]].
  unfold Emax, prec in *.
  destruct (Z.ltb_spec 999999 (ndigits c + e - 1)); [lia|].
  destruct (Z.ltb_spec 28 (ndigits c + e - 1 - -2 + 1)); [lia|].
  unfold rescale. destruct (N.eqb_spec c 0%N) as [|_]; [contradiction|].
  assert (Hfin : forall c1, Z.of_N c1 < 10 ^ 28 ->
            exists r,
              (if 999999 <? ndigits c1 + -2 - 1 then Raise InvalidOperation
               else if 28 <? ndigits c1 then Raise InvalidOperation
               else fix_finite s c1 (-2)) = Ok r).
  { intros c1 Hc1. pose proof (ndigits_le c1 28 ltac:(lia) Hc1) as Hn.
    destruct (Z.ltb_spec 999999 (ndigits c1 + -2 - 1)); [lia|].
    destruct (Z.ltb_spec 28 (ndigits c1)); [lia|].
    rewrite fix_finite_cents by (unfold prec; lia). eexists; reflexivity. }
  destruct (Z.leb_spec (-2) e) as [He|He].
  - apply Hfin. rewrite N2Z.inj_mul, pow10_Z by lia.
    assert (0 < 10 ^ (e - -2)) by (apply Z.pow_pos_nonneg; lia).
    eapply Z.lt_le_trans with (10 ^ ndigits c * 10 ^ (e - -2)); [nia|].
    rewrite <- Z.pow_add_r by lia. apply Z.pow_le_mono_r; lia.
  - apply Hfin.
    pose proof (round_half_even_le c (-2 - e)) as Hr.
    pose proof (div_pow10_lt c (-2 - e) (ndigits c) ltac:(lia) ltac:(lia) Hhi) as Hd.
    assert (10 ^ Z.max 0 (ndigits c - (-2 - e)) <= 10 ^ 27)
      by (apply Z.pow_le_mono_r; lia).
    assert (10 ^ 27 < 10 ^ 28) by (apply Z.pow_lt_mono_r; lia).
    lia.
Qed.

Lemma apply_operation_returns values op :
  Forall (fun value => exists s c e,
            operate op value = Ok (DFin s c e) /\ ndigits c + e <= 25) values ->
  exists results, apply_operation values op = Ok results.
Proof.
  unfold apply_operation.
  induction 1 as [|value values (s & c & e & Hop & Hb) _ [rs IH]];
    cbn [map_result].
  - eexists; reflexivity.
  - destruct (quantize_cent_ok s c e Hb) as [r Hr].
    assert (Ha : apply_one op value = Ok r)
      by (unfold apply_one; rewrite Hop; exact Hr).
    rewrite Ha. cbn [mbind result_bind]. rewrite IH.
    eexists; reflexivity.
Qed.


(** C1 (as amended). [apply_operation] rounds with the rounding of the
    default decimal context, which is round-half-even: whenever it returns,
    it returns one value per input value, and each is the new value
    [value OP operand] of that period brought to two decimal places, the
    nearest cent, a tie going to the even cent (and not away from zero). It
    returns whenever every new value is finite with fewer than 26 digits
    before the decimal point. *)
Theorem apply_operation_rounds_half_even (values : list Decimal) (op : operation) :
  (forall results, apply_operation values op = Ok results ->
     Forall2 (fun value r => exists new_value,
                operate op value = Ok new_value /\ rounded_to_cents new_value r)
             values results) /\
  (Forall (fun value => exists s c e,
             operate op value = Ok (DFin s c e) /\ ndigits c + e <= 25) values ->
   exists results, apply_operation values op = Ok results).
Proof.
  split; [apply apply_operation_half_even | apply apply_operation_returns].
Qed.

(** C1, at an input: 0.25 * 0.5 = 0.125, a tie, becomes 0.12, and 1 * 0.5
    becomes 0.50. *)
Lemma apply_operation_rounds_half_even_witness :
  Forall2 (fun value r => exists new_value,
             operate ("*", DFin false 5 (-1)) value = Ok new_value /\
             rounded_to_cents new_value r)
          [DFin false 25 (-2); DFin false 1 0]
          [DFin false 12 (-2); DFin false 50 (-2)].
Proof.
  apply (proj1 (apply_operation_rounds_half_even
                  [DFin false 25 (-2); DFin false 1 0] ("*", DFin false 5 (-1)))).
  reflexivity.
Defined.

(** C1 as the specification states it fails: the results are not the new
    values rounded to the cent with ties away from zero (0.125 becomes 0.12,
    not 0.13). *)
Lemma apply_operation_not_ties_away :
  ~ (forall values op results,
       apply_operation values op = Ok results ->
       Forall2 (fun value r => exists new_value,
                  operate op value = Ok new_value /\
                  r = cents_ties_away new_value)
               values results).
Proof.
  intros H.
  specialize (H [DFin false 25 (-2)] ("*", DFin false 5 (-1))
                [DFin false 12 (-2)] eq_refl).
  inversion H as [|? ? ? ? (nv & Hop & Hr) _]; subst.
  vm_compute in Hop. injection Hop as <-. vm_compute in Hr. discriminate.
Qed.

Lemma fix_finite_exact s c e :
  ndigits c <= prec -> Etiny <= e -> ndigits c + e - 1 <= Emax ->
  fix_finite s c e = Ok (DFin s c e).
Proof.
  intros Hd Hlo Hhi. unfold fix_finite. pose proof (ndigits_pos c) as Hp.
  destruct (N.eqb_spec c 0) as [E|_].
  - rewrite E in *. do 2 f_equal. unfold Etiny, Emin, Emax, prec in *. lia.
  - assert (Htop : (Etop <? ndigits c + e - prec)%Z = false)
      by (apply Z.ltb_ge; unfold Etop, Emax, prec in *; lia).
    rewrite Htop.
    assert (Hmin : (e <? Z.max (ndigits c + e - prec) Etiny)%Z = false)
      by (apply Z.ltb_ge; lia).
    by rewrite Hmin.
Qed.

Lemma mul_exact s c e s' c' e' :
  ndigits (c * c') <= prec -> Etiny <= e + e' ->
  ndigits (c * c') + (e + e') - 1 <= Emax ->
  mul (DFin s c e) (DFin s' c' e') = Ok (DFin (xorb s s') (c * c') (e + e')).
Proof.
  intros Hd Hlo Hhi. unfold mul. cbn [check_nans is_snan is_nan orb sign_of].
  by apply fix_finite_exact.
Qed.

(** C10. The operator [%] multiplies. For every list of values and every
    operand, [apply_operation] with [%] returns what it returns with [*];
    and what it returns is, for a finite value and a finite operand whose
    product the decimal context holds exactly, that product (the product of
    the coefficients at the sum of the exponents, negative when one of the
    two is) brought to the nearest cent: neither a remainder nor the value
    itself. *)
Theorem percent_operator_multiplies (values : list Decimal) (operand : Decimal) :
  apply_operation values ("%", operand) = apply_operation values ("*", operand) /\
  (forall results,
     apply_operation values ("%", operand) = Ok results ->
     Forall2 (fun value r =>
                forall s c e s' c' e',
                  value = DFin s c e -> operand = DFin s' c' e' ->
                  ndigits (c * c') <= prec -> Etiny <= e + e' ->
                  ndigits (c * c') + (e + e') - 1 <= Emax ->
                  rounded_to_cents (DFin (xorb s s') (c * c') (e + e')) r)
             values results).
Proof.
  split.
  - unfold apply_operation. induction values as [|v vs IH]; [reflexivity|].
    cbn [map_result]. rewrite IH. reflexivity.
  - intros results H. apply apply_operation_half_even in H.
    eapply Forall2_impl; [exact H|].
    intros value r (new_value & Hop & Hr) s c e s' c' e' -> -> Hd Hlo Hhi.
    change (mul (DFin s c e) (DFin s' c' e') = Ok new_value) in Hop.
    rewrite (mul_exact _ _ _ _ _ _ Hd Hlo Hhi) in Hop.
    by injection Hop as <-.
Qed.

(** C10, at an input: 200 and 0.25 with the operand 0.5 become 100.00 and
    0.12, the cents nearest to the products 100.0 and 0.125. *)
Lemma percent_operator_multiplies_witness :
  apply_operation [DFin false 200 0; DFin false 25 (-2)]
                  ("%", DFin false 5 (-1))
    = Ok [DFin false 10000 (-2); DFin false 12 (-2)] /\
  rounded_to_cents (DFin false 1000 (-1)) (DFin false 10000 (-2)) /\
  rounded_to_cents (DFin false 125 (-3)) (DFin false 12 (-2)).
Proof.
  split; [reflexivity|].
  pose proof (proj2 (percent_operator_multiplies
                       [DFin false 200 0; DFin false 25 (-2)]
                       (DFin false 5 (-1)))
                [DFin false 10000 (-2); DFin false 12 (-2)] eq_refl) as H.
  apply Forall2_cons_1 in H as [H1 H]. apply Forall2_cons_1 in H as [H2 _].
  split.
  - apply (H1 false 200%N 0 false 5%N (-1) eq_refl eq_refl);
      vm_compute; congruence.
  - apply (H2 false 25%N (-2) false 5%N (-1) eq_refl eq_refl);
      vm_compute; congruence.
Defined.

(** ** The value parser and the period calendar *)

Lemma split_all_length c s : length (split_all c s) = S (count_char c s).
Proof.
  induction s as [|x s IH]; [reflexivity|].
  cbn [split_all count_char]. destruct (Ascii.eqb x c).
  - cbn [length]. rewrite IH. reflexivity.
  - destruct (split_all c s) as [|p ps]; [discriminate|]. cbn [length] in *. lia.
Qed.

Lemma strip_to_ideal_spec n : forall c e,
  (fst (strip_to_ideal n c e) * pow10 (snd (strip_to_ideal n c e) - e) = c)%N /\
  e <= snd (strip_to_ideal n c e) <= e + Z.of_nat n.
Proof.
  induction n as [|n IH]; intros c e; cbn [strip_to_ideal].
  - cbn [fst snd]. rewrite Z.sub_diag. change (pow10 0) with 1%N. lia.
  - destruct (N.eqb_spec (c mod 10) 0) as [Hm|_].
    + destruct (IH (c / 10)%N (e + 1)) as [H1 H2].
      set (r := strip_to_ideal n (c / 10) (e + 1)) in *.
      split; [|lia].
      replace (snd r - e) with (1 + (snd r - (e + 1))) by lia.
      unfold pow10 in *. rewrite Z2N.inj_add, N.pow_add_r by lia.
      change (10 ^ Z.to_N 1)%N with 10%N.
      pose proof (N.div_mod c 10 ltac:(lia)) as Hd. lia.
    + cbn [fst snd]. rewrite Z.sub_diag. change (pow10 0) with 1%N. lia.
Qed.

Lemma strip_to_ideal_zeros n : forall k c e,
  (k <= n)%nat -> (c mod 10 ^ N.of_nat k = 0)%N ->
  e + Z.of_nat k <= snd (strip_to_ideal n c e).
Proof.
  induction n as [|n IH]; intros k c e Hk Hm.
  - assert (k = 0%nat) as -> by lia. cbn. lia.
  - destruct k as [|k].
    + pose proof (strip_to_ideal_spec (S n) c e). lia.
    + rewrite Nat2N.inj_succ, N.pow_succ_r' in Hm.
      assert (H10 : (c mod 10 = 0)%N).
      { apply N.Lcm0.mod_divide. apply N.Lcm0.mod_divide in Hm.
        destruct Hm as [m ->]. exists (m * 10 ^ N.of_nat k)%N. lia. }
      assert (Hk' : ((c / 10) mod 10 ^ N.of_nat k = 0)%N).
      { apply N.Lcm0.mod_divide. apply N.Lcm0.mod_divide in Hm.
        destruct Hm as [m ->]. exists m.
        replace (m * (10 * 10 ^ N.of_nat k))%N
          with ((m * 10 ^ N.of_nat k) * 10)%N by lia.
        by rewrite N.div_mul. }
      cbn [strip_to_ideal]. rewrite H10. cbn [N.eqb].
      specialize (IH k (c / 10)%N (e + 1) ltac:(lia) Hk'). lia.
Qed.

Lemma ndigits_scaled c' k c :
  (c' <> 0)%N -> 0 <= k -> (c' * pow10 k)%N = c -> ndigits c' + k <= ndigits c.
Proof.
  intros Hc' Hk E.
  assert (Hc : (0 < c)%N) by (pose proof (pow10_pos k); nia).
  destruct (ndigits_spec c' ltac:(lia)) as (_ & Hlo & _).
  destruct (ndigits_spec c Hc) as (_ & _ & Hhi).
  assert (Hz : Z.of_N c = Z.of_N c' * 10 ^ k)
    by (rewrite <- E, N2Z.inj_mul, pow10_Z by lia; reflexivity).
  destruct (Z.le_gt_cases (ndigits c' + k) (ndigits c)) as [|Hgt]; [done|].
  assert (10 ^ ndigits c <= 10 ^ (ndigits c' - 1 + k))
    by (apply Z.pow_le_mono_r; lia).
  rewrite Z.pow_add_r in * by (pose proof (ndigits_pos c'); lia).
  assert (0 < 10 ^ k) by (apply Z.pow_pos_nonneg; lia). nia.
Qed.

(** A whole number of hundredths divides exactly. *)
Lemma div_hundred s c :
  ndigits c <= prec ->
  exists c' e',
    div (DFin s c 0) (DFin false 100 0) = Ok (DFin s c' e') /\
    -2 <= e' /\ (c' * pow10 (e' + 2))%N = c.
Proof.
  intros Hd. unfold div. cbn [check_nans is_snan is_nan orb sign_of].
  rewrite xorb_false_r. change (100 =? 0)%N with false. cbv iota.
  destruct (N.eqb_spec c 0) as [->|Hc].
  - exists 0%N, 0. split; [reflexivity|]. split; [lia|reflexivity].
  - change (ndigits 100) with 3. pose proof (ndigits_pos c) as Hp.
    set (shift := 3 - ndigits c + prec + 1).
    assert (Hs : 4 <= shift) by (unfold shift, prec in *; lia).
    assert (Hge : (0 <=? shift) = true) by (apply Z.leb_le; lia).
    rewrite Hge.
    assert (Hq : (c * pow10 shift = c * pow10 (shift - 2) * 100)%N).
    { replace shift with ((shift - 2) + 2) at 1 by lia. unfold pow10.
      rewrite Z2N.inj_add, N.pow_add_r by lia.
      change (10 ^ Z.to_N 2)%N with 100%N. lia. }
    assert (Hdiv : N.div_eucl (c * pow10 shift) 100
                   = ((c * pow10 (shift - 2))%N, 0%N)).
    { rewrite (surjective_pairing (N.div_eucl _ _)).
      change (fst (N.div_eucl ?a ?b)) with (a / b)%N.
      change (snd (N.div_eucl ?a ?b)) with (a mod b)%N.
      rewrite Hq, N.div_mul, N.Div0.mod_mul by lia. reflexivity. }
    rewrite Hdiv. cbn [N.eqb]. cbv iota.
    replace (0 - 0 - (0 - 0 - shift)) with shift by lia.
    replace (0 - 0 - shift) with (- shift) by lia.
    set (q := (c * pow10 (shift - 2))%N).
    pose proof (strip_to_ideal_spec (Z.to_nat shift) q (- shift)) as [H1 H2].
    pose proof (strip_to_ideal_zeros (Z.to_nat shift) (Z.to_nat (shift - 2))
                  q (- shift) ltac:(lia)) as H3.
    assert (Hm : (q mod 10 ^ N.of_nat (Z.to_nat (shift - 2)) = 0)%N).
    { unfold q, pow10. rewrite Z_nat_N. apply N.Div0.mod_mul. }
    specialize (H3 Hm).
    destruct (strip_to_ideal (Z.to_nat shift) q (- shift)) as [c' e'].
    cbn [fst snd] in *.
    assert (He : -2 <= e' <= 0) by lia.
    assert (Hc' : (c' * pow10 (e' + 2))%N = c).
    { apply (N.mul_cancel_r _ _ (pow10 (shift - 2)));
        [pose proof (pow10_pos (shift - 2)); lia|].
      fold q. rewrite <- H1. unfold pow10.
      rewrite <- N.mul_assoc, <- N.pow_add_r, <- Z2N.inj_add by lia.
      do 3 f_equal. lia. }
    exists c', e'. split; [|split; [lia|done]].
    assert (Hc'0 : c' <> 0%N) by (intros ->; cbn in Hc'; lia).
    pose proof (ndigits_scaled c' (e' + 2) c Hc'0 ltac:(lia) Hc').
    apply fix_finite_exact; unfold Etiny, Emin, Emax, prec in *; lia.
Qed.

Lemma quantize_hundredths s c c' e' :
  ndigits c <= prec -> -2 <= e' -> (c' * pow10 (e' + 2))%N = c ->
  quantize (DFin s c' e') cent = Ok (DFin s c (-2)).
Proof.
  intros Hd He Hc. unfold quantize, cent.
  cbn [check_nans is_snan is_nan orb].
  change (negb ((Etiny <=? -2) && (-2 <=? Emax))) with false. cbv iota.
  destruct (N.eqb_spec c' 0) as [->|Hc'].
  - cbn in Hc. subst c. reflexivity.
  - pose proof (ndigits_scaled c' (e' + 2) c Hc' ltac:(lia) Hc) as Hn.
    pose proof (ndigits_pos c').
    assert (H1 : (Emax <? ndigits c' + e' - 1) = false)
      by (apply Z.ltb_ge; unfold Emax, prec in *; lia).
    assert (H2 : (prec <? ndigits c' + e' - 1 - -2 + 1) = false)
      by (apply Z.ltb_ge; lia).
    rewrite H1, H2. unfold rescale.
    destruct (N.eqb_spec c' 0) as [|_]; [contradiction|].
    assert (H3 : (-2 <=? e') = true) by (apply Z.leb_le; lia).
    rewrite H3. replace (e' - -2) with (e' + 2) by lia. rewrite Hc.
    assert (H4 : (Emax <? ndigits c + -2 - 1) = false)
      by (apply Z.ltb_ge; unfold Emax, prec in *; lia).
    assert (H5 : (prec <? ndigits c) = false) by (apply Z.ltb_ge; lia).
    rewrite H4, H5. by apply fix_finite_cents.
Qed.

(** C3 (as amended). [parse_gnucash_value] returns Decimal zero, without
    raising, for every string that does not consist of exactly two parts
    separated by one slash. For a string of two parts it converts the
    parts, divides and quantizes. With a zero denominator it raises
    DivisionByZero for a finite numerator that is not zero and
    InvalidOperation for a zero, an infinite or a signaling NaN numerator,
    and returns a NaN for a quiet NaN numerator; a part that is no decimal
    literal raises the constructor's exception. The value that it returns
    is the quotient of the two numbers brought to the nearest cent, and a
    whole number of at most 28 digits over 100 gives exactly that number
    of hundredths. *)
Theorem parse_gnucash_value_cases (value_str : string) :
  (count_char "/" value_str <> 1%nat -> parse_gnucash_value value_str = Ok zero) /\
  (forall p0 p1 sn cn en sd ed,
     split_all "/" value_str = [p0; p1] ->
     Decimal_of_str p0 = Ok (DFin sn cn en) ->
     Decimal_of_str p1 = Ok (DFin sd 0 ed) ->
     parse_gnucash_value value_str =
       Raise (if (cn =? 0)%N then InvalidOperation else DivisionByZero)) /\
  (forall p0 p1 e,
     split_all "/" value_str = [p0; p1] ->
     Decimal_of_str p0 = Raise e \/
     (is_Ok (Decimal_of_str p0) = true /\ Decimal_of_str p1 = Raise e) ->
     parse_gnucash_value value_str = Raise e) /\
  (forall p0 p1 numerator sd ed,
     split_all "/" value_str = [p0; p1] ->
     Decimal_of_str p0 = Ok numerator ->
     Decimal_of_str p1 = Ok (DFin sd 0 ed) ->
     match numerator with
     | DFin _ _ _ => True
     | DInf _ | DNaN _ true _ =>
         parse_gnucash_value value_str = Raise InvalidOperation
     | DNaN _ false _ =>
         exists value, parse_gnucash_value value_str = Ok value /\
                       is_nan value = true
     end) /\
  (forall p0 p1 numerator denominator value,
     split_all "/" value_str = [p0; p1] ->
     Decimal_of_str p0 = Ok numerator ->
     Decimal_of_str p1 = Ok denominator ->
     parse_gnucash_value value_str = Ok value ->
     exists quotient,
       div numerator denominator = Ok quotient /\
       rounded_to_cents quotient value) /\
  (forall p0 p1 s c,
     split_all "/" value_str = [p0; p1] ->
     Decimal_of_str p0 = Ok (DFin s c 0) ->
     Decimal_of_str p1 = Ok (DFin false 100 0) ->
     ndigits c <= prec ->
     parse_gnucash_value value_str = Ok (DFin s c (-2))).
Proof.
  unfold parse_gnucash_value. split; [|split; [|split; [|split; [|split]]]].
  - intros Hn. pose proof (split_all_length "/" value_str) as Hl.
    destruct (split_all "/" value_str) as [|p0 [|p1 [|p2 ps]]]; try reflexivity.
    cbn [length] in Hl. lia.
  - intros p0 p1 sn cn en sd ed -> -> ->. cbn. destruct (cn =? 0)%N; reflexivity.
  - intros p0 p1 e -> [->|[H0 ->]]; [reflexivity|].
    destruct (Decimal_of_str p0); [reflexivity|discriminate].
  - intros p0 p1 numerator sd ed -> -> ->.
    destruct numerator as [s c e|s|s [|] p]; [done|reflexivity|reflexivity|].
    eexists. split; reflexivity.
  - intros p0 p1 numerator denominator value -> -> ->.
    cbn [mbind result_bind].
    destruct (div numerator denominator) as [quotient|]; [|discriminate].
    cbn [mbind result_bind]. intros H. exists quotient. split; [done|].
    by apply quantize_cent_rounded.
  - intros p0 p1 s c -> -> -> Hd. cbn [mbind result_bind].
    destruct (div_hundred s c Hd) as (c' & e' & -> & He & Hc).
    cbn [mbind result_bind]. by apply quantize_hundredths.
Qed.

(** C3, at inputs of each kind. *)
Lemma parse_gnucash_value_cases_witness :
  parse_gnucash_value "12345" = Ok zero /\
  parse_gnucash_value "1/2/3" = Ok zero /\
  parse_gnucash_value "5/0" = Raise DivisionByZero /\
  parse_gnucash_value "x/2" = Raise InvalidOperation /\
  parse_gnucash_value "inf/0" = Raise InvalidOperation /\
  (exists quotient, div (DFin false 1 0) (DFin false 8 0) = Ok quotient /\
                    rounded_to_cents quotient (DFin false 12 (-2))) /\
  parse_gnucash_value "-12345/100" = Ok (DFin true 12345 (-2)).
Proof.
  split; [apply (proj1 (parse_gnucash_value_cases "12345")); vm_compute; lia|].
  split; [apply (proj1 (parse_gnucash_value_cases "1/2/3")); vm_compute; lia|].
  split.
  { apply (proj1 (proj2 (parse_gnucash_value_cases "5/0"))
             "5" "0" false 5%N 0 false 0); reflexivity. }
  split.
  { apply (proj1 (proj2 (proj2 (parse_gnucash_value_cases "x/2")))
             "x" "2" InvalidOperation); [reflexivity | left; reflexivity]. }
  split.
  { exact (proj1 (proj2 (proj2 (proj2 (parse_gnucash_value_cases "inf/0"))))
             "inf" "0" (DInf false) false 0 eq_refl eq_refl eq_refl). }
  split.
  { exact (proj1 (proj2 (proj2 (proj2 (proj2
                    (parse_gnucash_value_cases "1/8")))))
             "1" "8" (DFin false 1 0) (DFin false 8 0) (DFin false 12 (-2))
             eq_refl eq_refl eq_refl eq_refl). }
  apply (proj2 (proj2 (proj2 (proj2 (proj2
                 (parse_gnucash_value_cases "-12345/100")))))
           "-12345" "100" true 12345%N); [reflexivity..|].
  vm_compute. congruence.
Defined.

(** C3 as the specification states it fails: the value parser raises on a
    zero denominator and on parts that are no numbers. *)
Lemma parse_gnucash_value_raises :
  parse_gnucash_value "1/0" = Raise DivisionByZero /\
  parse_gnucash_value "abc/def" = Raise InvalidOperation /\
  ~ (forall value_str, exists d, parse_gnucash_value value_str = Ok d).
Proof.
  split; [reflexivity|]. split; [reflexivity|].
  intros H. destruct (H "1/0") as [d Hd]. discriminate.
Qed.

Lemma make_date_Ok y m d dt :
  make_date y m d = Ok dt ->
  dt = mkdate y m d /\ 1 <= y <= 9999 /\ 1 <= m <= 12 /\ 1 <= d <= monthrange y m.
Proof.
  unfold make_date, valid_date. intros H.
  destruct (1 <=? y) eqn:H1; [|discriminate].
  destruct (y <=? 9999) eqn:H2; [|discriminate].
  destruct (1 <=? m) eqn:H3; [|discriminate].
  destruct (m <=? 12) eqn:H4; [|discriminate].
  destruct (1 <=? d) eqn:H5; [|discriminate].
  destruct (d <=? monthrange y m) eqn:H6; [|discriminate].
  injection H as <-. repeat split; lia.
Qed.

Lemma monthly_step_advancing s e : advancing (monthly_step s e).
Proof.
  intros cur p next. unfold monthly_step.
  destruct (make_date (year cur) (month cur) 1) as [ps|] eqn:H1; [|discriminate].
  cbn [mbind result_bind].
  destruct (make_date (year cur) (month cur) (monthrange _ _)) as [pe|]; [|discriminate].
  cbn [mbind result_bind].
  apply make_date_Ok in H1 as (_ & _ & Hm & _).
  destruct (Z.eqb_spec (month cur) 12) as [E|E].
  - destruct (make_date (year cur + 1) 1 (day cur)) as [nx|] eqn:H3; [|discriminate].
    cbn [mbind result_bind]. intros H; injection H as _ <-.
    apply make_date_Ok in H3 as (-> & _). unfold month_index. cbn. lia.
  - destruct (make_date (year cur) (month cur + 1) (day cur)) as [nx|] eqn:H3; [|discriminate].
    cbn [mbind result_bind]. intros H; injection H as _ <-.
    apply make_date_Ok in H3 as (-> & _ & ? & _). unfold month_index. cbn. lia.
Qed.

Lemma quarterly_step_advancing s e : advancing (quarterly_step s e).
Proof.
  intros cur p next. unfold quarterly_step.
  destruct (make_date (year cur) _ 1) as [ps|] eqn:H1; [|discriminate].
  cbn [mbind result_bind].
  destruct (make_date (year cur) _ (monthrange _ _)) as [pe|]; [|discriminate].
  cbn [mbind result_bind].
  apply make_date_Ok in H1 as (_ & _ & Hm & _).
  assert (Hmc : 1 <= month cur <= 12)
    by (Z.to_euclidean_division_equations; lia).
  destruct (Z.eqb_spec ((month cur - 1) / 3 + 1) 4) as [E|E].
  - destruct (make_date (year cur + 1) 1 (day cur)) as [nx|] eqn:H3; [|discriminate].
    cbn [mbind result_bind]. intros H; injection H as _ <-.
    apply make_date_Ok in H3 as (-> & _). unfold month_index. cbn. lia.
  - destruct (make_date (year cur) _ (day cur)) as [nx|] eqn:H3; [|discriminate].
    cbn [mbind result_bind]. intros H; injection H as _ <-.
    apply make_date_Ok in H3 as (-> & _ & ? & _). unfold month_index. cbn.
    Z.to_euclidean_division_equations. lia.
Qed.

Lemma date_leb_year a b : date_leb a b = true -> year a <= year b.
Proof.
  unfold date_leb, date_ltb. intros H.
  destruct (Z.ltb_spec (year b) (year a)); [discriminate|lia].
Qed.

Lemma period_loop_terminates step end_ :
  advancing step ->
  forall fuel cur ranges,
    (date_leb cur end_ = true ->
     12 * (year end_ - year cur) + 13 - Z.min 12 (Z.max 1 (month cur))
       < Z.of_nat fuel) ->
    period_loop step fuel end_ cur ranges <> None.
Proof.
  intros Hadv. induction fuel as [|fuel IH]; intros cur ranges Hinv.
  - cbn [period_loop]. destruct (date_leb cur end_) eqn:Hle; [|discriminate].
    apply date_leb_year in Hle as Hy. specialize (Hinv eq_refl). lia.
  - cbn [period_loop]. destruct (date_leb cur end_) eqn:Hle; [|discriminate].
    specialize (Hinv eq_refl).
    destruct (step cur) as [[p next]|] eqn:Hs; [|discriminate].
    apply IH. intros Hle'. apply Hadv in Hs as (Hc & Hn & Hidx).
    unfold month_index in Hidx. lia.
Qed.

Lemma get_period_ranges_fuel_enough s e t :
  get_period_ranges_fuel (period_fuel s e) s e t <> None.
Proof.
  unfold get_period_ranges_fuel, period_fuel.
  assert (Hinv : date_leb s e = true ->
            12 * (year e - year s) + 13 - Z.min 12 (Z.max 1 (month s))
              < Z.of_nat (Z.to_nat (12 * (year e - year s + 1) + 2))).
  { intros Hle. apply date_leb_year in Hle. lia. }
  destruct (String.eqb t "m").
  - apply period_loop_terminates; [apply monthly_step_advancing|done].
  - destruct (String.eqb t "q"); [|discriminate].
    apply period_loop_terminates; [apply quarterly_step_advancing|done].
Qed.

(** C4 fails on the program: from 2025-01-15 to 2025-03-10 the monthly
    periods end on 2025-02-28, so the last period does not end on the end
    date and March is not covered; from 2025-01-31 the step to February
    raises ValueError. *)
Theorem get_period_ranges_misses_last_month :
  get_period_ranges (mkdate 2025 1 15) (mkdate 2025 3 10) "m" =
    Ok [(mkdate 2025 1 15, mkdate 2025 1 31);
        (mkdate 2025 2 1, mkdate 2025 2 28)] /\
  get_period_ranges (mkdate 2025 1 31) (mkdate 2025 3 31) "m" =
    Raise (ValueError DateOutOfRange).
Proof. split; reflexivity. Qed.

(** *** The monthly periods from the first day of a month *)

Lemma monthrange_bounds y m : 28 <= monthrange y m <= 31.
Proof.
  unfold monthrange.
  destruct (m =? 2); [destruct (isleap y); lia|].
  destruct ((m =? 4) || (m =? 6) || (m =? 9) || (m =? 11)); lia.
Qed.

Lemma valid_date_iff y m d :
  valid_date y m d = true <->
  1 <= y <= 9999 /\ 1 <= m <= 12 /\ 1 <= d <= monthrange y m.
Proof.
  unfold valid_date. rewrite !andb_true_iff, !Z.leb_le. lia.
Qed.

Lemma date_ltb_iff a b :
  date_ltb a b = true <->
  year a < year b \/
  (year a = year b /\
   (month a < month b \/ (month a = month b /\ day a < day b))).
Proof.
  unfold date_ltb.
  rewrite !orb_true_iff, !andb_true_iff, !orb_true_iff, !andb_true_iff,
          !Z.ltb_lt, !Z.eqb_eq. tauto.
Qed.

Lemma date_leb_iff a b :
  date_leb a b = true <->
  year a < year b \/
  (year a = year b /\
   (month a < month b \/ (month a = month b /\ day a <= day b))).
Proof.
  unfold date_leb. rewrite negb_true_iff, <- not_true_iff_false, date_ltb_iff.
  lia.
Qed.

Lemma date_leb_false_iff a b :
  date_leb a b = false <-> date_ltb b a = true.
Proof.
  unfold date_leb. rewrite negb_false_iff. tauto.
Qed.

Lemma make_date_valid y m d :
  valid_date y m d = true -> make_date y m d = Ok (mkdate y m d).
Proof. intros H. unfold make_date. rewrite H. reflexivity. Qed.

Lemma monthly_step_first_day s e cur :
  valid_date (year cur) (month cur) (day cur) = true -> day cur = 1 ->
  valid_date (year e) (month e) (day e) = true -> year e < 9999 ->
  date_leb s cur = true -> date_leb cur e = true ->
  exists period_end next,
    monthly_step s e cur = Ok ((cur, period_end), next) /\
    date_leb cur period_end = true /\
    valid_date (year next) (month next) (day next) = true /\ day next = 1 /\
    date_leb s next = true /\
    (date_leb next e = true -> next = next_day period_end) /\
    (date_leb next e = false -> period_end = e).
Proof.
  destruct cur as [y m d]. cbn [year month day]. intros Hv -> Hve Hy Hs He.
  apply valid_date_iff in Hv, Hve.
  apply date_leb_iff in He, Hs. cbn [year month day] in He, Hs.
  pose proof (monthrange_bounds y m) as Hmr.
  unfold monthly_step. cbn [year month day].
  rewrite (make_date_valid y m 1) by (apply valid_date_iff; lia).
  rewrite (make_date_valid y m (monthrange y m)) by (apply valid_date_iff; lia).
  cbn [mbind result_bind].
  assert (Hmax : date_max (mkdate y m 1) s = mkdate y m 1).
  { unfold date_max. destruct (date_ltb (mkdate y m 1) s) eqn:Hlt; [|done].
    apply date_ltb_iff in Hlt. cbn [year month day] in *. lia. }
  rewrite Hmax.
  set (next := if m =? 12 then mkdate (y + 1) 1 1 else mkdate y (m + 1) 1).
  assert (Hnext : (if m =? 12 then make_date (y + 1) 1 1
                   else make_date y (m + 1) 1) = Ok next).
  { subst next. destruct (Z.eqb_spec m 12).
    - apply make_date_valid, valid_date_iff.
      pose proof (monthrange_bounds (y + 1) 1). lia.
    - apply make_date_valid, valid_date_iff.
      pose proof (monthrange_bounds y (m + 1)). lia. }
  rewrite Hnext. cbn [mbind result_bind].
  exists (date_min (mkdate y m (monthrange y m)) e), next.
  split; [reflexivity|].
  assert (Hny : year next = (if m =? 12 then y + 1 else y) /\
                month next = (if m =? 12 then 1 else m + 1) /\ day next = 1).
  { subst next. destruct (m =? 12); done. }
  destruct Hny as (Hny & Hnm & Hnd).
  split; [|split; [|split; [|split; [|split]]]].
  - unfold date_min. destruct (date_ltb e (mkdate y m (monthrange y m)));
      apply date_leb_iff; cbn [year month day]; lia.
  - apply valid_date_iff. rewrite Hny, Hnm, Hnd.
    destruct (Z.eqb_spec m 12).
    + pose proof (monthrange_bounds (y + 1) 1). lia.
    + pose proof (monthrange_bounds y (m + 1)). lia.
  - exact Hnd.
  - apply date_leb_iff. rewrite Hny, Hnm, Hnd.
    destruct (Z.eqb_spec m 12); lia.
  - intros Hle. apply date_leb_iff in Hle. rewrite Hny, Hnm, Hnd in Hle.
    assert (Hmin : date_min (mkdate y m (monthrange y m)) e
                   = mkdate y m (monthrange y m)).
    { unfold date_min. destruct (date_ltb e (mkdate y m (monthrange y m))) eqn:Hlt;
        [|done].
      apply date_ltb_iff in Hlt. cbn [year month day] in Hlt.
      destruct (Z.eqb_spec m 12); lia. }
    rewrite Hmin. unfold next_day. cbn [year month day].
    rewrite Z.ltb_irrefl. subst next.
    destruct (Z.eqb_spec m 12) as [->|Hm].
    + reflexivity.
    + destruct (Z.ltb_spec m 12); [reflexivity|lia].
  - intros Hgt. apply date_leb_false_iff, date_ltb_iff in Hgt.
    rewrite Hny, Hnm, Hnd in Hgt.
    unfold date_min.
    destruct (date_ltb e (mkdate y m (monthrange y m))) eqn:Hlt; [done|].
    apply not_true_iff_false in Hlt. rewrite date_ltb_iff in Hlt.
    cbn [year month day] in Hlt.
    destruct e as [ye me de]. cbn [year month day] in *.
    assert (ye = y /\ me = m) as [-> ->] by (destruct (Z.eqb_spec m 12); lia).
    f_equal. lia.
Qed.

Lemma period_loop_first_day s e :
  valid_date (year e) (month e) (day e) = true -> year e < 9999 ->
  forall fuel cur ranges r,
    valid_date (year cur) (month cur) (day cur) = true -> day cur = 1 ->
    date_leb s cur = true -> date_leb cur e = true ->
    period_loop (monthly_step s e) fuel e cur ranges = Some r ->
    exists periods, r = Ok (ranges ++ periods)%list /\ tiles cur e periods.
Proof.
  intros Hve Hy fuel. induction fuel as [|fuel IH];
    intros cur ranges r Hv Hd Hs He Hloop.
  - cbn [period_loop] in Hloop. rewrite He in Hloop. discriminate.
  - cbn [period_loop] in Hloop. rewrite He in Hloop.
    destruct (monthly_step_first_day s e cur Hv Hd Hve Hy Hs He)
      as (period_end & next & Hstep & Hpe & Hnv & Hnd & Hns & Hin & Hout).
    rewrite Hstep in Hloop.
    destruct (date_leb next e) eqn:Hne.
    + destruct (IH next _ r Hnv Hnd Hns Hne Hloop) as (periods & -> & Ht).
      exists ((cur, period_end) :: periods). split.
      * rewrite <- app_assoc. reflexivity.
      * cbn [tiles]. split; [reflexivity|]. split; [exact Hpe|].
        rewrite <- (Hin eq_refl).
        destruct periods; [destruct Ht|exact Ht].
    + destruct fuel; cbn [period_loop] in Hloop; rewrite Hne in Hloop;
        injection Hloop as <-;
        (exists [(cur, period_end)]; split; [reflexivity|];
         cbn [tiles]; rewrite (Hout eq_refl); split; [reflexivity|];
         split; [rewrite <- (Hout eq_refl); exact Hpe|reflexivity]).
Qed.

(** X1. Where the monthly periods do tile the range: when the start date is
    the first day of a month (and both dates are days of the calendar, the
    start not after the end, the end before the year 9999),
    [get_period_ranges] returns, and the monthly periods tile the days from
    the start date to the end date: the first starts on the start date, the
    last ends on the end date, each starts no later than it ends and the
    day after its end is the start of the next. *)
Theorem get_period_ranges_monthly_tiles (start_date end_date : date) :
  valid_date (year start_date) (month start_date) (day start_date) = true ->
  valid_date (year end_date) (month end_date) (day end_date) = true ->
  day start_date = 1 -> year end_date < 9999 ->
  date_leb start_date end_date = true ->
  exists ranges,
    get_period_ranges start_date end_date "m" = Ok ranges /\
    tiles start_date end_date ranges.
Proof.
  intros Hvs Hve Hd Hy Hle.
  pose proof (get_period_ranges_fuel_enough start_date end_date "m") as Hfuel.
  unfold get_period_ranges.
  destruct (get_period_ranges_fuel _ _ _ _) as [r|] eqn:Hrun; [|done].
  unfold get_period_ranges_fuel in Hrun. cbn [String.eqb Ascii.eqb] in Hrun.
  assert (Hss : date_leb start_date start_date = true)
    by (apply date_leb_iff; lia).
  destruct (period_loop_first_day start_date end_date Hve Hy _ _ _ _
              Hvs Hd Hss Hle Hrun) as (periods & -> & Ht).
  exists periods. split; [reflexivity|exact Ht].
Qed.

(** X1, at an input: from 2025-01-01 to 2025-03-10. *)
Lemma get_period_ranges_monthly_tiles_witness :
  exists ranges,
    get_period_ranges (mkdate 2025 1 1) (mkdate 2025 3 10) "m" = Ok ranges /\
    tiles (mkdate 2025 1 1) (mkdate 2025 3 10) ranges.
Proof.
  apply (get_period_ranges_monthly_tiles (mkdate 2025 1 1) (mkdate 2025 3 10));
    try reflexivity.
Defined.

(** ** The scope of a SUM row *)

Lemma indexed_elem {A} (l : list A) n j x :
  (j, x) ∈ take n (indexed l) -> l !! j = Some x /\ (j < n)%nat.
Proof.
  intros H. apply list_elem_of_lookup in H as [k Hk].
  pose proof (lookup_lt_Some _ _ _ Hk) as Hlt. rewrite length_take in Hlt.
  rewrite lookup_take_lt in Hk by lia. unfold indexed in Hk.
  rewrite list_lookup_imap in Hk.
  destruct (l !! k) as [y|] eqn:Hy; [|discriminate].
  cbn in Hk. injection Hk as -> ->. split; [done|lia].
Qed.

Lemma omap_cons {A B} (f : A -> option B) x l :
  omap f (x :: l) = match f x with Some y => y :: omap f l | None => omap f l end.
Proof. reflexivity. Qed.

Lemma sum_scan_spec n stored before sums :
  Forall (fun item => forall v, stored !! fst item = Some (SeriesValues v) ->
                                is_account (snd item) = false) before ->
  sum_scan n stored before sums =
    fold_result (fun sum_values values => add_series n values sum_values)
                (omap (contribution stored) (until_boundary before)) sums.
Proof.
  intros Hc. revert sums. induction Hc as [|[i e] rest Hi _ IH]; intros sums;
    [reflexivity|].
  cbn [sum_scan until_boundary snd]. unfold is_boundary.
  cbn [fst snd] in Hi. unfold is_account in Hi.
  destruct (kind e) eqn:Hk; try reflexivity;
    rewrite omap_cons; unfold contribution at 1; cbn [fst snd]; rewrite Hk;
    try apply IH.
  - destruct (stored !! i) as [[v|v]|] eqn:Hs.
    + cbn [fold_result]. destruct (add_series n (final v) sums); [|reflexivity].
      cbn [mbind result_bind]. apply IH.
    + specialize (Hi v eq_refl). discriminate.
    + apply IH.
  - cbn [fold_result]. destruct (add_series n values sums); [|reflexivity].
    cbn [mbind result_bind]. apply IH.
Qed.

Lemma getitem_Ok {A} (l : list A) i x : getitem l i = Ok x <-> l !! i = Some x.
Proof. unfold getitem. destruct (l !! i); split; intros H; by inversion H. Qed.

Lemma add_at_Ok values sums p sums' :
  add_at values sums p = Ok sums' ->
  exists s v t, sums !! p = Some s /\ values !! p = Some v /\
                add s v = Ok t /\ sums' = <[p := t]> sums.
Proof.
  unfold add_at, getitem.
  destruct (sums !! p) as [s|]; [|discriminate].
  destruct (values !! p) as [v|]; [|discriminate].
  cbn [mbind result_bind]. destruct (add s v) as [t|] eqn:Ht; [|discriminate].
  cbn [mbind result_bind]. intros H; injection H as <-. by exists s, v, t.
Qed.

Lemma fold_add_at values k : forall a sums sums',
  fold_result (add_at values) (seq a k) sums = Ok sums' ->
  length sums' = length sums /\
  (forall p, (p < a \/ a + k <= p)%nat -> sums' !! p = sums !! p) /\
  (forall p, (a <= p < a + k)%nat ->
     exists s v t, sums !! p = Some s /\ values !! p = Some v /\
                   add s v = Ok t /\ sums' !! p = Some t).
Proof.
  induction k as [|k IH]; intros a sums sums' H.
  - cbn in H. injection H as <-. split; [done|]. split; [done|]. intros p Hp. lia.
  - cbn [seq fold_result] in H.
    destruct (add_at values sums a) as [sums1|] eqn:H1; [|discriminate].
    cbn [mbind result_bind] in H.
    apply add_at_Ok in H1 as (s & v & t & Hs & Hv & Ht & ->).
    apply IH in H as (Hlen & Hout & Hin).
    rewrite length_insert in Hlen. split; [done|]. split.
    + intros p Hp. rewrite Hout by lia. apply list_lookup_insert_ne. lia.
    + intros p Hp. destruct (decide (p = a)) as [->|Hne].
      * exists s, v, t. repeat split; try done.
        rewrite Hout by lia. apply list_lookup_insert_eq.
        by eapply lookup_lt_Some.
      * destruct (Hin p ltac:(lia)) as (s' & v' & t' & Hs' & Hv' & Ht' & Hp').
        rewrite list_lookup_insert_ne in Hs' by lia. by exists s', v', t'.
Qed.

Lemma add_series_Ok n values sums sums' :
  add_series n values sums = Ok sums' ->
  length sums' = length sums /\
  (forall p, (p < n)%nat ->
     exists s v t, sums !! p = Some s /\ values !! p = Some v /\
                   add s v = Ok t /\ sums' !! p = Some t).
Proof.
  intros H. apply fold_add_at in H as (Hl & _ & Hin). split; [done|].
  intros p Hp. apply Hin. lia.
Qed.

Lemma sum_of_series_period n series : forall sums rs,
  fold_result (fun sum_values values => add_series n values sum_values)
              series sums = Ok rs ->
  length rs = length sums /\
  (forall p s0, (p < n)%nat -> sums !! p = Some s0 ->
     exists r, rs !! p = Some r /\
               sum_decimals s0 (map (fun values => default zero (values !! p))
                                    series) = Ok r).
Proof.
  induction series as [|values series IH]; intros sums rs H.
  - cbn in H. injection H as <-. split; [done|]. intros p s0 _ Hs. by exists s0.
  - cbn [fold_result] in H.
    destruct (add_series n values sums) as [sums1|] eqn:H1; [|discriminate].
    cbn [mbind result_bind] in H.
    apply add_series_Ok in H1 as (Hl1 & Hp1).
    apply IH in H as (Hl & Hp). split; [congruence|].
    intros p s0 Hlt Hs0.
    destruct (Hp1 p Hlt) as (s & v & t & Hs & Hv & Ht & Ht').
    rewrite Hs in Hs0. injection Hs0 as ->.
    destruct (Hp p t Hlt Ht') as (r & Hr & Hsum). exists r. split; [done|].
    cbn [map sum_decimals]. rewrite Hv. cbn [default from_option id]. rewrite Ht.
    cbn [mbind result_bind]. exact Hsum.
Qed.

(** C5. The value of a SUM row is the sum over its scope: scanning backward
    from the element before the SUM and stopping, exclusively, at the first
    TITLE, SUM or CALC element, the final series of the account rows and the
    literal series of the placeholder rows are added up, SECTION and BLANK
    rows being skipped. [calculate_sum_values] equals that sum (exceptions
    included), and when it returns, its value for each period is the sum,
    in scan order from Decimal zero, of the values of that period. *)
Theorem calculate_sum_values_scope (elem_idx : nat)
    (elements : list ReportElement) (stored_values : gmap nat stored_value)
    (num_periods : nat) :
  stored_consistent elements stored_values ->
  calculate_sum_values elem_idx elements stored_values num_periods =
    sum_of_series num_periods (contributions stored_values elem_idx elements) /\
  (forall sum_values,
     calculate_sum_values elem_idx elements stored_values num_periods =
       Ok sum_values ->
     length sum_values = num_periods /\
     forall p, (p < num_periods)%nat ->
       exists total,
         sum_values !! p = Some total /\
         sum_decimals zero
           (map (fun values => default zero (values !! p))
                (contributions stored_values elem_idx elements)) = Ok total).
Proof.
  intros Hc.
  assert (Heq : calculate_sum_values elem_idx elements stored_values num_periods =
    sum_of_series num_periods (contributions stored_values elem_idx elements)).
  { unfold calculate_sum_values, sum_of_series, contributions, sum_scope.
    apply sum_scan_spec. apply Forall_forall. intros [j e] Hin v Hv.
    apply list_elem_of_In, in_rev, list_elem_of_In in Hin.
    apply indexed_elem in Hin as [Hj _].
    cbn [fst snd] in *. by eapply Hc. }
  split; [exact Heq|]. intros sum_values Hs. rewrite Heq in Hs.
  unfold sum_of_series in Hs. apply sum_of_series_period in Hs as (Hl & Hp).
  rewrite length_replicate in Hl. split; [done|]. intros p Hlt.
  apply (Hp p zero Hlt). apply lookup_replicate. done.
Qed.

(** ** Adding a zero series *)

Lemma ndigits_unique c n :
  (0 < c)%N -> 10 ^ (n - 1) <= Z.of_N c < 10 ^ n -> ndigits c = n.
Proof.
  intros Hc [Hlo Hhi]. destruct (ndigits_spec c Hc) as (H1 & Hlo' & Hhi').
  assert (Hn : 1 <= n).
  { destruct (Z.le_gt_cases 1 n); [done|].
    destruct (Z.eq_dec n 0) as [->|]; [change (10 ^ 0) with 1 in Hhi; lia|].
    rewrite Z.pow_neg_r in Hhi by lia. lia. }
  destruct (Z.lt_trichotomy (ndigits c) n) as [Hlt|[Heq|Hgt]]; [|done|].
  - assert (10 ^ ndigits c <= 10 ^ (n - 1)) by (apply Z.pow_le_mono_r; lia). lia.
  - assert (10 ^ n <= 10 ^ (ndigits c - 1)) by (apply Z.pow_le_mono_r; lia). lia.
Qed.

Lemma ndigits_mul_pow10 c k :
  (0 < c)%N -> 0 <= k -> ndigits (c * pow10 k) = ndigits c + k.
Proof.
  intros Hc Hk. destruct (ndigits_spec c Hc) as (H1 & Hlo & Hhi).
  assert (Hp : 0 < 10 ^ k) by (apply Z.pow_pos_nonneg; lia).
  apply ndigits_unique.
  - pose proof (pow10_pos k). lia.
  - rewrite N2Z.inj_mul, pow10_Z by lia.
    replace (ndigits c + k - 1) with ((ndigits c - 1) + k) by lia.
    rewrite !Z.pow_add_r by lia. nia.
Qed.

Lemma fix_finite_in_context s c e :
  ndigits c <= prec -> Etiny <= e -> ndigits c + e - 1 <= Emax ->
  (c <> 0)%N -> fix_finite s c e = Ok (DFin s c e).
Proof.
  intros Hn He Ha Hc. unfold fix_finite.
  destruct (N.eqb_spec c 0%N) as [|_]; [done|].
  unfold Etop, Etiny, Emax, Emin, prec in *.
  destruct (Z.ltb_spec (999999 - 28 + 1) (ndigits c + e - 28)); [lia|].
  destruct (Z.ltb_spec e (Z.max (ndigits c + e - 28) (-999999 - 28 + 1))); [lia|].
  reflexivity.
Qed.

Lemma pow10_0 : pow10 0 = 1%N.
Proof. reflexivity. Qed.

Lemma pow10_add j k : 0 <= j -> 0 <= k -> pow10 (j + k) = (pow10 j * pow10 k)%N.
Proof.
  intros. unfold pow10. rewrite Z2N.inj_add by lia. apply N.pow_add_r.
Qed.

Lemma round_half_even_exact c j k :
  0 <= j -> 0 <= k -> round_half_even (c * pow10 (j + k)) k = (c * pow10 j)%N.
Proof.
  intros Hj Hk. unfold round_half_even. rewrite pow10_add by lia.
  pose proof (pow10_pos k) as Hp.
  rewrite N.mul_assoc, N.Div0.mod_mul, N.div_mul by lia.
  destruct (N.compare_spec (2 * 0) (pow10 k)); [lia|done|lia].
Qed.

Lemma signed_sign s c : (c <> 0)%N -> (signed s c <? 0) = s.
Proof. intros. unfold signed. destruct s; [apply Z.ltb_lt|apply Z.ltb_ge]; lia. Qed.

Lemma signed_abs s c : Z.to_N (Z.abs (signed s c)) = c.
Proof. unfold signed. destruct s; lia. Qed.

Lemma signed_zero s c : signed s c = 0 <-> c = 0%N.
Proof. unfold signed. destruct s; lia. Qed.

Lemma same_value_refl d : same_value d d.
Proof. destruct d; cbn; auto. Qed.

Lemma add_fin_zero s c e :
  (c <> 0)%N ->
  add (DFin s c e) zero =
    fix_finite s (c * pow10 (e - Z.min e 0)) (Z.min e 0).
Proof.
  intros Hc. unfold add, zero. cbn [check_nans is_snan is_nan orb].
  destruct (N.eqb_spec c 0%N) as [|_]; [done|]. cbn [andb].
  change (0 * pow10 (0 - Z.min e 0))%N with 0%N.
  change (signed false 0) with 0. rewrite Z.add_0_r.
  pose proof (pow10_pos (e - Z.min e 0)).
  assert (Hne : (c * pow10 (e - Z.min e 0) <> 0)%N) by lia.
  destruct (Z.eqb_spec (signed s (c * pow10 (e - Z.min e 0))) 0) as [E|_].
  - apply signed_zero in E. done.
  - rewrite signed_sign, signed_abs by done. reflexivity.
Qed.

Lemma add_zero_same d :
  in_context d -> exists d', add d zero = Ok d' /\ same_value d d'.
Proof.
  destruct d as [s c e|s|s g p]; cbn [in_context].
  - intros (Hn & He & Ha).
    destruct (N.eq_dec c 0%N) as [->|Hc].
    { eexists. split; [reflexivity|]. cbn [same_value]. rewrite !N.mul_0_l.
      by destruct s. }
    rewrite add_fin_zero by done.
    destruct (Z.le_gt_cases e 0) as [Hle|Hgt].
    + rewrite Z.min_l by lia. rewrite Z.sub_diag, pow10_0, N.mul_1_r.
      rewrite fix_finite_in_context by done.
      eexists; split; [reflexivity|apply same_value_refl].
    + rewrite Z.min_r by lia. rewrite Z.sub_0_r.
      pose proof (ndigits_mul_pow10 c e ltac:(lia) ltac:(lia)) as Hnd.
      pose proof (ndigits_pos c) as H1.
      pose proof (pow10_pos e) as Hp.
      unfold fix_finite.
      destruct (N.eqb_spec (c * pow10 e) 0%N) as [|_]; [lia|].
      rewrite Hnd. unfold Etop, Etiny, Emax, Emin, prec in *.
      destruct (Z.ltb_spec (999999 - 28 + 1) (ndigits c + e + 0 - 28)); [lia|].
      rewrite Z.max_l by lia.
      destruct (Z.ltb_spec 0 (ndigits c + e + 0 - 28)) as [Hr|Hr].
      * assert (Hrw : round_half_even (c * pow10 e) (ndigits c + e + 0 - 28 - 0)
                      = (c * pow10 (28 - ndigits c))%N).
        { rewrite <- (round_half_even_exact c (28 - ndigits c)
                        (ndigits c + e - 28)) by lia.
          f_equal; [f_equal; f_equal; lia | lia]. }
        rewrite Hrw.
        rewrite ndigits_mul_pow10 by lia.
        destruct (Z.ltb_spec 28 (ndigits c + (28 - ndigits c))); [lia|].
        destruct (Z.ltb_spec (999999 - 28 + 1) (ndigits c + e + 0 - 28)); [lia|].
        eexists; split; [reflexivity|]. cbn [same_value].
        rewrite Z.min_r by lia.
        replace (e - (ndigits c + e + 0 - 28)) with (28 - ndigits c) by lia.
        rewrite Z.sub_diag, pow10_0, N.mul_1_r. reflexivity.
      * eexists; split; [reflexivity|]. cbn [same_value].
        rewrite Z.min_r by lia. rewrite Z.sub_0_r, Z.sub_diag, pow10_0, N.mul_1_r.
        reflexivity.
  - intros _. eexists; split; [reflexivity|done].
  - intros [-> Hp]. unfold add, check_nans. cbn.
    rewrite N.mod_small by exact Hp. eexists; split; [reflexivity|done].
Qed.

Lemma fix_finite_result s c e d : fix_finite s c e = Ok d -> in_context d.
Proof.
  unfold fix_finite. destruct (N.eqb_spec c 0%N) as [->|Hc].
  - intros H; injection H as <-. cbn [in_context]. rewrite ndigits_zero.
    unfold Etiny, Emax, Emin, prec. lia.
  - destruct (ndigits_spec c ltac:(lia)) as (H1 & Hlo & Hhi).
    unfold Etop, Etiny, Emax, Emin, prec.
    destruct (Z.ltb_spec (999999 - 28 + 1) (ndigits c + e - 28)); [discriminate|].
    set (exp_min := Z.max (ndigits c + e - 28) (-999999 - 28 + 1)).
    destruct (Z.ltb_spec e exp_min) as [Hr|Hr].
    + set (c1 := round_half_even c (exp_min - e)).
      assert (Hc1 : Z.of_N c1 <= 10 ^ 28).
      { pose proof (round_half_even_le c (exp_min - e)) as Hle.
        pose proof (div_pow10_lt c (exp_min - e) (ndigits c)
                      ltac:(lia) ltac:(lia) Hhi) as Hd.
        assert (10 ^ Z.max 0 (ndigits c - (exp_min - e)) <= 10 ^ 28)
          by (apply Z.pow_le_mono_r; lia).
        fold c1 in Hle. lia. }
      destruct (Z.ltb_spec 28 (ndigits c1)) as [Hbig|Hsmall].
      * destruct (Z.ltb_spec (999999 - 28 + 1) (exp_min + 1)); [discriminate|].
        intros H'; injection H' as <-. cbn [in_context].
        assert (Hq : ndigits (c1 / 10) <= 28).
        { apply ndigits_le; [lia|]. rewrite N2Z.inj_div.
          change (Z.of_N 10) with 10.
          apply Z.div_lt_upper_bound; [lia|].
          change (10 * 10 ^ 28) with (10 ^ 29).
          assert (10 ^ 28 < 10 ^ 29) by (apply Z.pow_lt_mono_r; lia). lia. }
        unfold Etiny, Emax, Emin, prec. lia.
      * destruct (Z.ltb_spec (999999 - 28 + 1) exp_min); [discriminate|].
        intros H'; injection H' as <-. cbn [in_context].
        unfold Etiny, Emax, Emin, prec. lia.
    + intros H'; injection H' as <-. cbn [in_context].
      unfold Etiny, Emax, Emin, prec. lia.
Qed.

Lemma fix_dec_result d d' : is_snan d = false -> fix_dec d = Ok d' -> in_context d'.
Proof.
  destruct d as [s c e|s|s g p]; cbn [fix_dec is_snan].
  - intros _. apply fix_finite_result.
  - intros _ H; injection H as <-. done.
  - intros -> H; injection H as <-. cbn [in_context]. split; [done|].
    apply N.mod_lt. pose proof (pow10_pos prec). lia.
Qed.

Lemma add_result a b d : add a b = Ok d -> in_context d.
Proof.
  unfold add, check_nans.
  destruct (is_snan a) eqn:Ha; [discriminate|].
  destruct (is_snan b) eqn:Hb; [discriminate|]. cbn [orb].
  destruct (is_nan a) eqn:Hna; [by apply fix_dec_result|].
  destruct (is_nan b) eqn:Hnb; [by apply fix_dec_result|].
  destruct a as [sa ca ea|sa|], b as [sb cb eb|sb|]; try discriminate.
  - destruct ((ca =? 0)%N && (cb =? 0)%N); [apply fix_finite_result|].
    destruct (_ =? 0); apply fix_finite_result.
  - intros H; injection H as <-. done.
  - intros H; injection H as <-. done.
  - destruct (Bool.eqb sa sb); [|discriminate]. intros H; injection H as <-. done.
Qed.

Lemma zero_in_context : in_context zero.
Proof. cbn. rewrite ndigits_zero. unfold Etiny, Emax, Emin, prec. lia. Qed.

Lemma add_zero_series n : forall sums,
  length sums = n -> Forall in_context sums ->
  exists sums', add_series n (replicate n zero) sums = Ok sums' /\
                Forall2 same_value sums sums'.
Proof.
  intros sums Hlen Hctx. unfold add_series.
  assert (Hgen : forall k a (cur : list Decimal),
            (a + k = n)%nat -> length cur = n ->
            Forall2 same_value sums cur ->
            (forall p, (a <= p)%nat -> cur !! p = sums !! p) ->
            exists sums', fold_result (add_at (replicate n zero)) (seq a k) cur
                          = Ok sums' /\ Forall2 same_value sums sums').
  { induction k as [|k IH]; intros a cur Hak Hl Hsv Htail.
    - exists cur. by split.
    - cbn [seq fold_result].
      destruct (lookup_lt_is_Some_2 cur a ltac:(lia)) as [s Hs].
      assert (Hs' : sums !! a = Some s) by (rewrite <- Htail by lia; done).
      pose proof (proj1 (Forall_lookup _ _) Hctx a s Hs') as Hsc.
      destruct (add_zero_same s Hsc) as (t & Ht & Hst).
      assert (Hstep : add_at (replicate n zero) cur a = Ok (<[a := t]> cur)).
      { unfold add_at, getitem. rewrite Hs.
        rewrite lookup_replicate_2 by lia. cbn [mbind result_bind].
        rewrite Ht. reflexivity. }
      rewrite Hstep. cbn [mbind result_bind].
      apply IH.
      + lia.
      + by rewrite length_insert.
      + apply Forall2_same_length_lookup. split.
        * rewrite length_insert. congruence.
        * intros i x y Hx Hy. destruct (decide (i = a)) as [->|Hne].
          -- rewrite list_lookup_insert_eq in Hy by lia. congruence.
          -- rewrite list_lookup_insert_ne in Hy by done.
             eapply Forall2_lookup_lr; eauto.
      + intros p Hp. rewrite list_lookup_insert_ne by lia. apply Htail. lia. }
  apply (Hgen n 0%nat sums); try done.
  apply Forall2_same_length_lookup. split; [done|].
  intros i x y Hx Hy. rewrite Hx in Hy. injection Hy as <-. apply same_value_refl.
Qed.

(** ** Missing accounts and CALC rows *)

(** C8. For an account row whose id is not in the account registry,
    [calculate_account_values] returns, without raising, all-zero raw and
    final series and valid = false. The row contributes nothing to a SUM:
    adding its final series to the running totals of a SUM succeeds and
    leaves every total the same number (totals are values of the decimal
    context: the initial zero and the results of additions). *)
Theorem missing_account_is_zero_row (frames : nat) (elem : AccountElement)
    (period_ranges : list (date * date)) (accounts : list (string * Account))
    (config : ReportConfig)
    (transaction_cache : gmap string (gmap nat Decimal))
    (filtered_caches : gmap CacheKey (gmap nat Decimal)) :
  lookup_account (guid elem) accounts = None ->
  let n := length period_ranges in
  calculate_account_values frames elem period_ranges accounts config
                           transaction_cache filtered_caches
    = Ok (mkValues (replicate n zero) None None (replicate n zero) false) /\
  (forall sum_values,
     length sum_values = n -> Forall in_context sum_values ->
     exists sum_values',
       add_series n (replicate n zero) sum_values = Ok sum_values' /\
       Forall2 same_value sum_values sum_values') /\
  in_context zero /\
  (forall a b total, add a b = Ok total -> in_context total).
Proof.
  intros Hmiss n. split; [|split; [|split]].
  - unfold calculate_account_values. rewrite Hmiss. reflexivity.
  - intros sum_values Hl Hc. by apply add_zero_series.
  - apply zero_in_context.
  - apply add_result.
Qed.

Lemma map_result_Ok_lookup {A B} (f : A -> result B) l rs :
  map_result f l = Ok rs ->
  length rs = length l /\
  forall i x, l !! i = Some x -> exists y, f x = Ok y /\ rs !! i = Some y.
Proof.
  intros H. apply map_result_Forall2 in H. split.
  - symmetry. by eapply Forall2_length.
  - intros i x Hx. destruct (Forall2_lookup_l _ _ _ _ _ H Hx) as (y & Hy & Hf).
    by exists y.
Qed.

Lemma map_result_total {A B} (f : A -> result B) l :
  (forall x, x ∈ l -> exists y, f x = Ok y) -> exists rs, map_result f l = Ok rs.
Proof.
  induction l as [|x l IH]; intros H; [by eexists|].
  destruct (H x ltac:(left)) as [y Hy].
  destruct IH as [rs Hrs]; [intros z Hz; apply H; by right|].
  exists (y :: rs). cbn [map_result]. rewrite Hy. cbn [mbind result_bind].
  rewrite Hrs. reflexivity.
Qed.

Lemma map_result_Raise {A B} (f : A -> result B) l e :
  map_result f l = Raise e -> exists x, x ∈ l /\ f x = Raise e.
Proof.
  induction l as [|x l IH]; cbn [map_result]; [discriminate|].
  destruct (f x) as [y|e'] eqn:Hx; cbn [mbind result_bind].
  - destruct (map_result f l) as [rs|e'']; cbn [mbind result_bind]; [discriminate|].
    intros H; injection H as ->. destruct (IH eq_refl) as (z & Hz & Hfz).
    exists z. split; [by right|done].
  - intros H; injection H as ->. exists x. split; [by left|done].
Qed.

Section CalcProperties.
Variable float_repr : Decimal -> string.
Variable World : Type.
Variable eval_str : ReportElement -> nat -> string -> calc_scope World ->
                    eval_outcome * calc_scope World.

Lemma evaluate_formula_cases elem p formula_str scope :
  match fst (eval_str elem p formula_str scope) with
  | Escaped name =>
      evaluate_formula eval_str elem p formula_str scope
        = Raise (Uncaught name)
  | Interfered =>
      evaluate_formula eval_str elem p formula_str scope = Raise OutsideModel
  | outcome =>
      evaluate_formula eval_str elem p formula_str scope
        = Ok (append_value (outcome_value outcome)
                           (snd (eval_str elem p formula_str scope)))
  end.
Proof.
  unfold evaluate_formula, outcome_value.
  destruct (eval_str elem p formula_str scope) as [[text| |name|] scope'];
    cbn [fst snd]; try reflexivity.
  destruct (Decimal_of_str text) as [d|]; cbn [mbind result_bind];
    [|reflexivity].
  destruct (quantize d cent); reflexivity.
Qed.

Section Loop.
Variable elem : ReportElement.
Variable formula : string.
Variable elements : list ReportElement.
Variable stored_values : gmap nat stored_value.
Variable formula_strs : nat -> string.

(** The loop over the periods from a state in which the dictionary is the
    one the function was called with: when no evaluation changes the
    scope, each period appends its value, and the loop ends early only at
    an evaluation that ends outside Exception. *)
Lemma calc_loop_pure k : forall a scope,
  scope_stored scope = stored_values ->
  (forall p, (a <= p < a + k)%nat ->
     substitute_refs float_repr formula elements stored_values p
       = Ok (formula_strs p) /\
     keeps_scope eval_str elem p (percent_rewrite (formula_strs p))) ->
  match fold_result (calc_period float_repr eval_str elem formula elements)
                    (seq a k) scope with
  | Ok scope_end =>
      scope_stored scope_end = stored_values /\
      exists values,
        scope_values scope_end = (scope_values scope ++ values)%list /\
        length values = k /\
        forall i, (i < k)%nat ->
          exists scope_i,
            scope_values scope_i = (scope_values scope ++ take i values)%list /\
            scope_stored scope_i = stored_values /\
            values !! i =
              Some (outcome_value
                      (fst (eval_str elem (a + i)
                              (percent_rewrite (formula_strs (a + i)))
                              scope_i)))
  | Raise ex =>
      exists p scope_p name,
        (a <= p < a + k)%nat /\ scope_stored scope_p = stored_values /\
        fst (eval_str elem p (percent_rewrite (formula_strs p)) scope_p)
          = Escaped name /\
        ex = Uncaught name
  end.
Proof.
  induction k as [|k IH]; intros a scope Hst Hp; cbn [seq fold_result].
  - split; [done|]. exists []. rewrite app_nil_r. repeat split. lia.
  - destruct (Hp a ltac:(lia)) as [Hsub Hkeep].
    assert (Hstep : calc_period float_repr eval_str elem formula elements
                      scope a
                    = evaluate_formula eval_str elem a
                        (percent_rewrite (formula_strs a)) scope)
      by (unfold calc_period; rewrite Hst, Hsub; reflexivity).
    rewrite Hstep.
    pose proof (evaluate_formula_cases elem a
                  (percent_rewrite (formula_strs a)) scope) as Hcase.
    destruct (Hkeep scope) as (Hni & Hv & Hs).
    set (outcome := fst (eval_str elem a (percent_rewrite (formula_strs a))
                           scope)) in *.
    assert (Hesc : forall name, outcome = Escaped name ->
              exists p scope_p name0,
                (a <= p < a + S k)%nat /\ scope_stored scope_p = stored_values /\
                fst (eval_str elem p (percent_rewrite (formula_strs p)) scope_p)
                  = Escaped name0 /\ Uncaught name = Uncaught name0).
    { intros name E. exists a, scope, name. repeat split; [lia|lia|done|done]. }
    assert (Hnext : forall value,
              evaluate_formula eval_str elem a
                  (percent_rewrite (formula_strs a)) scope
                = Ok (append_value value
                        (snd (eval_str elem a
                                (percent_rewrite (formula_strs a)) scope))) ->
              value = outcome_value outcome ->
              match (scope' ← evaluate_formula eval_str elem a
                                 (percent_rewrite (formula_strs a)) scope;
                     fold_result
                       (calc_period float_repr eval_str elem formula elements)
                       (seq (S a) k) scope') with
              | Ok scope_end =>
                  scope_stored scope_end = stored_values /\
                  exists values,
                    scope_values scope_end
                      = (scope_values scope ++ values)%list /\
                    length values = S k /\
                    forall i, (i < S k)%nat ->
                      exists scope_i,
                        scope_values scope_i
                          = (scope_values scope ++ take i values)%list /\
                        scope_stored scope_i = stored_values /\
                        values !! i =
                          Some (outcome_value
                                  (fst (eval_str elem (a + i)
                                          (percent_rewrite
                                             (formula_strs (a + i)))
                                          scope_i)))
              | Raise ex =>
                  exists p scope_p name,
                    (a <= p < a + S k)%nat /\
                    scope_stored scope_p = stored_values /\
                    fst (eval_str elem p (percent_rewrite (formula_strs p))
                           scope_p) = Escaped name /\
                    ex = Uncaught name
              end).
    { intros value -> ->. cbn [mbind result_bind].
      set (scope1 := append_value (outcome_value outcome) _).
      assert (Hst1 : scope_stored scope1 = stored_values)
        by (unfold scope1, append_value; cbn [scope_stored]; congruence).
      assert (Hv1 : scope_values scope1
                    = (scope_values scope ++ [outcome_value outcome])%list)
        by (unfold scope1, append_value; cbn [scope_values]; congruence).
      specialize (IH (S a) scope1 Hst1 ltac:(intros p ?; apply Hp; lia)).
      destruct (fold_result _ (seq (S a) k) scope1) as [scope_end|ex].
      - destruct IH as (Hse & values & Hvals & Hlen & Hi).
        split; [done|]. exists (outcome_value outcome :: values).
        split; [by rewrite Hvals, Hv1, <- app_assoc|].
        split; [cbn [length]; lia|].
        intros [|i] Hlt.
        + exists scope. cbn [take lookup list_lookup].
          rewrite app_nil_r, Nat.add_0_r. done.
        + destruct (Hi i ltac:(lia)) as (scope_i & H1 & H2 & H3).
          exists scope_i. cbn [take].
          split; [by rewrite H1, Hv1, <- app_assoc|]. split; [done|].
          rewrite Nat.add_succ_r. exact H3.
      - destruct IH as (p & scope_p & name & Hr & H1 & H2 & H3).
        exists p, scope_p, name. repeat split; [lia|lia|done|done|done]. }
    destruct outcome as [text| |name|] eqn:Ho.
    + exact (Hnext _ Hcase eq_refl).
    + exact (Hnext _ Hcase eq_refl).
    + rewrite Hcase. cbn [mbind result_bind]. by apply Hesc.
    + done.
Qed.

End Loop.

(** C6 (as amended). For a CALC row whose referenced values can be read in
    every period and whose formula strings are evaluated without a change
    of [calc_values] and [stored_values]: when no evaluation ends with an
    exception outside the class Exception, [calculate_calc_values] returns
    one value per period, and the value of a period is fixed by the way the
    evaluation of the formula string of that period ends, zero when it
    raises (or when the printed value cannot be converted or rounded), the
    rounded value otherwise; a failure in a period changes no other period.
    The function raises, whatever the formula does, only where reading a
    referenced value raises or where an evaluation ends with an exception
    outside Exception (SystemExit), which then aborts the calculation (the
    model stops at an evaluation that interferes with other objects). The
    formula string of a period is the formula with each reference replaced
    by the printed float of the referenced value of that period and each
    percentage by its hundredth part in parentheses: so for a formula that
    doubles and quarters the row 1, and for one with the percentages 12.5
    and 3. *)
Theorem calc_failure_zeroes_one_period (elem : ReportElement)
    (formula : string) (stored_values : gmap nat stored_value)
    (elements : list ReportElement) (num_periods : nat) (world : World)
    (formula_strs : nat -> string) :
  ((forall p, (p < num_periods)%nat ->
      substitute_refs float_repr formula elements stored_values p
        = Ok (formula_strs p) /\
      keeps_scope eval_str elem p (percent_rewrite (formula_strs p)) /\
      stays_inside eval_str elem p (percent_rewrite (formula_strs p))) ->
   exists scope_end,
     calculate_calc_values float_repr eval_str elem formula stored_values
                           elements num_periods world = Ok scope_end /\
     scope_stored scope_end = stored_values /\
     length (scope_values scope_end) = num_periods /\
     forall p, (p < num_periods)%nat ->
       exists scope_p,
         scope_values scope_p = take p (scope_values scope_end) /\
         scope_stored scope_p = stored_values /\
         scope_values scope_end !! p =
           Some (outcome_value
                   (fst (eval_str elem p (percent_rewrite (formula_strs p))
                           scope_p))) /\
         (fst (eval_str elem p (percent_rewrite (formula_strs p)) scope_p)
            = Failed ->
          scope_values scope_end !! p = Some zero)) /\
  (forall ex,
     calculate_calc_values float_repr eval_str elem formula stored_values
                           elements num_periods world = Raise ex ->
     exists p scope_p,
       (p < num_periods)%nat /\
       (substitute_refs float_repr formula elements (scope_stored scope_p) p
          = Raise ex \/
        exists formula_str,
          substitute_refs float_repr formula elements (scope_stored scope_p) p
            = Ok formula_str /\
          ((exists name,
              fst (eval_str elem p (percent_rewrite formula_str) scope_p)
                = Escaped name /\
              ex = Uncaught name) \/
           (fst (eval_str elem p (percent_rewrite formula_str) scope_p)
              = Interfered /\
            ex = OutsideModel)))) /\
  (forall value values,
     is_snan value = false ->
     substitute_refs float_repr "2 * [1] / 4"
         [mkElement 1 (Some 1%N) (PlaceholderElement "p" (value :: values))]
         ∅ 0
       = Ok ("2 * " ++ float_repr value ++ " / 4")) /\
  percent_rewrite "2.5 * 12.5% + 3%" = "2.5 * (12.5/100) + (3/100)".
Proof.
  unfold calculate_calc_values. split; [|split; [|split]].
  - intros H.
    pose proof (calc_loop_pure elem formula elements stored_values formula_strs
                  num_periods 0 (mkScope world [] stored_values) eq_refl) as L.
    cbn [scope_values app] in L.
    specialize (L ltac:(intros p Hp; destruct (H p ltac:(lia)) as (?&?&?); done)).
    destruct (fold_result _ (seq 0 num_periods) _) as [scope_end|ex].
    + destruct L as (Hst & values & Hv & Hl & Hi). exists scope_end.
      split; [done|]. split; [done|]. split; [by rewrite Hv|].
      intros p Hp. destruct (Hi p Hp) as (scope_p & H1 & H2 & H3).
      cbn [Nat.add] in H3. exists scope_p. rewrite Hv.
      split; [done|]. split; [done|]. split; [done|].
      intros E. by rewrite H3, E.
    + destruct L as (p & scope_p & name & Hp & _ & Hesc & _).
      destruct (H p ltac:(lia)) as (_ & _ & Hin). by destruct (Hin scope_p name).
  - intros ex.
    assert (G : forall k a scope,
              fold_result (calc_period float_repr eval_str elem formula elements)
                          (seq a k) scope = Raise ex ->
              exists p scope_p,
                (a <= p < a + k)%nat /\
                (substitute_refs float_repr formula elements
                                 (scope_stored scope_p) p = Raise ex \/
                 exists formula_str,
                   substitute_refs float_repr formula elements
                                   (scope_stored scope_p) p = Ok formula_str /\
                   ((exists name,
                       fst (eval_str elem p (percent_rewrite formula_str)
                              scope_p) = Escaped name /\
                       ex = Uncaught name) \/
                    (fst (eval_str elem p (percent_rewrite formula_str)
                            scope_p) = Interfered /\
                     ex = OutsideModel)))).
    { induction k as [|k IH]; intros a scope; cbn [seq fold_result];
        [discriminate|].
      destruct (calc_period float_repr eval_str elem formula elements scope a)
        as [scope'|ex'] eqn:Hstep; cbn [mbind result_bind].
      - intros Hr. destruct (IH _ _ Hr) as (p & scope_p & Hp & Hor).
        exists p, scope_p. split; [lia|done].
      - intros [= ->]. exists a, scope. split; [lia|].
        unfold calc_period in Hstep.
        destruct (substitute_refs float_repr formula elements
                    (scope_stored scope) a) as [formula_str|ex''];
          cbn [mbind result_bind] in Hstep; [|left; congruence].
        right. exists formula_str. split; [done|].
        pose proof (evaluate_formula_cases elem a (percent_rewrite formula_str)
                      scope) as Hc.
        destruct (fst (eval_str elem a (percent_rewrite formula_str) scope))
          as [text| |name|]; [congruence|congruence| |].
        + left. exists name. split; [done|congruence].
        + right. split; [done|congruence]. }
    intros Hr. destruct (G num_periods 0%nat _ Hr) as (p & sp & Hp & Hor).
    exists p, sp. split; [|done]. lia.
  - intros value values Hvalue. unfold substitute_refs.
    replace (find_refs "2 * [1] / 4") with [1%N] by (vm_compute; reflexivity).
    cbn [fold_result]. cbn. unfold str_float. rewrite Hvalue. reflexivity.
  - vm_compute. reflexivity.
Qed.

End CalcProperties.

(** ** The single pass of the filtered cache builder *)

Section CacheProperties.
Variable re_search : string -> string -> result bool.


Lemma add_target_splits_key key idx splits : forall (cs : gmap CacheKey (gmap nat Decimal)) totals,
  cs !! key = Some totals ->
  add_target_splits key idx splits cs =
    (totals' ← splits_totals key idx splits totals; Ok (<[key := totals']> cs)).
Proof.
  induction splits as [|split rest IH]; intros cs totals Hk;
    cbn [add_target_splits splits_totals].
  - cbn [mbind result_bind]. by rewrite insert_id.
  - destruct (split_account split) as [acct|]; [|by apply IH].
    destruct (negb (acct =? account_guid key)%string); [by apply IH|].
    destruct (split_value split) as [text|]; [|by apply IH].
    destruct (parse_gnucash_value text) as [value|]; [|reflexivity].
    cbn [mbind result_bind]. unfold add_to_cache. rewrite Hk.
    destruct (add_to_period totals idx value) as [totals1|]; [|reflexivity].
    cbn [mbind result_bind].
    rewrite (IH _ totals1) by apply lookup_insert_eq.
    destruct (splits_totals key idx rest totals1); [|reflexivity].
    cbn [mbind result_bind]. by rewrite insert_insert_eq.
Qed.

Lemma apply_key_key trn idx key (cs : gmap CacheKey (gmap nat Decimal)) totals :
  cs !! key = Some totals ->
  apply_key re_search trn idx key cs =
    (totals' ← key_totals re_search trn idx key totals;
     Ok (<[key := totals']> cs)).
Proof.
  intros Hk. unfold apply_key, key_totals.
  destruct (_ && _).
  - cbn [mbind result_bind]. by rewrite insert_id.
  - destruct (if _ : bool then _ else _) as [[|]|]; cbn [mbind result_bind].
    + by apply add_target_splits_key.
    + by rewrite insert_id.
    + reflexivity.
Qed.

Lemma apply_keys_Ok trn idx keys : forall (cs cs' : gmap CacheKey (gmap nat Decimal)),
  NoDup keys ->
  (forall k, k ∈ keys -> is_Some (cs !! k)) ->
  apply_keys re_search trn idx keys cs = Ok cs' ->
  (forall k, k ∈ keys ->
     exists t t', cs !! k = Some t /\
                  key_totals re_search trn idx k t = Ok t' /\
                  cs' !! k = Some t') /\
  (forall k, k ∉ keys -> cs' !! k = cs !! k).
Proof.
  induction keys as [|key keys IH]; intros cs cs' Hnd Hdom H.
  - cbn in H. injection H as <-. split; [intros k Hk; by apply elem_of_nil in Hk|done].
  - cbn [apply_keys] in H. apply NoDup_cons in Hnd as [Hnotin Hnd].
    destruct (Hdom key ltac:(left)) as [t Ht].
    rewrite (apply_key_key _ _ _ _ t Ht) in H.
    destruct (key_totals re_search trn idx key t) as [t'|] eqn:Hkt; [|discriminate].
    cbn [mbind result_bind] in H.
    apply IH in H as [Hin Hout]; [|done|].
    2:{ intros k Hk. destruct (decide (k = key)) as [->|Hne]; [done|].
        rewrite lookup_insert_ne by done. apply Hdom. by right. }
    split.
    + intros k Hk. apply elem_of_cons in Hk as [->|Hk].
      * exists t, t'. repeat split; try done.
        rewrite Hout by done. apply lookup_insert_eq.
      * destruct (Hin k Hk) as (u & u' & Hu & Hku & Hu').
        assert (k <> key) by (intros ->; done).
        rewrite lookup_insert_ne in Hu by done. by exists u, u'.
    + intros k Hk. apply not_elem_of_cons in Hk as [Hne Hk].
      rewrite Hout by done. by apply lookup_insert_ne.
Qed.

Lemma apply_keys_total trn idx keys : forall (cs : gmap CacheKey (gmap nat Decimal)),
  NoDup keys ->
  (forall k, k ∈ keys ->
     exists t t', cs !! k = Some t /\ key_totals re_search trn idx k t = Ok t') ->
  exists cs', apply_keys re_search trn idx keys cs = Ok cs'.
Proof.
  induction keys as [|key keys IH]; intros cs Hnd H; [by eexists|].
  cbn [apply_keys]. apply NoDup_cons in Hnd as [Hnotin Hnd].
  destruct (H key ltac:(left)) as (t & t' & Ht & Hkt).
  rewrite (apply_key_key _ _ _ _ t Ht), Hkt. cbn [mbind result_bind].
  apply IH; [done|]. intros k Hk. destruct (H k ltac:(by right)) as (u & u' & Hu & Hku).
  exists u, u'. split; [|done]. rewrite lookup_insert_ne; [done|]. by intros ->.
Qed.

Lemma process_transaction_Ok pr keys trn (cs cs' : gmap CacheKey (gmap nat Decimal)) :
  NoDup keys ->
  (forall k, k ∈ keys -> is_Some (cs !! k)) ->
  process_transaction re_search pr keys trn cs = Ok cs' ->
  (forall k, k ∈ keys ->
     exists t t', cs !! k = Some t /\
                  transaction_totals re_search pr k trn t = Ok t' /\
                  cs' !! k = Some t') /\
  (forall k, k ∉ keys -> cs' !! k = cs !! k).
Proof.
  intros Hnd Hdom. unfold process_transaction, transaction_totals.
  assert (Hsame : Ok cs = Ok cs' ->
    (forall k, k ∈ keys ->
       exists t t', cs !! k = Some t /\ Ok t = Ok t' /\ cs' !! k = Some t') /\
    (forall k, k ∉ keys -> cs' !! k = cs !! k)).
  { intros H; injection H as <-. split; [|done].
    intros k Hk. destruct (Hdom k Hk) as [t Ht]. by exists t, t. }
  destruct (date_posted trn) as [text|]; [|exact Hsame].
  destruct (parse_gnucash_date text) as [d|]; [|discriminate].
  cbn [mbind result_bind].
  destruct (find_period 0 pr d) as [idx|]; [|exact Hsame].
  by apply apply_keys_Ok.
Qed.

Lemma process_transaction_total pr keys trn (cs : gmap CacheKey (gmap nat Decimal)) :
  NoDup keys -> keys <> [] ->
  (forall k, k ∈ keys ->
     exists t t', cs !! k = Some t /\
                  transaction_totals re_search pr k trn t = Ok t') ->
  exists cs', process_transaction re_search pr keys trn cs = Ok cs'.
Proof.
  intros Hnd Hne H. unfold process_transaction.
  destruct keys as [|k0 keys']; [done|].
  destruct (H k0 ltac:(left)) as (t0 & t0' & _ & H0).
  unfold transaction_totals in H, H0.
  destruct (date_posted trn) as [text|]; [|by eexists].
  destruct (parse_gnucash_date text) as [d|]; [|discriminate].
  cbn [mbind result_bind] in *.
  destruct (find_period 0 pr d) as [idx|]; [|by eexists].
  by apply apply_keys_total.
Qed.

Lemma loop_Ok pr keys trns : forall (cs cs' : gmap CacheKey (gmap nat Decimal)) vis vis',
  NoDup keys ->
  (forall k, k ∈ keys -> is_Some (cs !! k)) ->
  transactions_loop re_search pr keys trns cs vis = (vis', Ok cs') ->
  vis' = (vis ++ trns)%list /\
  (forall k, k ∈ keys ->
     exists t t', cs !! k = Some t /\ key_run re_search pr k trns t = Ok t' /\
                  cs' !! k = Some t') /\
  (forall k, k ∉ keys -> cs' !! k = cs !! k).
Proof.
  induction trns as [|trn trns IH]; intros cs cs' vis vis' Hnd Hdom H.
  - cbn in H. injection H as <- <-. rewrite app_nil_r. split; [done|].
    split; [|done]. intros k Hk. destruct (Hdom k Hk) as [t Ht]. by exists t, t.
  - cbn [transactions_loop] in H.
    destruct (process_transaction re_search pr keys trn cs) as [cs1|] eqn:H1;
      [|discriminate].
    apply process_transaction_Ok in H1 as [Hin1 Hout1]; [|done..].
    apply IH in H as (Hv & Hin & Hout); [|done|].
    2:{ intros k Hk. destruct (Hin1 k Hk) as (t & t' & _ & _ & Ht'). by eexists. }
    split; [by rewrite Hv, <- app_assoc|]. split.
    + intros k Hk. destruct (Hin1 k Hk) as (t & t1 & Ht & Htt & Ht1).
      destruct (Hin k Hk) as (u & u' & Hu & Hrun & Hu').
      rewrite Ht1 in Hu. injection Hu as <-.
      exists t, u'. split; [done|]. split; [|done].
      unfold key_run in *. cbn [fold_result]. rewrite Htt.
      cbn [mbind result_bind]. done.
    + intros k Hk. rewrite Hout, Hout1 by done. done.
Qed.

Lemma loop_total pr keys trns : forall (cs : gmap CacheKey (gmap nat Decimal)) vis,
  NoDup keys -> keys <> [] ->
  (forall k, k ∈ keys ->
     exists t t', cs !! k = Some t /\ key_run re_search pr k trns t = Ok t') ->
  exists cs', snd (transactions_loop re_search pr keys trns cs vis) = Ok cs'.
Proof.
  induction trns as [|trn trns IH]; intros cs vis Hnd Hne H; [by eexists|].
  cbn [transactions_loop].
  assert (Hstep : forall k, k ∈ keys ->
            exists t t1, cs !! k = Some t /\
              transaction_totals re_search pr k trn t = Ok t1 /\
              exists t', key_run re_search pr k trns t1 = Ok t').
  { intros k Hk. destruct (H k Hk) as (t & t' & Ht & Hrun).
    unfold key_run in Hrun. cbn [fold_result] in Hrun.
    destruct (transaction_totals re_search pr k trn t) as [t1|] eqn:H1;
      [|discriminate].
    cbn [mbind result_bind] in Hrun. exists t, t1. repeat split; try done.
    by exists t'. }
  destruct (process_transaction_total pr keys trn cs Hnd Hne) as [cs1 H1].
  { intros k Hk. destruct (Hstep k Hk) as (t & t1 & Ht & Ht1 & _). by exists t, t1. }
  rewrite H1.
  apply process_transaction_Ok in H1 as [Hin1 _]; [|done|].
  2:{ intros k Hk. destruct (Hstep k Hk) as (t & _ & Ht & _). by eexists. }
  apply IH; [done..|].
  intros k Hk. destruct (Hstep k Hk) as (t & t1 & Ht & Ht1 & t' & Hrun).
  destruct (Hin1 k Hk) as (u & u1 & Hu & Hu1 & Hcs1).
  rewrite Ht in Hu. injection Hu as <-. rewrite Ht1 in Hu1. injection Hu1 as <-.
  by exists t1, t'.
Qed.

Lemma loop_prefix pr keys trns : forall (cs : gmap CacheKey (gmap nat Decimal)) vis,
  exists n, fst (transactions_loop re_search pr keys trns cs vis)
            = (vis ++ take n trns)%list.
Proof.
  induction trns as [|trn trns IH]; intros cs vis.
  - exists 0%nat. cbn. by rewrite app_nil_r.
  - cbn [transactions_loop].
    destruct (process_transaction re_search pr keys trn cs) as [cs1|].
    + destruct (IH cs1 (vis ++ [trn])%list) as [n Hn]. exists (S n).
      rewrite Hn. cbn [take]. by rewrite <- app_assoc.
    + exists 1%nat. cbn. done.
Qed.

Lemma single_key_Ok pr key tree t :
  key_run re_search pr key tree ∅ = Ok t ->
  build_all_filtered_caches re_search tree pr {[key]} = Ok {[key := t]}.
Proof.
  intros Hrun. unfold build_all_filtered_caches, build_all_filtered_caches_traced.
  destruct (decide (({[key]} : gset CacheKey) = ∅)) as [E|_]; [set_solver|].
  rewrite elements_singleton, gset_to_gmap_singleton.
  assert (Hnd : NoDup [key]) by (apply NoDup_singleton).
  destruct (loop_total pr [key] tree {[key := ∅]} [] Hnd ltac:(done)) as [cs' Hcs'].
  { intros k Hk. apply list_elem_of_singleton in Hk as ->.
    exists ∅, t. split; [apply lookup_singleton_eq|done]. }
  rewrite Hcs'. f_equal.
  destruct (transactions_loop re_search pr [key] tree {[key := ∅]} [])
    as [vis' r] eqn:Hloop.
  cbn [snd] in Hcs'. subst r.
  apply loop_Ok in Hloop as (_ & Hin & Hout); [|done|].
  2:{ intros k Hk. apply list_elem_of_singleton in Hk as ->.
      rewrite lookup_singleton_eq. by eexists. }
  apply map_eq. intros k. destruct (decide (k = key)) as [->|Hne].
  - destruct (Hin key ltac:(left)) as (u & u' & Hu & Hrun' & Hu').
    rewrite lookup_singleton_eq in Hu. injection Hu as <-.
    rewrite Hrun in Hrun'. injection Hrun' as <-.
    by rewrite Hu', lookup_singleton_eq.
  - rewrite Hout by (by intros ?%list_elem_of_singleton).
    by rewrite !lookup_singleton_ne.
Qed.

Lemma single_key_run pr key tree :
  is_Ok (build_all_filtered_caches re_search tree pr {[key]}) = true ->
  exists t, key_run re_search pr key tree ∅ = Ok t.
Proof.
  unfold build_all_filtered_caches, build_all_filtered_caches_traced.
  destruct (decide (({[key]} : gset CacheKey) = ∅)) as [E|_]; [set_solver|].
  rewrite elements_singleton, gset_to_gmap_singleton.
  destruct (transactions_loop re_search pr [key] tree {[key := ∅]} [])
    as [vis' [cs'|e]] eqn:Hloop; cbn [snd is_Ok]; [|discriminate].
  intros _. apply loop_Ok in Hloop as (_ & Hin & _).
  - destruct (Hin key ltac:(left)) as (u & u' & Hu & Hrun & _).
    rewrite lookup_singleton_eq in Hu. injection Hu as <-. by exists u'.
  - apply NoDup_singleton.
  - intros k Hk. apply list_elem_of_singleton in Hk as ->.
    rewrite lookup_singleton_eq. by eexists.
Qed.

(** *** The totals of a key against the specification of the cache *)

Lemma sum_decimals_app vs1 : forall acc vs2,
  sum_decimals acc (vs1 ++ vs2)
  = (total ← sum_decimals acc vs1; sum_decimals total vs2).
Proof.
  induction vs1 as [|v vs1 IH]; intros acc vs2; [reflexivity|].
  cbn [app sum_decimals]. destruct (add acc v) as [acc'|];
    cbn [mbind result_bind]; [apply IH|reflexivity].
Qed.

Lemma accumulated_app before vs1 middle vs2 after :
  accumulated before vs1 middle -> accumulated middle vs2 after ->
  accumulated before (vs1 ++ vs2) after.
Proof.
  destruct vs1 as [|v1 vs1]; [by intros ->|].
  intros (t1 & H1 & ->). destruct vs2 as [|v2 vs2].
  - intros ->. rewrite app_nil_r. by exists t1.
  - intros (t2 & H2 & ->). exists t2. split; [|done].
    change ((v1 :: vs1) ++ v2 :: vs2)%list
      with ((v1 :: vs1) ++ (v2 :: vs2))%list.
    rewrite sum_decimals_app, H1. exact H2.
Qed.

Lemma find_period_first pr d : forall idx,
  find_period idx pr d
  = (fun i => (idx + i)%nat) <$>
      (fst <$> list_find (fun range => date_leb (fst range) d
                                       && date_leb d (snd range)) pr).
Proof.
  induction pr as [|[start end_] pr IH]; intros idx; [reflexivity|].
  cbn [find_period list_find].
  destruct (decide _) as [H|H]; cbn [fst snd] in H;
    destruct (date_leb start d && date_leb d end_) eqn:E; try done.
  - cbn. f_equal. lia.
  - rewrite IH.
    destruct (list_find _ pr) as [[i x]|]; cbn; [f_equal; lia|done].
Qed.

Lemma has_filter_split_spec filter l :
  has_filter_split filter l
  = existsb (fun split => bool_decide (split_account split = Some filter)) l.
Proof.
  unfold has_filter_split. induction l as [|split l IH]; [reflexivity|].
  cbn [existsb]. rewrite IH. f_equal.
  destruct (split_account split) as [acct|].
  - destruct (String.eqb_spec acct filter) as [->|Hne].
    + by rewrite bool_decide_eq_true_2.
    + rewrite bool_decide_eq_false_2; [done|congruence].
  - by rewrite bool_decide_eq_false_2.
Qed.

Lemma filter_test_spec key trn :
  truthy_str (key_filter_guid key)
  && negb (has_filter_split (default "" (key_filter_guid key)) (splits trn))
  = negb (filter_condition key trn).
Proof.
  unfold filter_condition.
  destruct (key_filter_guid key) as [[|c r]|]; cbn [truthy_str andb negb];
    [reflexivity| |reflexivity].
  cbn [default]. by rewrite has_filter_split_spec.
Qed.

Lemma none_match_spec trn patterns : forall b,
  none_match re_search patterns (search_text trn) = Ok b ->
  b = forallb (fun pattern => negb (pattern_found re_search pattern trn))
              patterns.
Proof.
  induction patterns as [|pattern rest IH]; intros b; cbn [none_match forallb];
    [by intros [= <-]|].
  unfold pattern_found at 1.
  destruct (re_search pattern (search_text trn)) as [[|]|];
    cbn [mbind result_bind negb andb]; [by intros [= <-]|apply IH|discriminate].
Qed.

Lemma all_match_spec trn patterns : forall b,
  all_match re_search patterns (search_text trn) = Ok b ->
  b = forallb (fun pattern => pattern_found re_search pattern trn) patterns.
Proof.
  induction patterns as [|pattern rest IH]; intros b; cbn [all_match forallb];
    [by intros [= <-]|].
  unfold pattern_found at 1.
  destruct (re_search pattern (search_text trn)) as [[|]|];
    cbn [mbind result_bind negb andb]; [apply IH|by intros [= <-]|discriminate].
Qed.

Lemma search_text_spec trn :
  (text_or_empty (trn_description trn) ++ " " ++ text_or_empty (trn_notes trn))
  = search_text trn.
Proof.
  unfold search_text.
  by destruct (trn_description trn) as [[?|]|], (trn_notes trn) as [[?|]|].
Qed.

Lemma regex_test_spec key trn b :
  (if truthy_tuple (key_regex_include key)
      || truthy_tuple (key_regex_exclude key)
   then transaction_matches_regex re_search trn
          (default [] (key_regex_include key))
          (default [] (key_regex_exclude key))
   else Ok true) = Ok b ->
  b = regex_condition re_search key trn.
Proof.
  unfold regex_condition.
  destruct (truthy_tuple (key_regex_include key)
            || truthy_tuple (key_regex_exclude key)) eqn:E.
  - unfold transaction_matches_regex. cbv zeta. rewrite search_text_spec.
    destruct (none_match re_search _ (search_text trn)) as [ok|] eqn:Hn;
      cbn [mbind result_bind]; [|discriminate].
    apply none_match_spec in Hn. rewrite <- Hn. destruct ok; cbn [andb].
    + apply all_match_spec.
    + by intros [= <-].
  - intros [= <-]. apply orb_false_elim in E as [Ei Ee].
    destruct (key_regex_include key) as [[|? ?]|],
             (key_regex_exclude key) as [[|? ?]|]; try discriminate;
      reflexivity.
Qed.

Lemma splits_totals_spec key idx l d desc notes : forall t0 t1,
  splits_totals key idx l t0 = Ok t1 ->
  (forall p, p <> idx -> t1 !! p = t0 !! p) /\
  accumulated (t0 !! idx) (target_values key (mkTransaction d desc notes l))
              (t1 !! idx).
Proof.
  unfold target_values. cbn [splits].
  induction l as [|split l IH]; intros t0 t1;
    cbn [splits_totals omap list_omap].
  - intros [= <-]. split; [done|]. reflexivity.
  - destruct (split_account split) as [acct|] eqn:Ha.
    2:{ rewrite bool_decide_eq_false_2 by done. apply IH. }
    destruct (String.eqb_spec acct (account_guid key)) as [->|Hne];
      cbn [negb].
    2:{ rewrite bool_decide_eq_false_2 by congruence. apply IH. }
    rewrite bool_decide_eq_true_2 by done.
    destruct (split_value split) as [text|]; [|apply IH].
    destruct (parse_gnucash_value text) as [value|];
      cbn [mbind result_bind]; [|discriminate].
    unfold add_to_period.
    destruct (add (default zero (t0 !! idx)) value) as [total|] eqn:Hadd;
      cbn [mbind result_bind]; [|discriminate].
    intros H. apply IH in H as [Hother Hacc]. split.
    + intros p Hp. rewrite Hother by done. by rewrite lookup_insert_ne.
    + rewrite lookup_insert_eq in Hacc.
      apply (accumulated_app _ [value] (Some total)); [|exact Hacc].
      exists total. split; [|done]. cbn [sum_decimals].
      rewrite Hadd. reflexivity.
Qed.

Lemma transaction_totals_spec pr key trn t0 t1 p :
  transaction_totals re_search pr key trn t0 = Ok t1 ->
  accumulated (t0 !! p)
    (if bool_decide (transaction_period pr trn = Some p)
        && filter_condition key trn && regex_condition re_search key trn
     then target_values key trn else [])
    (t1 !! p).
Proof.
  unfold transaction_totals, transaction_period.
  destruct (date_posted trn) as [text|] eqn:Hd;
    [|intros [= <-]; by rewrite bool_decide_eq_false_2].
  destruct (parse_gnucash_date text) as [trn_date|];
    cbn [mbind result_bind]; [|discriminate].
  rewrite find_period_first.
  destruct (fst <$> list_find _ pr) as [idx|]; cbn [fmap option_fmap option_map];
    [|intros [= <-]; by rewrite bool_decide_eq_false_2].
  unfold key_totals. rewrite filter_test_spec.
  destruct (filter_condition key trn); cbn [negb];
    [|intros [= <-]; by rewrite andb_false_r].
  destruct (if truthy_tuple _ || truthy_tuple _ then _ else _) as [pass|] eqn:Hr;
    cbn [mbind result_bind]; [|discriminate].
  apply regex_test_spec in Hr. rewrite <- Hr.
  destruct pass; [|intros [= <-]; by rewrite andb_false_r].
  rewrite !andb_true_r. intros H.
  destruct trn as [d desc notes l]. cbn [splits date_posted] in *.
  apply (splits_totals_spec key idx l d desc notes) in H as [Hother Hacc].
  destruct (decide (idx = p)) as [<-|Hne].
  - by rewrite bool_decide_eq_true_2.
  - rewrite bool_decide_eq_false_2 by congruence. cbn. by apply Hother.
Qed.

Lemma key_run_spec pr key tree : forall t0 t1 p,
  key_run re_search pr key tree t0 = Ok t1 ->
  accumulated (t0 !! p) (key_contributions re_search pr key p tree) (t1 !! p).
Proof.
  unfold key_run, key_contributions.
  induction tree as [|trn tree IH]; intros t0 t1 p; cbn [fold_result flat_map].
  - by intros [= <-].
  - destruct (transaction_totals re_search pr key trn t0) as [t|] eqn:Ht;
      cbn [mbind result_bind]; [|discriminate].
    intros H. eapply accumulated_app.
    + by apply transaction_totals_spec.
    + by apply IH.
Qed.

(** C9. For a non-empty set of required keys (the only call of the function
    passes a non-empty set), [build_all_filtered_caches] visits the
    transactions of the store in order, none twice; when it returns it has
    visited each transaction exactly once, in one pass for all keys, and
    the totals of every key are those of building the cache of that key
    alone in a pass of its own: for each period, the values of the splits
    of the target account in the transactions of that period that pass the
    filter and the patterns of the key, added in the order of the store. It
    returns whenever the build of each key alone returns. *)
Theorem build_all_filtered_caches_single_pass (tree : list Transaction)
    (period_ranges : list (date * date)) (required_caches : gset CacheKey) :
  required_caches <> ∅ ->
  let run := build_all_filtered_caches_traced re_search tree period_ranges
                                              required_caches in
  (exists n, fst run = take n tree) /\
  (forall filtered_caches, snd run = Ok filtered_caches ->
     fst run = tree /\
     dom filtered_caches = required_caches /\
     forall key, key ∈ required_caches ->
       exists totals,
         filtered_caches !! key = Some totals /\
         build_all_filtered_caches re_search tree period_ranges {[key]}
           = Ok {[key := totals]} /\
         forall period_idx,
           accumulated None
             (key_contributions re_search period_ranges key period_idx tree)
             (totals !! period_idx)) /\
  ((forall key, key ∈ required_caches ->
      is_Ok (build_all_filtered_caches re_search tree period_ranges {[key]})
        = true) ->
   is_Ok (snd run) = true).
Proof.
  intros Hne run. subst run. unfold build_all_filtered_caches_traced.
  destruct (decide (required_caches = ∅)) as [E|_]; [done|].
  set (keys := elements required_caches).
  set (init := gset_to_gmap (∅ : gmap nat Decimal) required_caches).
  assert (Hnd : NoDup keys) by apply NoDup_elements.
  assert (Hkeys : forall k, k ∈ keys <-> k ∈ required_caches)
    by (intros k; apply elem_of_elements).
  assert (Hne' : keys <> []).
  { intros E. apply elements_empty_inv in E. by apply leibniz_equiv in E. }
  assert (Hinit : forall k, k ∈ keys -> init !! k = Some ∅).
  { intros k Hk. apply lookup_gset_to_gmap_Some. split; [by apply Hkeys|done]. }
  split; [|split].
  - destruct (loop_prefix period_ranges keys tree init []) as [n Hn].
    exists n. exact Hn.
  - intros fc Hfc.
    destruct (transactions_loop re_search period_ranges keys tree init [])
      as [vis r] eqn:Hloop. cbn [fst snd] in *. subst r.
    apply loop_Ok in Hloop as (Hv & Hin & Hout); [|done|].
    2:{ intros k Hk. rewrite Hinit by done. by eexists. }
    split; [done|]. split.
    + apply set_eq. intros k. rewrite elem_of_dom. split.
      * intros [t Ht]. destruct (decide (k ∈ keys)) as [Hk|Hk]; [by apply Hkeys|].
        rewrite Hout in Ht by done. apply lookup_gset_to_gmap_Some in Ht as [? _].
        done.
      * intros Hk. apply Hkeys in Hk.
        destruct (Hin k Hk) as (t & t' & _ & _ & Ht'). by eexists.
    + intros key Hk. apply Hkeys in Hk.
      destruct (Hin key Hk) as (t & t' & Ht & Hrun & Ht').
      rewrite Hinit in Ht by done. injection Ht as <-.
      exists t'. split; [done|]. split; [by apply single_key_Ok|].
      intros p. apply (key_run_spec _ _ _ _ _ p) in Hrun.
      by rewrite lookup_empty in Hrun.
  - intros Hall.
    destruct (loop_total period_ranges keys tree init [] Hnd Hne') as [cs' Hcs'].
    + intros k Hk. destruct (single_key_run period_ranges k tree) as [t Ht].
      { apply Hall. by apply Hkeys. }
      exists ∅, t. split; [by apply Hinit|done].
    + by rewrite Hcs'.
Qed.

(** The guard at the top of the function: for the empty set of keys it
    returns the empty result before the store is read. *)
Lemma build_all_filtered_caches_no_keys (tree : list Transaction)
    (period_ranges : list (date * date)) :
  build_all_filtered_caches_traced re_search tree period_ranges ∅
    = ([], Ok ∅).
Proof.
  unfold build_all_filtered_caches_traced. by rewrite decide_True.
Qed.

End CacheProperties.

(** ** The operator of an ACCOUNT line *)

Lemma split_once_absent c s : contains c s = false -> split_once c s = None.
Proof.
  induction s as [|x s IH]; [done|]. cbn [contains split_once].
  destruct (Ascii.eqb x c); [discriminate|]. cbn [orb]. intros H. by rewrite IH.
Qed.

Lemma find_operation_priority l1 op l2 s before after :
  (forall op', op' ∈ l1 -> contains op' s = false) ->
  split_once op s = Some (before, after) ->
  find_operation (l1 ++ op :: l2) s =
    (operation ← parse_operation (String op after); Ok (strip before, operation)).
Proof.
  intros Habs Hsplit. induction l1 as [|o l1 IH]; cbn [app find_operation].
  - by rewrite Hsplit.
  - rewrite split_once_absent by (apply Habs; left).
    apply IH. intros op' Hop'. apply Habs. by right.
Qed.

Lemma is_operator_not_space c : is_operator c = true -> is_space c = false.
Proof.
  unfold is_operator. intros H.
  repeat (apply orb_true_iff in H as [H|H]);
    apply Ascii.eqb_eq in H; subst c; reflexivity.
Qed.

Lemma str_len_rstrip s : (str_len (rstrip s) <= str_len s)%nat.
Proof.
  induction s as [|c s IH]; [done|]. cbn [rstrip].
  unfold str_len in *.
  destruct (rstrip s) as [|c' r]; [destruct (is_space c)|]; cbn in *; lia.
Qed.

Lemma str_len_lstrip s : (str_len (lstrip s) <= str_len s)%nat.
Proof.
  induction s as [|c s IH]; [done|]. cbn [lstrip].
  unfold str_len in *. destruct (is_space c); cbn in *; lia.
Qed.

Lemma strip_fixed_lstrip s : strip s = s -> lstrip s = s.
Proof.
  intros H. destruct s as [|c s]; [done|]. cbn [lstrip].
  destruct (is_space c) eqn:Hc; [|done]. exfalso.
  pose proof (str_len_rstrip (lstrip (String c s))) as H1.
  unfold strip in H. rewrite H in H1. cbn [lstrip] in H1. rewrite Hc in H1.
  pose proof (str_len_lstrip s). unfold str_len in *. cbn in *. lia.
Qed.

Lemma strip_fixed_rstrip s : strip s = s -> rstrip s = s.
Proof.
  intros H. pose proof (strip_fixed_lstrip s H) as Hl.
  unfold strip in H. by rewrite Hl in H.
Qed.

Lemma append_String c a l : String c a ++ l = String c (a ++ l).
Proof. reflexivity. Qed.

Lemma append_nil l : "" ++ l = l.
Proof. reflexivity. Qed.

Lemma rstrip_app a l : l <> "" -> rstrip l = l -> rstrip (a ++ l) = a ++ l.
Proof.
  intros Hne Hl. induction a as [|c a IH]; [done|].
  rewrite append_String. cbn [rstrip]. rewrite IH.
  destruct (a ++ l) eqn:E; [|done].
  destruct a; [cbn in E; done|discriminate].
Qed.

Lemma span_space_app ws l :
  all_chars is_space ws = true -> lstrip l = l ->
  span is_space (ws ++ l) = (ws, l).
Proof.
  intros Hws Hl. induction ws as [|c ws IH];
    rewrite ?append_String, ?append_nil.
  - destruct l as [|c l]; [done|]. cbn [span]. cbn [lstrip] in Hl.
    destruct (is_space c) eqn:Hc; [|done]. exfalso.
    pose proof (str_len_lstrip l) as H. rewrite Hl in H.
    unfold str_len in H. cbn in H. lia.
  - cbn [all_chars] in Hws. apply andb_true_iff in Hws as [Hc Hws].
    cbn [span]. rewrite Hc, IH by done. done.
Qed.

Lemma span_no_newline l :
  contains newline l = false -> span not_newline l = (l, "").
Proof.
  induction l as [|c l IH]; [done|]. cbn [contains span]. unfold not_newline at 1.
  destruct (Ascii.eqb c newline); [discriminate|]. cbn [orb negb].
  intros H. by rewrite IH.
Qed.

Lemma parse_operation_literal op ws literal :
  is_operator op = true -> all_chars is_space ws = true ->
  literal <> "" -> strip literal = literal ->
  contains newline literal = false ->
  parse_operation (String op (ws ++ literal)) =
    (value ← parse_operand literal; Ok (Some (String op "", value))).
Proof.
  intros Hop Hws Hne Hstrip Hnl. unfold parse_operation.
  pose proof (strip_fixed_lstrip _ Hstrip) as Hl.
  pose proof (strip_fixed_rstrip _ Hstrip) as Hr.
  assert (Hs : strip (String op (ws ++ literal)) = String op (ws ++ literal)).
  { unfold strip. cbn [lstrip]. rewrite (is_operator_not_space _ Hop).
    change (String op (ws ++ literal)) with ((String op ws) ++ literal).
    by apply rstrip_app. }
  rewrite Hs, Hop, span_space_app, span_no_newline by done.
  destruct literal as [|c l]; [done|]. by rewrite Hstrip.
Qed.

Lemma unsnoc_app_char l c : unsnoc (l ++ String c "") = Some (l, c).
Proof.
  induction l as [|x l IH]; [done|]. rewrite append_String. cbn [unsnoc].
  by rewrite IH.
Qed.

(** C2 (as amended). The operator of an ACCOUNT line is chosen by priority,
    not by position: the first of [* / + - %], in this order, that occurs in
    the id-and-operation text splits the text at its first occurrence; the
    id is the stripped text before it. The operand is the text after the
    operator and its white space: it is parsed as a Decimal, a trailing
    percent sign meaning the literal divided by 100. *)
Theorem account_operator_by_priority (guid_and_op : string) :
  (forall l1 op l2 before after,
     operators = (l1 ++ op :: l2)%list ->
     (forall op', op' ∈ l1 -> contains op' guid_and_op = false) ->
     split_once op guid_and_op = Some (before, after) ->
     find_operation operators guid_and_op =
       (operation ← parse_operation (String op after);
        Ok (strip before, operation))) /\
  (forall op ws literal,
     is_operator op = true -> all_chars is_space ws = true ->
     literal <> "" -> strip literal = literal ->
     contains newline literal = false ->
     parse_operation (String op (ws ++ literal)) =
       (value ← parse_operand literal; Ok (Some (String op "", value)))) /\
  (forall literal,
     parse_operand (literal ++ "%") = (d ← Decimal_of_str literal; div d hundred)) /\
  (forall literal,
     (forall r, unsnoc literal <> Some (r, "%"%char)) ->
     parse_operand literal = Decimal_of_str literal).
Proof.
  split; [|split; [|split]].
  - intros l1 op l2 before after -> Habs Hsplit. by apply find_operation_priority.
  - apply parse_operation_literal.
  - intros literal. unfold parse_operand. by rewrite unsnoc_app_char.
  - intros literal H. unfold parse_operand.
    destruct (unsnoc literal) as [[r c]|] eqn:E; [|done].
    destruct (Ascii.eqb_spec c "%"); [|done]. subst c. by destruct (H r).
Qed.

(** C2, at the input [a-b * 90%]: the split is at the [*], the operand is
    90 divided by 100. *)
Lemma account_operator_by_priority_witness :
  find_operation operators "a-b * 90%" =
    (operation ← parse_operation "* 90%"; Ok ("a-b", operation)) /\
  parse_operation "* 90%" =
    (value ← parse_operand "90%"; Ok (Some ("*", value))) /\
  parse_operand "90%" = (d ← Decimal_of_str "90"; div d hundred).
Proof.
  split; [|split].
  - exact (proj1 (account_operator_by_priority "a-b * 90%")
             [] "*"%char ["/"; "+"; "-"; "%"]%char "a-b " " 90%"
             eq_refl
             (fun op' H => False_ind _ (proj1 (elem_of_nil op') H))
             eq_refl).
  - exact (proj1 (proj2 (account_operator_by_priority "")) "*"%char " " "90%"
             eq_refl eq_refl ltac:(discriminate) eq_refl eq_refl).
  - exact (proj1 (proj2 (proj2 (account_operator_by_priority ""))) "90").
Defined.

(** C2 as the specification states it fails: the split is not at the first
    operator character of the text when an operator of lower priority comes
    first. *)
Lemma account_operator_not_by_position :
  split_at_first_operator "a-b * 2" = Some ("a", "-"%char, "b * 2") /\
  find_operation operators "a-b * 2" = Ok ("a-b", Some ("*", DFin false 2 0)) /\
  ~ (forall guid_and_op before op after g operation,
       split_at_first_operator guid_and_op = Some (before, op, after) ->
       find_operation operators guid_and_op = Ok (g, operation) ->
       g = strip before /\
       exists value, operation = Some (String op "", value)).
Proof.
  split; [reflexivity|]. split; [reflexivity|]. intros H.
  destruct (H "a-b * 2" "a" "-"%char "b * 2" "a-b" (Some ("*", DFin false 2 0))
              eq_refl eq_refl) as [Hg _].
  discriminate.
Qed.

(** ** The markup parser and the reference table *)

Lemma record_reference_mono refs cr ln n v :
  (forall m, cr = Some m -> refs !! m = None) ->
  refs !! n = Some v -> record_reference refs cr ln !! n = Some v.
Proof.
  intros Hfresh Hn. unfold record_reference. destruct cr as [m|]; [|done].
  destruct (m =? 0)%N; [done|].
  rewrite lookup_insert_ne; [done|]. intros ->. rewrite (Hfresh n eq_refl) in Hn.
  discriminate.
Qed.

Lemma record_reference_new refs n ln :
  n <> 0%N -> record_reference refs (Some n) ln !! n = Some ln.
Proof.
  intros Hn. unfold record_reference. destruct (N.eqb_spec n 0); [done|].
  apply lookup_insert_eq.
Qed.


Lemma reference_update_account f e : reference (update_account f e) = reference e.
Proof. unfold update_account. by destruct (kind e). Qed.








Lemma process_lines_app today l1 : forall l2 ln st,
  process_lines today ln st (l1 ++ l2) =
    (st' ← process_lines today ln st l1;
     process_lines today (ln + length l1) st' l2).
Proof.
  induction l1 as [|raw l1 IH]; intros l2 ln st.
  - cbn. by rewrite Nat.add_0_r.
  - cbn [app process_lines length].
    destruct (process_line today (S ln) st raw) as [st1|]; [|done].
    cbn [mbind result_bind]. rewrite IH. by rewrite Nat.add_succ_r.
Qed.


Lemma startswith_head a p b q s :
  startswith (String a p) s = true -> startswith (String b q) s = true -> a = b.
Proof.
  unfold startswith. destruct s as [|c s]; cbn; [discriminate|].
  destruct (ascii_dec a c); [|discriminate].
  destruct (ascii_dec b c); [|discriminate]. congruence.
Qed.

Ltac clash H1 H2 :=
  let E := fresh in
  pose proof (startswith_head _ _ _ _ _ H1 H2) as E; discriminate E.



Lemma match_reference_nonempty line n rest :
  match_reference line = Some (n, rest) -> line <> "".
Proof. by destruct line. Qed.




(** ** Instances *)



(** C5, at the example report: the SUM adds the account row (20.00) and
    the placeholder row (10.00), skips the blank row and the section header
    and stops at the title. *)
Lemma calculate_sum_values_scope_witness :
  calculate_sum_values 6 example_elements example_stored 1
    = sum_of_series 1 [[DFin false 2000 (-2)]; [DFin false 1000 (-2)]] /\
  calculate_sum_values 6 example_elements example_stored 1
    = Ok [DFin false 3000 (-2)].
Proof.
  split; [|reflexivity].
  refine (proj1 (calculate_sum_values_scope 6 example_elements example_stored 1 _)).
  intros i e v _ Hs. unfold example_stored in Hs.
  apply lookup_singleton_Some in Hs as [_ Hs]. discriminate.
Defined.

(** C8, at an input: an account id that the registry does not hold. *)
Lemma missing_account_is_zero_row_witness :
  calculate_account_values 990
      (mkAccountElement "missing" None (Some ("*", DFin false 2 0)) true
                        (Some "f") ["x"] [])
      [(mkdate 2025 1 1, mkdate 2025 1 31); (mkdate 2025 2 1, mkdate 2025 2 28)]
      [("salary", mkAccount "Salary" "salary" None (Some "INCOME"))]
      default_config ∅ ∅
    = Ok (mkValues [zero; zero] None None [zero; zero] false).
Proof.
  exact (proj1 (missing_account_is_zero_row 990
                  (mkAccountElement "missing" None (Some ("*", DFin false 2 0))
                                    true (Some "f") ["x"] [])
                  [(mkdate 2025 1 1, mkdate 2025 1 31);
                   (mkdate 2025 2 1, mkdate 2025 2 28)]
                  [("salary", mkAccount "Salary" "salary" None (Some "INCOME"))]
                  default_config ∅ ∅ eq_refl)).
Defined.

(** C6, at an input: the quotient of two placeholder rows, halved. In
    period 0 the divisor is zero and the evaluation fails; in period 1 the
    formula string is [2.5 / 4.0 * (50/100)], whose value 0.3125 becomes
    0.31. *)
Lemma calc_failure_zeroes_one_period_witness :
  substitute_refs example_float "[1] / [2] * 50%" example_calc_elements ∅ 1
    = Ok "2.5 / 4.0 * 50%" /\
  percent_rewrite "2.5 / 4.0 * 50%" = "2.5 / 4.0 * (50/100)" /\
  exists scope_end,
    calculate_calc_values example_float example_eval example_calc_element
        "[1] / [2] * 50%" ∅ example_calc_elements 2 tt = Ok scope_end /\
    scope_values scope_end = [zero; DFin false 31 (-2)] /\
    scope_stored scope_end = ∅ /\
    (example_outcome "1.0 / 0.0 * (50/100)" = Failed ->
     scope_values scope_end !! 0%nat = Some zero).
Proof.
  split; [reflexivity|]. split; [reflexivity|].
  destruct (proj1 (calc_failure_zeroes_one_period example_float unit
                     example_eval example_calc_element "[1] / [2] * 50%" ∅
                     example_calc_elements 2 tt
                     (fun p => match p with
                               | O => "1.0 / 0.0 * 50%"
                               | _ => "2.5 / 4.0 * 50%"
                               end)))
    as (scope_end & Hcalc & Hstored & Hlen & Hp).
  { intros [|[|p]] Hlt; [| |lia];
      (split; [reflexivity|]; split; [by intros scope|]);
      intros scope name; cbn; discriminate. }
  exists scope_end. split; [exact Hcalc|].
  split; [|split; [exact Hstored|]].
  - vm_compute in Hcalc. by injection Hcalc as <-.
  - intros Hfail. destruct (Hp 0%nat ltac:(lia)) as (scope_p & _ & _ & _ & H0).
    apply H0. exact Hfail.
Defined.

(** C6 as the specification states it fails. A formula that calls [exit]
    ends the evaluation with SystemExit, which the [except Exception]
    clause does not catch: the calculation of the report is aborted. A
    formula that appends to [calc_values] leaves two values per period. So
    it is not the case that, whenever the referenced values can be read,
    the function returns one value per period. *)
Lemma calc_evaluation_aborts :
  calculate_calc_values example_float example_eval
      (mkElement 1 None (CalcElement "x" "exit()")) "exit()" ∅
      [mkElement 1 None (CalcElement "x" "exit()")] 2 tt
    = Raise (Uncaught "SystemExit") /\
  scope_values <$>
    calculate_calc_values example_float example_eval_changing
      (mkElement 1 None (CalcElement "x" "calc_values.append(1)"))
      "calc_values.append(1)" ∅
      [mkElement 1 None (CalcElement "x" "calc_values.append(1)")] 2 tt
    = Ok [DFin false 1 0; zero; DFin false 1 0; zero] /\
  ~ (forall (float_repr : Decimal -> string)
            (eval_str : ReportElement -> nat -> string -> calc_scope unit ->
                        eval_outcome * calc_scope unit)
            elem formula stored_values elements num_periods,
       (forall p, (p < num_periods)%nat ->
          is_Ok (substitute_refs float_repr formula elements stored_values p)
            = true) ->
       exists scope_end,
         calculate_calc_values float_repr eval_str elem formula stored_values
                               elements num_periods tt = Ok scope_end /\
         length (scope_values scope_end) = num_periods).
Proof.
  split; [reflexivity|]. split; [reflexivity|]. intros H.
  destruct (H example_float example_eval
              (mkElement 1 None (CalcElement "x" "exit()")) "exit()" ∅
              [mkElement 1 None (CalcElement "x" "exit()")] 2%nat)
    as (scope_end & Hcalc & _).
  - intros p _. reflexivity.
  - discriminate Hcalc.
Qed.

(** C9, at an input: two keys over a store of two transactions. *)
Lemma build_all_filtered_caches_single_pass_witness :
  let run := build_all_filtered_caches_traced (fun _ _ => Ok true)
               example_store example_periods {[example_key1; example_key2]} in
  (exists n, fst run = take n example_store) /\
  (forall filtered_caches, snd run = Ok filtered_caches ->
     fst run = example_store /\
     dom filtered_caches = {[example_key1; example_key2]} /\
     forall key, key ∈ ({[example_key1; example_key2]} : gset CacheKey) ->
       exists totals,
         filtered_caches !! key = Some totals /\
         build_all_filtered_caches (fun _ _ => Ok true) example_store
                                   example_periods {[key]}
           = Ok {[key := totals]} /\
         forall period_idx,
           accumulated None
             (key_contributions (fun _ _ => Ok true) example_periods key
                                period_idx example_store)
             (totals !! period_idx)) /\
  ((forall key, key ∈ ({[example_key1; example_key2]} : gset CacheKey) ->
      is_Ok (build_all_filtered_caches (fun _ _ => Ok true) example_store
                                       example_periods {[key]}) = true) ->
   is_Ok (snd run) = true).
Proof.
  refine (build_all_filtered_caches_single_pass (fun _ _ => Ok true)
            example_store example_periods {[example_key1; example_key2]} _).
  intros E.
  assert (H : example_key1 ∈ (∅ : gset CacheKey)).
  { rewrite <- E. apply elem_of_union_l. by apply elem_of_singleton. }
  by apply not_elem_of_empty in H.
Defined.

(** The run of the example: both transactions are visited once; the key
    with the pattern counts both (1.00 in period 0, 2.50 in period 1), the
    key with the filter account B only the first, the one transaction with
    a split on B. *)
Example build_all_filtered_caches_example :
  let run := build_all_filtered_caches_traced (fun _ _ => Ok true)
               example_store example_periods {[example_key1; example_key2]} in
  fst run = example_store /\
  (fun m => m !! example_key1) <$> snd run
    = Ok (Some {[ 0%nat := DFin false 100 (-2); 1%nat := DFin false 250 (-2) ]}) /\
  (fun m => m !! example_key2) <$> snd run
    = Ok (Some {[ 0%nat := DFin false 100 (-2) ]}) /\
  key_contributions (fun _ _ => Ok true) example_periods example_key1 1
                    example_store = [DFin false 250 (-2)] /\
  key_contributions (fun _ _ => Ok true) example_periods example_key2 1
                    example_store = [].
Proof. vm_compute. repeat split. Qed.

(** ** Periods and dates *)

(** *** Empty and non-empty period lists *)

Lemma period_loop_extends step e : forall fuel cur ranges r,
  period_loop step fuel e cur ranges = Some (Ok r) ->
  (length ranges <= length r)%nat.
Proof.
  induction fuel as [|fuel IH]; intros cur ranges r H; cbn [period_loop] in H.
  - destruct (date_leb cur e); [discriminate|]. injection H as <-. lia.
  - destruct (date_leb cur e); [|injection H as <-; lia].
    destruct (step cur) as [[p next]|]; [|discriminate].
    apply IH in H. rewrite length_app in H. cbn in H. lia.
Qed.

Lemma period_loop_after step e fuel cur ranges :
  date_leb cur e = false ->
  period_loop step fuel e cur ranges = Some (Ok ranges).
Proof. intros H. destruct fuel; cbn [period_loop]; rewrite H; reflexivity. Qed.

Lemma period_loop_nonempty step e fuel cur r :
  date_leb cur e = true ->
  period_loop step fuel e cur [] = Some (Ok r) -> r <> [].
Proof.
  intros Hle H. destruct fuel; cbn [period_loop] in H; rewrite Hle in H;
    [discriminate|].
  destruct (step cur) as [[p next]|]; [|discriminate].
  apply period_loop_extends in H. cbn in H. intros ->. cbn in H. lia.
Qed.

(** X2. [get_period_ranges] returns the empty list exactly when the start
    date is after the end date or the period type is neither [m] nor [q]:
    in these cases it does not raise, and from a start date that is not
    after the end date a monthly or quarterly run that returns has at least
    one period. *)
Theorem get_period_ranges_empty (start_date end_date : date)
    (period_type : string) :
  get_period_ranges start_date end_date period_type = Ok [] <->
  date_leb start_date end_date = false \/
  (period_type <> "m" /\ period_type <> "q").
Proof.
  pose proof (get_period_ranges_fuel_enough start_date end_date period_type)
    as Hfuel.
  unfold get_period_ranges. unfold get_period_ranges_fuel in *.
  destruct (String.eqb_spec period_type "m") as [E|Hm]; [subst period_type|].
  - destruct (date_leb start_date end_date) eqn:Hle.
    + split; [|intros [?|[? _]]; done].
      destruct (period_loop _ _ _ _ _) as [[r|e]|] eqn:Hloop; [| |done].
      * intros H; injection H as ->.
        by apply period_loop_nonempty in Hloop.
      * discriminate.
    + rewrite period_loop_after by done. split; [by left|done].
  - destruct (String.eqb_spec period_type "q") as [E|Hq]; [subst period_type|].
    + destruct (date_leb start_date end_date) eqn:Hle.
      * split; [|intros [?|[_ ?]]; done].
        destruct (period_loop _ _ _ _ _) as [[r|e]|] eqn:Hloop; [| |done].
        -- intros H; injection H as ->.
           by apply period_loop_nonempty in Hloop.
        -- discriminate.
      * rewrite period_loop_after by done. split; [by left|done].
    + split; [by right|done].
Qed.

(** X2, at inputs: an end date before the start date, and a period type
    that is neither monthly nor quarterly. *)
Lemma get_period_ranges_empty_witness :
  get_period_ranges (mkdate 2025 3 1) (mkdate 2025 1 1) "m" = Ok [] /\
  get_period_ranges (mkdate 2025 1 1) (mkdate 2025 3 1) "y" = Ok [].
Proof.
  split.
  - apply (proj2 (get_period_ranges_empty (mkdate 2025 3 1) (mkdate 2025 1 1)
                    "m")).
    left. reflexivity.
  - apply (proj2 (get_period_ranges_empty (mkdate 2025 1 1) (mkdate 2025 3 1)
                    "y")).
    right. split; discriminate.
Defined.

(** *** The quarterly periods from the first day of a month *)

Lemma period_loop_tiles step e (Inv : date -> Prop) :
  (forall cur, Inv cur -> date_leb cur e = true ->
     exists period_end next,
       step cur = Ok ((cur, period_end), next) /\
       date_leb cur period_end = true /\ Inv next /\
       (date_leb next e = true -> next = next_day period_end) /\
       (date_leb next e = false -> period_end = e)) ->
  forall fuel cur ranges r,
    Inv cur -> date_leb cur e = true ->
    period_loop step fuel e cur ranges = Some r ->
    exists periods, r = Ok (ranges ++ periods)%list /\ tiles cur e periods.
Proof.
  intros Hstep. induction fuel as [|fuel IH]; intros cur ranges r Hinv He Hloop.
  - cbn [period_loop] in Hloop. rewrite He in Hloop. discriminate.
  - cbn [period_loop] in Hloop. rewrite He in Hloop.
    destruct (Hstep cur Hinv He)
      as (period_end & next & Hs & Hpe & Hn & Hin & Hout).
    rewrite Hs in Hloop.
    destruct (date_leb next e) eqn:Hne.
    + destruct (IH next _ r Hn Hne Hloop) as (periods & -> & Ht).
      exists ((cur, period_end) :: periods). split.
      * rewrite <- app_assoc. reflexivity.
      * cbn [tiles]. split; [reflexivity|]. split; [exact Hpe|].
        rewrite <- (Hin eq_refl).
        destruct periods; [destruct Ht|exact Ht].
    + rewrite period_loop_after in Hloop by done. injection Hloop as <-.
      exists [(cur, period_end)]. split; [reflexivity|].
      cbn [tiles]. split; [reflexivity|]. split; [exact Hpe|].
      exact (Hout eq_refl).
Qed.

Lemma quarter_bounds m :
  1 <= m <= 12 ->
  let q := (m - 1) / 3 + 1 in
  1 <= q <= 4 /\ 3 * q - 2 <= m <= 3 * q.
Proof. intros Hm q. subst q. Z.to_euclidean_division_equations. lia. Qed.

Lemma quarterly_step_first_day s e cur :
  valid_date (year cur) (month cur) (day cur) = true -> day cur = 1 ->
  valid_date (year e) (month e) (day e) = true -> year e < 9999 ->
  date_leb s cur = true -> date_leb cur e = true ->
  cur = s \/ (month cur - 1) mod 3 = 0 ->
  exists period_end next,
    quarterly_step s e cur = Ok ((cur, period_end), next) /\
    date_leb cur period_end = true /\
    (valid_date (year next) (month next) (day next) = true /\ day next = 1 /\
     date_leb s next = true /\
     (next = s \/ (month next - 1) mod 3 = 0)) /\
    (date_leb next e = true -> next = next_day period_end) /\
    (date_leb next e = false -> period_end = e).
Proof.
  destruct cur as [y m d]. cbn [year month day]. intros Hv -> Hve Hy Hs He Hq.
  apply valid_date_iff in Hv, Hve.
  apply date_leb_iff in He, Hs. cbn [year month day] in He, Hs.
  destruct (quarter_bounds m ltac:(lia)) as [Hq1 Hq2].
  unfold quarterly_step. cbn [year month day].
  set (q := (m - 1) / 3 + 1) in *.
  pose proof (monthrange_bounds y (q * 3)) as Hmr.
  rewrite (make_date_valid y ((q - 1) * 3 + 1) 1)
    by (apply valid_date_iff;
        pose proof (monthrange_bounds y ((q - 1) * 3 + 1)); lia).
  rewrite (make_date_valid y (q * 3) (monthrange y (q * 3)))
    by (apply valid_date_iff; lia).
  cbn [mbind result_bind].
  assert (Hmax : date_max (mkdate y ((q - 1) * 3 + 1) 1) s = mkdate y m 1).
  { unfold date_max.
    destruct (date_ltb (mkdate y ((q - 1) * 3 + 1) 1) s) eqn:Hlt.
    - apply date_ltb_iff in Hlt. cbn [year month day] in Hlt.
      destruct Hq as [<-|Hq]; [reflexivity|].
      assert (m = (q - 1) * 3 + 1)
        by (subst q; Z.to_euclidean_division_equations; lia).
      lia.
    - apply not_true_iff_false in Hlt. rewrite date_ltb_iff in Hlt.
      cbn [year month day] in Hlt.
      destruct Hq as [<-|Hq].
      + cbn [year month day] in Hlt. f_equal. lia.
      + f_equal. subst q. Z.to_euclidean_division_equations. lia. }
  rewrite Hmax.
  set (next := if q =? 4 then mkdate (y + 1) 1 1 else mkdate y (q * 3 + 1) 1).
  assert (Hnext : (if q =? 4 then make_date (y + 1) 1 1
                   else make_date y (q * 3 + 1) 1) = Ok next).
  { subst next. destruct (Z.eqb_spec q 4).
    - apply make_date_valid, valid_date_iff.
      pose proof (monthrange_bounds (y + 1) 1). lia.
    - apply make_date_valid, valid_date_iff.
      pose proof (monthrange_bounds y (q * 3 + 1)). lia. }
  rewrite Hnext. cbn [mbind result_bind].
  exists (date_min (mkdate y (q * 3) (monthrange y (q * 3))) e), next.
  split; [reflexivity|].
  assert (Hny : year next = (if q =? 4 then y + 1 else y) /\
                month next = (if q =? 4 then 1 else q * 3 + 1) /\
                day next = 1).
  { subst next. destruct (q =? 4); done. }
  destruct Hny as (Hny & Hnm & Hnd).
  split; [|split; [|split]].
  - unfold date_min. destruct (date_ltb e (mkdate y (q * 3) (monthrange y (q * 3))));
      apply date_leb_iff; cbn [year month day]; lia.
  - split; [|split; [|split]].
    + apply valid_date_iff. rewrite Hny, Hnm, Hnd.
      destruct (Z.eqb_spec q 4).
      * pose proof (monthrange_bounds (y + 1) 1). lia.
      * pose proof (monthrange_bounds y (q * 3 + 1)). lia.
    + exact Hnd.
    + apply date_leb_iff. rewrite Hny, Hnm, Hnd.
      destruct (Z.eqb_spec q 4); lia.
    + right. rewrite Hnm. destruct (Z.eqb_spec q 4); [reflexivity|].
      replace (q * 3 + 1 - 1) with (q * 3) by lia. apply Z.mod_mul. lia.
  - intros Hle. apply date_leb_iff in Hle. rewrite Hny, Hnm, Hnd in Hle.
    assert (Hmin : date_min (mkdate y (q * 3) (monthrange y (q * 3))) e
                   = mkdate y (q * 3) (monthrange y (q * 3))).
    { unfold date_min.
      destruct (date_ltb e (mkdate y (q * 3) (monthrange y (q * 3)))) eqn:Hlt;
        [|done].
      apply date_ltb_iff in Hlt. cbn [year month day] in Hlt.
      destruct (Z.eqb_spec q 4); lia. }
    rewrite Hmin. unfold next_day. cbn [year month day].
    rewrite Z.ltb_irrefl. subst next.
    destruct (Z.eqb_spec q 4) as [E|Hm].
    + rewrite E. reflexivity.
    + destruct (Z.ltb_spec (q * 3) 12); [reflexivity|lia].
  - intros Hgt. apply date_leb_false_iff, date_ltb_iff in Hgt.
    rewrite Hny, Hnm, Hnd in Hgt.
    unfold date_min.
    destruct (date_ltb e (mkdate y (q * 3) (monthrange y (q * 3)))) eqn:Hlt;
      [done|].
    apply not_true_iff_false in Hlt. rewrite date_ltb_iff in Hlt.
    cbn [year month day] in Hlt.
    destruct e as [ye me de]. cbn [year month day] in *.
    assert (ye = y /\ me = q * 3) as [-> ->]
      by (destruct (Z.eqb_spec q 4); lia).
    f_equal. lia.
Qed.

(** X3. Where the quarterly periods tile the range: when the start date is
    the first day of a month (and both dates are days of the calendar, the
    start not after the end, the end before the year 9999),
    [get_period_ranges] returns for the period type [q], and the periods
    tile the days from the start date to the end date; the first period
    starts on the start date, inside its quarter, and the last ends on the
    end date. *)
Theorem get_period_ranges_quarterly_tiles (start_date end_date : date) :
  valid_date (year start_date) (month start_date) (day start_date) = true ->
  valid_date (year end_date) (month end_date) (day end_date) = true ->
  day start_date = 1 -> year end_date < 9999 ->
  date_leb start_date end_date = true ->
  exists ranges,
    get_period_ranges start_date end_date "q" = Ok ranges /\
    tiles start_date end_date ranges.
Proof.
  intros Hvs Hve Hd Hy Hle.
  pose proof (get_period_ranges_fuel_enough start_date end_date "q") as Hfuel.
  unfold get_period_ranges.
  destruct (get_period_ranges_fuel _ _ _ _) as [r|] eqn:Hrun; [|done].
  unfold get_period_ranges_fuel in Hrun. cbn [String.eqb Ascii.eqb] in Hrun.
  pose (Inv := fun cur =>
    valid_date (year cur) (month cur) (day cur) = true /\ day cur = 1 /\
    date_leb start_date cur = true /\
    (cur = start_date \/ (month cur - 1) mod 3 = 0)).
  destruct (period_loop_tiles (quarterly_step start_date end_date) end_date Inv)
    with (fuel := period_fuel start_date end_date) (cur := start_date)
         (ranges := @nil (date * date)) (r := r)
    as (periods & -> & Ht).
  - intros cur (Hv & Hd1 & Hs & Hq) He.
    destruct (quarterly_step_first_day start_date end_date cur Hv Hd1 Hve Hy
                Hs He Hq) as (pe & next & H1 & H2 & H3 & H4 & H5).
    exists pe, next. done.
  - split; [done|]. split; [done|]. split; [|by left].
    apply date_leb_iff. lia.
  - done.
  - done.
  - exists periods. split; [reflexivity|exact Ht].
Qed.

(** X3, at an input: from 2025-02-01 to 2025-08-15. *)
Lemma get_period_ranges_quarterly_tiles_witness :
  exists ranges,
    get_period_ranges (mkdate 2025 2 1) (mkdate 2025 8 15) "q" = Ok ranges /\
    tiles (mkdate 2025 2 1) (mkdate 2025 8 15) ranges.
Proof.
  apply (get_period_ranges_quarterly_tiles (mkdate 2025 2 1) (mkdate 2025 8 15));
    try reflexivity.
Defined.

(** *** The abbreviations of [parse_date] *)

Lemma parse_date_keywords y m d :
  let today := mkdate y m d in
  let q := (m - 1) / 3 + 1 in
  let pq := if q =? 1 then 4 else q - 1 in
  let pqy := if q =? 1 then y - 1 else y in
  let pm := if m =? 1 then 12 else m - 1 in
  let pmy := if m =? 1 then y - 1 else y in
  parse_date today "BPY" = make_date (y - 1) 1 1 /\
  parse_date today "BPQ" = make_date pqy ((pq - 1) * 3 + 1) 1 /\
  parse_date today "BPM" = make_date pmy pm 1 /\
  parse_date today "BY" = make_date y 1 1 /\
  parse_date today "BQ" = make_date y ((q - 1) * 3 + 1) 1 /\
  parse_date today "BM" = make_date y m 1 /\
  parse_date today "EPY" = make_date (y - 1) 12 31 /\
  parse_date today "EPQ" = make_date pqy (pq * 3) (monthrange pqy (pq * 3)) /\
  parse_date today "EPM" = make_date pmy pm (monthrange pmy pm) /\
  parse_date today "EY" = make_date y 12 31 /\
  parse_date today "EQ" = make_date y (q * 3) (monthrange y (q * 3)) /\
  parse_date today "EM" = make_date y m (monthrange y m).
Proof.
  cbv zeta. unfold parse_date, current_quarter. cbn [year month day].
  destruct ((m - 1) / 3 + 1 =? 1); destruct (m =? 1); repeat split; reflexivity.
Qed.

Lemma next_day_last y m :
  next_day (mkdate y m (monthrange y m)) =
    if m <? 12 then mkdate y (m + 1) 1 else mkdate (y + 1) 1 1.
Proof. unfold next_day. cbn [year month day]. by rewrite Z.ltb_irrefl. Qed.

Lemma monthrange_december y : monthrange y 12 = 31.
Proof. reflexivity. Qed.

Ltac span_goal :=
  cbn [year month day];
  first [ lia
        | apply Z.mod_1_r
        | match goal with
          | |- (?a * 3 + 1 - 1) mod 3 = 0 =>
              replace (a * 3 + 1 - 1) with (a * 3) by lia;
              apply Z.mod_mul; lia
          end ].

(** X4. The abbreviations of [parse_date] name adjacent calendar periods.
    For a current date of the calendar after the year 1, BY and EY are the
    first and the last day of the calendar year that contains the current
    date (1 January and 31 December of its year), BQ and EQ those of its
    calendar quarter, BM and EM those of its calendar month; BPY and EPY
    (BPQ and EPQ, BPM and EPM) are the first and the last day of the
    calendar year (quarter, month) before it, which ends the day before
    the current one begins. *)
Theorem parse_date_adjacent_periods (today : date) :
  valid_date (year today) (month today) (day today) = true ->
  2 <= year today ->
  keyword_periods today 12 "BY" "EY" "BPY" "EPY" /\
  keyword_periods today 3 "BQ" "EQ" "BPQ" "EPQ" /\
  keyword_periods today 1 "BM" "EM" "BPM" "EPM" /\
  parse_date today "BY" = Ok (mkdate (year today) 1 1) /\
  parse_date today "EY" = Ok (mkdate (year today) 12 31) /\
  parse_date today "BM" = Ok (mkdate (year today) (month today) 1).
Proof.
  destruct today as [y m d]. cbn [year month day]. intros Hv Hy.
  apply valid_date_iff in Hv. destruct Hv as (Hy' & Hm & Hd).
  destruct (parse_date_keywords y m d)
    as (Ebpy & Ebpq & Ebpm & Eby & Ebq & Ebm & Eepy & Eepq & Eepm & Eey & Eeq
        & Eem).
  cbv zeta in *.
  destruct (quarter_bounds m Hm) as [Hq1 Hq2]. cbv zeta in Hq1, Hq2.
  set (q := (m - 1) / 3 + 1) in *.
  assert (Hvalid : forall y' m' d', 1 <= y' <= 9999 -> 1 <= m' <= 12 ->
            1 <= d' <= monthrange y' m' ->
            make_date y' m' d' = Ok (mkdate y' m' d')).
  { intros. apply make_date_valid, valid_date_iff. lia. }
  assert (Hfirst : forall y' m', 1 <= y' <= 9999 -> 1 <= m' <= 12 ->
            make_date y' m' 1 = Ok (mkdate y' m' 1)).
  { intros y' m' ? ?. apply Hvalid; [done..|].
    pose proof (monthrange_bounds y' m'). lia. }
  assert (Hlast : forall y' m', 1 <= y' <= 9999 -> 1 <= m' <= 12 ->
            make_date y' m' (monthrange y' m')
              = Ok (mkdate y' m' (monthrange y' m'))).
  { intros y' m' ? ?. apply Hvalid; [done..|].
    pose proof (monthrange_bounds y' m'). lia. }
  split; [|split; [|split; [|split; [|split]]]].
  - exists (mkdate y 1 1), (mkdate y 12 31), (mkdate (y - 1) 1 1),
           (mkdate (y - 1) 12 31).
    rewrite Eby, Eey, Ebpy, Eepy.
    rewrite !Hfirst by lia.
    rewrite (Hvalid y 12 31), (Hvalid (y - 1) 12 31)
      by (rewrite ?monthrange_december; lia).
    repeat split; try reflexivity.
    + apply date_leb_iff. cbn [year month day]. lia.
    + apply date_leb_iff. cbn [year month day].
      destruct (Z.eq_dec m 12) as [->|]; [|lia].
      rewrite monthrange_december in Hd. lia.
    + apply date_leb_iff. cbn [year month day]. lia.
    + rewrite <- (monthrange_december (y - 1)) at 1.
      rewrite next_day_last. cbn. f_equal. lia.
  - set (pq := if q =? 1 then 4 else q - 1) in *.
    set (pqy := if q =? 1 then y - 1 else y) in *.
    assert (Hpq : 1 <= pq <= 4 /\ 1 <= pqy <= 9999 /\
                  (if pq * 3 <? 12 then mkdate pqy (pq * 3 + 1) 1
                   else mkdate (pqy + 1) 1 1)
                    = mkdate y ((q - 1) * 3 + 1) 1).
    { subst pq pqy. destruct (Z.eqb_spec q 1) as [E|E].
      - rewrite E. cbn. repeat split; try lia. f_equal. lia.
      - repeat split; try lia.
        destruct (Z.ltb_spec ((q - 1) * 3) 12); [|lia]. f_equal. }
    destruct Hpq as (Hpq & Hpqy & Hnext).
    exists (mkdate y ((q - 1) * 3 + 1) 1),
           (mkdate y (q * 3) (monthrange y (q * 3))),
           (mkdate pqy ((pq - 1) * 3 + 1) 1),
           (mkdate pqy (pq * 3) (monthrange pqy (pq * 3))).
    rewrite Ebq, Eeq, Ebpq, Eepq.
    rewrite !Hfirst, !Hlast by lia.
    repeat split; try reflexivity.
    + apply date_leb_iff. cbn [year month day]. lia.
    + apply date_leb_iff. cbn [year month day].
      destruct (Z.eq_dec m (q * 3)) as [E|]; [|lia].
      rewrite <- E. lia.
    + apply date_leb_iff. cbn [year month day].
      pose proof (monthrange_bounds pqy (pq * 3)). lia.
    + rewrite next_day_last. exact Hnext.
    + rewrite next_day_last. by destruct (q * 3 <? 12).
    + span_goal.
    + span_goal.
    + rewrite next_day_last. by destruct (pq * 3 <? 12).
    + span_goal.
    + span_goal.
  - set (pm := if m =? 1 then 12 else m - 1) in *.
    set (pmy := if m =? 1 then y - 1 else y) in *.
    assert (Hpm : 1 <= pm <= 12 /\ 1 <= pmy <= 9999 /\
                  (if pm <? 12 then mkdate pmy (pm + 1) 1
                   else mkdate (pmy + 1) 1 1) = mkdate y m 1).
    { subst pm pmy. destruct (Z.eqb_spec m 1) as [E|E].
      - rewrite E. cbn. repeat split; try lia. f_equal. lia.
      - repeat split; try lia.
        destruct (Z.ltb_spec (m - 1) 12); [|lia]. f_equal. lia. }
    destruct Hpm as (Hpm & Hpmy & Hnext).
    exists (mkdate y m 1), (mkdate y m (monthrange y m)),
           (mkdate pmy pm 1), (mkdate pmy pm (monthrange pmy pm)).
    rewrite Ebm, Eem, Ebpm, Eepm.
    rewrite !Hfirst, !Hlast by lia.
    repeat split; try reflexivity.
    + apply date_leb_iff. cbn [year month day]. lia.
    + apply date_leb_iff. cbn [year month day]. lia.
    + apply date_leb_iff. cbn [year month day].
      pose proof (monthrange_bounds pmy pm). lia.
    + rewrite next_day_last. exact Hnext.
    + rewrite next_day_last. by destruct (m <? 12).
    + span_goal.
    + span_goal.
    + rewrite next_day_last. by destruct (pm <? 12).
    + span_goal.
    + span_goal.
  - rewrite Eby. by apply Hfirst.
  - rewrite Eey. apply Hvalid; rewrite ?monthrange_december; lia.
  - rewrite Ebm. by apply Hfirst.
Qed.

(** X4, at an input: the current date 2026-11-03. *)
Lemma parse_date_adjacent_periods_witness :
  keyword_periods (mkdate 2026 11 3) 12 "BY" "EY" "BPY" "EPY" /\
  keyword_periods (mkdate 2026 11 3) 3 "BQ" "EQ" "BPQ" "EPQ" /\
  keyword_periods (mkdate 2026 11 3) 1 "BM" "EM" "BPM" "EPM" /\
  parse_date (mkdate 2026 11 3) "BY" = Ok (mkdate 2026 1 1) /\
  parse_date (mkdate 2026 11 3) "EY" = Ok (mkdate 2026 12 31) /\
  parse_date (mkdate 2026 11 3) "BM" = Ok (mkdate 2026 11 1).
Proof.
  apply (parse_date_adjacent_periods (mkdate 2026 11 3)); [reflexivity|].
  cbn. lia.
Defined.

(** *** Reading the date of a GnuCash timestamp *)

Lemma digit_cases n : 0 <= n <= 9 ->
  exists k : nat, (k < 10)%nat /\ n = Z.of_nat k.
Proof. intros H. exists (Z.to_nat n). lia. Qed.

Lemma digit_char_spec n : 0 <= n <= 9 ->
  is_digit (digit_char n) = true /\
  Z.of_N (digit_value (digit_char n)) = n /\
  Ascii.eqb (digit_char n) "-" = false /\
  (Ascii.eqb (digit_char n) "0" = (n =? 0)).
Proof.
  intros H. destruct (digit_cases n H) as (k & Hk & ->).
  do 10 (destruct k as [|k]; [repeat split; reflexivity|]). lia.
Qed.

Lemma two_digit_field_digits n allow_space :
  1 <= n <= 99 ->
  two_digit_field (two_digits n) allow_space = Some n.
Proof.
  intros Hn. unfold two_digits, two_digit_field.
  assert (Ha : 0 <= n / 10 <= 9) by (Z.to_euclidean_division_equations; lia).
  assert (Hb : 0 <= n mod 10 <= 9) by (Z.to_euclidean_division_equations; lia).
  destruct (digit_char_spec _ Ha) as (Ha1 & Ha2 & _).
  destruct (digit_char_spec _ Hb) as (Hb1 & Hb2 & _).
  rewrite Ha1, Hb1. cbn [andb].
  assert (E : Z.of_N (10 * digit_value (digit_char (n / 10))
                      + digit_value (digit_char (n mod 10))) = n).
  { rewrite N2Z.inj_add, N2Z.inj_mul, Ha2, Hb2.
    Z.to_euclidean_division_equations. lia. }
  rewrite E. destruct (Z.eqb_spec n 0); [lia|]. reflexivity.
Qed.

Lemma split_once_two_digits n rest :
  0 <= n <= 99 ->
  split_once "-" (two_digits n ++ String "-" rest) = Some (two_digits n, rest).
Proof.
  intros Hn. unfold two_digits.
  assert (Ha : 0 <= n / 10 <= 9) by (Z.to_euclidean_division_equations; lia).
  assert (Hb : 0 <= n mod 10 <= 9) by (Z.to_euclidean_division_equations; lia).
  destruct (digit_char_spec _ Ha) as (_ & _ & Ha3 & _).
  destruct (digit_char_spec _ Hb) as (_ & _ & Hb3 & _).
  rewrite !append_String, append_nil. cbn [split_once].
  rewrite Ha3, Hb3. reflexivity.
Qed.

Lemma take_chars_app s t : take_chars (str_len s) (s ++ t) = s.
Proof.
  induction s as [|c s IH].
  - rewrite append_nil. by destruct t.
  - rewrite append_String. cbn [str_len String.length take_chars].
    f_equal. exact IH.
Qed.

(** X5. [parse_gnucash_date] reads the date of a GnuCash timestamp: for
    every day of the calendar, the text that starts with its ten characters
    YYYY-MM-DD, whatever follows them (the time and the time zone), parses
    to that day. *)
Theorem parse_gnucash_date_reads_iso (d : date) (rest : string) :
  valid_date (year d) (month d) (day d) = true ->
  parse_gnucash_date (iso_date d ++ rest) = Ok d.
Proof.
  destruct d as [y m dd]. cbn [year month day]. intros Hv.
  pose proof Hv as Hv'. apply valid_date_iff in Hv' as (Hy & Hm & Hd).
  pose proof (monthrange_bounds y m) as Hmr.
  unfold parse_gnucash_date.
  assert (Hlen : str_len (iso_date (mkdate y m dd)) = 10%nat) by reflexivity.
  rewrite <- Hlen, take_chars_app.
  set (a := y / 1000). set (b := y / 100 mod 10).
  set (c := y mod 100 / 10). set (g := y mod 100 mod 10).
  assert (Hiso : iso_date (mkdate y m dd) =
            String (digit_char a) (String (digit_char b)
              (String (digit_char c) (String (digit_char g)
                 (String "-" (two_digits m ++ String "-" (two_digits dd)))))))
    by reflexivity.
  rewrite Hiso. clear Hiso Hlen.
  assert (Ha : 0 <= a <= 9) by (subst a; Z.to_euclidean_division_equations; lia).
  assert (Hb : 0 <= b <= 9) by (subst b; Z.to_euclidean_division_equations; lia).
  assert (Hc : 0 <= c <= 9) by (subst c; Z.to_euclidean_division_equations; lia).
  assert (Hdg : 0 <= g <= 9) by (subst g; Z.to_euclidean_division_equations; lia).
  destruct (digit_char_spec _ Ha) as (Ha1 & Ha2 & _).
  destruct (digit_char_spec _ Hb) as (Hb1 & Hb2 & _).
  destruct (digit_char_spec _ Hc) as (Hc1 & Hc2 & _).
  destruct (digit_char_spec _ Hdg) as (Hd1 & Hd2 & _).
  unfold strptime_ymd.
  cbn [take_chars drop_chars str_len String.length filter_string].
  rewrite Ha1, Hb1, Hc1, Hd1.
  cbn [str_len String.length Nat.eqb andb negb].
  rewrite String.eqb_refl. cbn [negb].
  rewrite split_once_two_digits by lia.
  rewrite !two_digit_field_digits by lia.
  destruct (Z.leb_spec m 12); [|lia]. destruct (Z.leb_spec dd 31); [|lia].
  cbn [andb digits_value].
  assert (E : Z.of_N
                (10 * (10 * (10 * (10 * 0 + digit_value (digit_char a))
                             + digit_value (digit_char b))
                       + digit_value (digit_char c))
                 + digit_value (digit_char g)) = y).
  { assert (Hy4 : y = 1000 * a + 100 * b + 10 * c + g)
      by (subst a b c g; Z.to_euclidean_division_equations; lia).
    lia. }
  rewrite E. by apply make_date_valid.
Qed.

(** X5, at an input: a timestamp of 2025-01-15. *)
Lemma parse_gnucash_date_reads_iso_witness :
  parse_gnucash_date (iso_date (mkdate 2025 1 15) ++ " 00:00:00 -0600")
    = Ok (mkdate 2025 1 15).
Proof.
  apply (parse_gnucash_date_reads_iso (mkdate 2025 1 15)). reflexivity.
Defined.

(** ** Lines, comments and CSV fields *)

(** *** Stripping *)

Lemma rstrip_cons_nonspace c s :
  is_space c = false -> rstrip (String c s) = String c (rstrip s).
Proof.
  intros H. cbn [rstrip]. destruct (rstrip s); [by rewrite H|done].
Qed.

Lemma rstrip_cons c s :
  rstrip (String c s) =
    match rstrip s with
    | EmptyString => if is_space c then EmptyString else String c EmptyString
    | r => String c r
    end.
Proof. reflexivity. Qed.

Lemma rstrip_idemp s : rstrip (rstrip s) = rstrip s.
Proof.
  induction s as [|c s IH]; [done|].
  rewrite rstrip_cons. destruct (rstrip s) as [|c' r] eqn:E.
  - destruct (is_space c) eqn:Hc; [done|]. rewrite rstrip_cons. cbn [rstrip].
    by rewrite Hc.
  - rewrite rstrip_cons, IH. done.
Qed.

Lemma lstrip_fixed_rstrip s : lstrip s = s -> lstrip (rstrip s) = rstrip s.
Proof.
  destruct s as [|c s]; [done|]. cbn [lstrip].
  destruct (is_space c) eqn:Hc.
  - intros H. exfalso.
    assert (Hlen : (str_len (lstrip s) <= str_len s)%nat) by apply str_len_lstrip.
    rewrite H in Hlen. unfold str_len in Hlen. cbn [String.length] in Hlen. lia.
  - intros _. rewrite rstrip_cons_nonspace by done. cbn [lstrip]. by rewrite Hc.
Qed.

Lemma lstrip_idemp s : lstrip (lstrip s) = lstrip s.
Proof.
  induction s as [|c s IH]; [done|]. cbn [lstrip].
  destruct (is_space c) eqn:Hc; [done|]. cbn [lstrip]. by rewrite Hc.
Qed.

Lemma strip_idemp s : strip (strip s) = strip s.
Proof.
  unfold strip. rewrite lstrip_fixed_rstrip by apply lstrip_idemp.
  apply rstrip_idemp.
Qed.

Lemma upper_char_idemp c : upper_char (upper_char c) = upper_char c.
Proof. destruct c as [[] [] [] [] [] [] [] []]; reflexivity. Qed.

Lemma is_space_upper_char c : is_space (upper_char c) = is_space c.
Proof. destruct c as [[] [] [] [] [] [] [] []]; reflexivity. Qed.

Lemma upper_idemp s : upper (upper s) = upper s.
Proof.
  induction s as [|c s IH]; [done|]. unfold upper in *. cbn [map_string].
  by rewrite upper_char_idemp, IH.
Qed.

Lemma lstrip_upper s : lstrip (upper s) = upper (lstrip s).
Proof.
  induction s as [|c s IH]; [done|]. unfold upper in *.
  cbn [map_string lstrip]. rewrite is_space_upper_char.
  destruct (is_space c); [exact IH|done].
Qed.

Lemma rstrip_upper s : rstrip (upper s) = upper (rstrip s).
Proof.
  induction s as [|c s IH]; [done|]. unfold upper in *.
  cbn [map_string rstrip]. rewrite IH, is_space_upper_char.
  destruct (rstrip s); cbn [map_string]; [by destruct (is_space c)|done].
Qed.

Lemma strip_upper s : strip (upper s) = upper (strip s).
Proof. unfold strip. by rewrite lstrip_upper, rstrip_upper. Qed.

(** X6. [parse_date] ignores the letter case of its argument and the white
    space around it: a date string parses to what its stripped upper-case
    form parses to, so [bpy], [ Bpy ] and [BPY] name the same date. *)
Theorem parse_date_ignores_case (today : date) (date_str : string) :
  parse_date today date_str = parse_date today (upper (strip date_str)).
Proof.
  unfold parse_date.
  by rewrite strip_upper, strip_idemp, upper_idemp.
Qed.

(** *** Comments and escape sequences *)

Lemma is_escaped_not_space c : is_escaped c = true -> is_space c = false.
Proof.
  unfold is_escaped. intros H. apply orb_true_iff in H as [H|H];
    apply Ascii.eqb_eq in H; subst c; reflexivity.
Qed.

Lemma is_escaped_backslash : is_escaped backslash = true.
Proof. reflexivity. Qed.

Lemma not_escaped c :
  is_escaped c = false ->
  Ascii.eqb c backslash = false /\ Ascii.eqb c hash = false.
Proof.
  unfold is_escaped. intros H. apply orb_false_iff in H as [H1 H2]. done.
Qed.

Lemma escape_empty t : escape t = "" -> t = "".
Proof.
  destruct t as [|c t]; [done|]. cbn [escape].
  destruct (is_escaped c); discriminate.
Qed.

Lemma process_escape_sequences_escape t :
  process_escape_sequences (escape t) = t.
Proof.
  induction t as [|c t IH]; [done|]. cbn [escape].
  destruct (is_escaped c) eqn:Hc.
  - cbn [process_escape_sequences]. rewrite Ascii.eqb_refl, Hc. cbn [andb].
    by rewrite IH.
  - destruct (not_escaped c Hc) as [Hb _].
    cbn [process_escape_sequences]. rewrite Hb. cbn [andb].
    destruct (escape t) as [|c' r] eqn:E.
    + apply escape_empty in E. by subst t.
    + by rewrite IH.
Qed.

Lemma strip_comments_loop_escape t : forall in_quotes,
  strip_comments_loop in_quotes (escape t) = escape t.
Proof.
  induction t as [|c t IH]; intros iq; [done|]. cbn [escape].
  destruct (is_escaped c) eqn:Hc.
  - cbn [strip_comments_loop]. rewrite Ascii.eqb_refl, Hc. cbn [andb].
    by rewrite IH.
  - destruct (not_escaped c Hc) as [Hb Hh].
    cbn [strip_comments_loop]. rewrite Hb, Hh. cbn [andb].
    assert (Hun : (if Ascii.eqb c dquote
                   then String c (strip_comments_loop (negb iq) (escape t))
                   else String c (strip_comments_loop iq (escape t)))
                  = String c (escape t)).
    { destruct (Ascii.eqb c dquote); by rewrite IH. }
    rewrite Hun. by destruct (escape t).
Qed.

Lemma lstrip_escape t : lstrip (escape t) = escape (lstrip t).
Proof.
  induction t as [|c t IH]; [done|]. cbn [escape lstrip].
  destruct (is_escaped c) eqn:Hc.
  - rewrite (is_escaped_not_space c Hc). cbn [lstrip escape]. by rewrite Hc.
  - cbn [lstrip]. destruct (is_space c); [exact IH|]. cbn [escape].
    by rewrite Hc.
Qed.

Lemma rstrip_escape t : rstrip (escape t) = escape (rstrip t).
Proof.
  induction t as [|c t IH]; [done|]. cbn [escape].
  destruct (is_escaped c) eqn:Hc.
  - pose proof (is_escaped_not_space c Hc) as Hs.
    rewrite (rstrip_cons_nonspace backslash) by reflexivity.
    rewrite !rstrip_cons_nonspace by done. rewrite IH. cbn [escape].
    by rewrite Hc.
  - rewrite !rstrip_cons, IH.
    destruct (rstrip t) as [|c' r] eqn:E; cbn [escape].
    + destruct (is_space c); [done|]. cbn [escape]. by rewrite Hc.
    + rewrite Hc. by destruct (is_escaped c').
Qed.

(** X7. Escaping lets any text through the cleaning of a line: when every
    hash and every backslash of a text is written behind a backslash, the
    comment stripper cuts nothing (inside or outside quotes), the escape
    processing gives the hashes and backslashes back, and the cleaned line
    is the text without the white space around it. *)
Theorem escaped_text_survives_cleaning (text : string) :
  strip_comments (escape text) = escape (strip text) /\
  process_escape_sequences (escape text) = text /\
  clean_line (escape text) = strip text.
Proof.
  assert (H1 : strip_comments (escape text) = escape (strip text)).
  { unfold strip_comments, strip.
    by rewrite strip_comments_loop_escape, lstrip_escape, rstrip_escape. }
  split; [exact H1|]. split; [apply process_escape_sequences_escape|].
  unfold clean_line. rewrite H1, process_escape_sequences_escape.
  apply strip_idemp.
Qed.

Lemma strip_comments_loop_plain s t :
  contains hash s = false -> contains dquote s = false ->
  contains backslash s = false ->
  strip_comments_loop false (s ++ String hash t) = s.
Proof.
  induction s as [|c s IH]; intros Hh Hq Hb.
  - rewrite append_nil. cbn [strip_comments_loop]. by destruct t.
  - cbn [contains] in Hh, Hq, Hb.
    apply orb_false_iff in Hh as [Hh1 Hh2], Hq as [Hq1 Hq2], Hb as [Hb1 Hb2].
    rewrite append_String. cbn [strip_comments_loop].
    rewrite Hq1, Hh1, Hb1. cbn [andb]. rewrite IH by done.
    by destruct (s ++ String hash t).
Qed.

Lemma strip_comments_loop_cons in_quotes char rest :
  strip_comments_loop in_quotes (String char rest) =
    let unescaped :=
      if Ascii.eqb char dquote
      then String char (strip_comments_loop (negb in_quotes) rest)
      else if Ascii.eqb char hash && negb in_quotes then EmptyString
      else String char (strip_comments_loop in_quotes rest) in
    match rest with
    | String next_char rest' =>
        if Ascii.eqb char backslash && is_escaped next_char
        then String char (String next_char
                            (strip_comments_loop in_quotes rest'))
        else unescaped
    | EmptyString => unescaped
    end.
Proof. reflexivity. Qed.

Lemma strip_comments_loop_no_hash s : forall in_quotes,
  contains hash s = false ->
  strip_comments_loop in_quotes s = s /\
  forall c, Ascii.eqb c hash = false ->
            strip_comments_loop in_quotes (String c s) = String c s.
Proof.
  induction s as [|c s IH]; intros iq Hh.
  - split; [done|]. intros c Hc. cbn [strip_comments_loop]. rewrite Hc.
    by destruct (Ascii.eqb c dquote).
  - cbn [contains] in Hh. apply orb_false_iff in Hh as [Hh1 Hh2].
    assert (Hall : forall iq', strip_comments_loop iq' (String c s) = String c s).
    { intros iq'. by apply (IH iq' Hh2). }
    split; [apply Hall|].
    intros c0 Hc0. rewrite strip_comments_loop_cons. cbv zeta.
    rewrite !Hall, Hc0. cbn [andb].
    destruct (Ascii.eqb c0 backslash && is_escaped c).
    + f_equal. f_equal. by apply (IH iq Hh2).
    + by destruct (Ascii.eqb c0 dquote).
Qed.

Lemma strip_comments_loop_outside s rest :
  contains hash s = false -> contains dquote s = false ->
  contains backslash s = false ->
  strip_comments_loop false (s ++ String dquote rest)
    = s ++ String dquote (strip_comments_loop true rest).
Proof.
  induction s as [|c s IH]; intros Hh Hq Hb.
  - rewrite !append_nil. cbn [strip_comments_loop]. cbn [Ascii.eqb Bool.eqb andb].
    by destruct rest.
  - cbn [contains] in Hh, Hq, Hb.
    apply orb_false_iff in Hh as [Hh1 Hh2], Hq as [Hq1 Hq2], Hb as [Hb1 Hb2].
    rewrite !append_String. cbn [strip_comments_loop].
    rewrite Hq1, Hh1, Hb1. cbn [andb]. rewrite IH by done.
    by destruct (s ++ String dquote rest).
Qed.

Lemma strip_comments_loop_inside q rest :
  contains dquote q = false -> contains backslash q = false ->
  strip_comments_loop true (q ++ String dquote rest)
    = q ++ String dquote (strip_comments_loop false rest).
Proof.
  induction q as [|c q IH]; intros Hq Hb.
  - rewrite !append_nil. cbn [strip_comments_loop]. cbn [Ascii.eqb Bool.eqb andb].
    by destruct rest.
  - cbn [contains] in Hq, Hb.
    apply orb_false_iff in Hq as [Hq1 Hq2], Hb as [Hb1 Hb2].
    rewrite !append_String. cbn [strip_comments_loop].
    rewrite Hq1, Hb1. cbn [andb negb]. rewrite IH by done.
    destruct (Ascii.eqb c hash); by destruct (q ++ String dquote rest).
Qed.

(** X8. What [strip_comments] cuts. A line without a hash loses only the
    white space around it. In a line whose text before the first hash has
    no double quote and no backslash, everything from that hash on is cut.
    A quoted text (without backslashes) is kept with the hashes inside it,
    and the search for the comment goes on after the closing quote. *)
Theorem strip_comments_cuts (line : string) :
  (contains hash line = false -> strip_comments line = strip line) /\
  (forall comment,
     contains dquote line = false -> contains backslash line = false ->
     contains hash line = false ->
     strip_comments (line ++ String hash comment) = strip line) /\
  (forall quoted rest,
     contains dquote line = false -> contains backslash line = false ->
     contains hash line = false ->
     contains dquote quoted = false -> contains backslash quoted = false ->
     strip_comments (line ++ String dquote (quoted ++ String dquote rest))
       = strip (line ++ String dquote (quoted ++ String dquote
                  (strip_comments_loop false rest)))).
Proof.
  split; [|split].
  - intros H. unfold strip_comments.
    by rewrite (proj1 (strip_comments_loop_no_hash line false H)).
  - intros comment Hq Hb Hh. unfold strip_comments.
    by rewrite strip_comments_loop_plain.
  - intros quoted rest Hq Hb Hh Hq' Hb'. unfold strip_comments.
    by rewrite strip_comments_loop_outside, strip_comments_loop_inside.
Qed.

(** X8, at an input: a comment after a command, and a hash inside quotes. *)
Lemma strip_comments_cuts_witness :
  strip_comments "SUM: Total" = strip "SUM: Total" /\
  strip_comments ("SUM: Total " ++ String hash " the total")
    = strip "SUM: Total " /\
  strip_comments ("REGEX: " ++ String dquote ("a#b" ++ String dquote " #c"))
    = strip ("REGEX: " ++ String dquote ("a#b" ++ String dquote
               (strip_comments_loop false " #c"))).
Proof.
  split; [|split].
  - apply (proj1 (strip_comments_cuts "SUM: Total")). reflexivity.
  - apply (proj1 (proj2 (strip_comments_cuts "SUM: Total "))); reflexivity.
  - apply (proj2 (proj2 (strip_comments_cuts "REGEX: "))); reflexivity.
Defined.

(** *** CSV fields *)

Lemma str_replace_quotes s :
  str_replace (String dquote "") (String dquote (String dquote "")) s
    = double_quotes s.
Proof.
  unfold str_replace. induction s as [|c s IH]; [done|].
  cbn [str_len String.length str_replace_fuel double_quotes].
  unfold startswith, str_len in *. cbn [String.prefix].
  destruct (ascii_dec dquote c) as [<-|Hne].
  - rewrite Ascii.eqb_refl.
    assert (Hp : String.prefix "" s = true) by (by destruct s).
    rewrite Hp. cbn [String.length drop_chars].
    rewrite !append_String, append_nil. by rewrite <- IH.
  - destruct (Ascii.eqb_spec c dquote) as [->|_]; [done|].
    by rewrite <- IH.
Qed.

Lemma csv_plain_field text rest :
  contains ","%char text = false -> contains newline text = false ->
  after_field rest = true ->
  csv_plain (text ++ rest) = (text, rest).
Proof.
  intros Hc Hn Hr. induction text as [|c text IH].
  - rewrite append_nil. destruct rest as [|c r]; [done|].
    cbn [csv_plain]. cbn [after_field] in Hr. by rewrite Hr.
  - cbn [contains] in Hc, Hn.
    apply orb_false_iff in Hc as [Hc1 Hc2], Hn as [Hn1 Hn2].
    rewrite append_String. cbn [csv_plain]. unfold ends_field.
    rewrite Hc1, Hn1. cbn [orb]. by rewrite IH.
Qed.

Lemma csv_quoted_field text rest :
  after_field rest = true ->
  csv_quoted (double_quotes text ++ String dquote rest) = Some (text, rest).
Proof.
  intros Hr. induction text as [|c text IH].
  - rewrite append_nil. cbn [csv_quoted double_quotes]. rewrite Ascii.eqb_refl.
    destruct rest as [|c r]; [done|]. cbn [after_field] in Hr.
    destruct (Ascii.eqb_spec c dquote) as [->|_]; [discriminate|done].
  - cbn [double_quotes]. destruct (Ascii.eqb_spec c dquote) as [->|Hne].
    + rewrite !append_String. cbn [csv_quoted]. rewrite !Ascii.eqb_refl.
      by rewrite IH.
    + rewrite append_String. cbn [csv_quoted].
      destruct (Ascii.eqb_spec c dquote); [done|]. by rewrite IH.
Qed.

Lemma append_assoc (a b c : string) : (a ++ b) ++ c = a ++ (b ++ c).
Proof.
  induction a as [|x a IH]; [by rewrite !append_nil|].
  rewrite !append_String. by rewrite IH.
Qed.

(** X9. A field written by [quote_csv_field] is read back unchanged: for
    every text, a CSV reader applied to the written field followed by the
    rest of the record (the end, a comma or a newline) returns the text and
    that rest, whether the field had to be quoted or not. A text without a
    comma, a double quote and a newline is written as it is. *)
Theorem quote_csv_field_reads_back (text rest : string) :
  after_field rest = true ->
  csv_read_field (quote_csv_field text ++ rest) = Some (text, rest) /\
  (contains ","%char text = false -> contains dquote text = false ->
   contains newline text = false -> quote_csv_field text = text).
Proof.
  intros Hr. unfold quote_csv_field.
  destruct (contains ","%char text) eqn:Hc; cbn [orb];
    [|destruct (contains dquote text) eqn:Hq; cbn [orb];
      [|destruct (contains newline text) eqn:Hn]].
  1-3: split; [|discriminate];
    rewrite str_replace_quotes, append_String; cbn [csv_read_field];
    rewrite Ascii.eqb_refl, append_assoc, append_String, append_nil;
    by apply csv_quoted_field.
  split; [|done].
  destruct text as [|c text].
  - rewrite append_nil. destruct rest as [|c r]; [done|].
    cbn [csv_read_field csv_plain]. cbn [after_field] in Hr. rewrite Hr.
    destruct (Ascii.eqb_spec c dquote) as [->|_]; [discriminate|done].
  - rewrite append_String. cbn [csv_read_field].
    cbn [contains] in Hq. apply orb_false_iff in Hq as [Hq1 _]. rewrite Hq1.
    rewrite <- append_String. by rewrite csv_plain_field.
Qed.

(** X9, at an input: a description with a comma and quotes. *)
Lemma quote_csv_field_reads_back_witness :
  csv_read_field
      (quote_csv_field ("Rent, " ++ String dquote ("net" ++ String dquote ""))
       ++ ",1.00")
    = Some ("Rent, " ++ String dquote ("net" ++ String dquote ""), ",1.00").
Proof.
  apply (proj1 (quote_csv_field_reads_back
                  ("Rent, " ++ String dquote ("net" ++ String dquote ""))
                  ",1.00" eq_refl)).
Defined.

(** ** The caches *)

(** *** The required caches *)

Lemma elem_of_identify_required_caches elements key :
  key ∈ identify_required_caches elements <->
  exists e a, e ∈ elements /\ kind e = AccountElem a /\
              needs_cache a = true /\ key = key_of_account a.
Proof.
  induction elements as [|elem rest IH]; cbn [identify_required_caches].
  - split; [set_solver|]. intros (e & a & He & _). by apply elem_of_nil in He.
  - assert (Hrest : key ∈ identify_required_caches rest ->
              exists e a, e ∈ elem :: rest /\ kind e = AccountElem a /\
                          needs_cache a = true /\ key = key_of_account a).
    { intros H. apply IH in H as (e & a & He & Hk). exists e, a.
      split; [by right|done]. }
    destruct (kind elem) as [| |a0| | | |] eqn:Hkind.
    3:{ destruct (needs_cache a0) eqn:Hn.
        - rewrite elem_of_union, elem_of_singleton. split.
          + intros [H| ->]; [by apply Hrest|].
            exists elem, a0. split; [by left|done].
          + intros (e & a & He & Hk & Hn' & ->).
            apply elem_of_cons in He as [->|He].
            * rewrite Hkind in Hk. injection Hk as <-. by right.
            * left. apply IH. by exists e, a.
        - split; [by apply Hrest|].
          intros (e & a & He & Hk & Hn' & ->).
          apply elem_of_cons in He as [->|He].
          + rewrite Hkind in Hk. injection Hk as <-. congruence.
          + apply IH. by exists e, a. }
    all: split; [by apply Hrest|];
      intros (e & a & He & Hk & Hn' & ->);
      apply elem_of_cons in He as [->|He]; [congruence|];
      apply IH; by exists e, a.
Qed.

Section CacheCoverage.
Variable re_search : string -> string -> result bool.

Lemma build_all_filtered_caches_dom tree pr required
    (caches : gmap CacheKey (gmap nat Decimal)) :
  build_all_filtered_caches re_search tree pr required = Ok caches ->
  dom caches = required /\
  forall key totals, caches !! key = Some totals ->
    key_run re_search pr key tree ∅ = Ok totals.
Proof.
  unfold build_all_filtered_caches, build_all_filtered_caches_traced.
  destruct (decide (required = ∅)) as [->|Hne].
  - cbn [snd]. intros H; injection H as <-. split; [by rewrite dom_empty_L|].
    intros key totals H. by rewrite lookup_empty in H.
  - set (keys := elements required).
    set (init := gset_to_gmap (∅ : gmap nat Decimal) required).
    assert (Hnd : NoDup keys) by apply NoDup_elements.
    assert (Hkeys : forall k, k ∈ keys <-> k ∈ required)
      by (intros k; apply elem_of_elements).
    assert (Hinit : forall k, k ∈ keys -> init !! k = Some ∅).
    { intros k Hk. apply lookup_gset_to_gmap_Some. split; [by apply Hkeys|done]. }
    destruct (transactions_loop re_search pr keys tree init [])
      as [vis r] eqn:Hloop. cbn [snd]. intros ->.
    apply loop_Ok in Hloop as (_ & Hin & Hout); [|done|].
    2:{ intros k Hk. rewrite Hinit by done. by eexists. }
    assert (Hdom : forall k, is_Some (caches !! k) -> k ∈ keys).
    { intros k [t Ht]. destruct (decide (k ∈ keys)) as [Hk|Hk]; [done|].
      rewrite Hout in Ht by done.
      apply lookup_gset_to_gmap_Some in Ht as [? _]. by apply Hkeys. }
    split.
    + apply set_eq. intros k. rewrite elem_of_dom. split.
      * intros H. by apply Hkeys, Hdom.
      * intros Hk. apply Hkeys in Hk.
        destruct (Hin k Hk) as (t & t' & _ & _ & Ht'). by eexists.
    + intros key totals Hk.
      assert (Hin' : key ∈ keys) by (apply Hdom; by eexists).
      destruct (Hin key Hin') as (t & t' & Ht & Hrun & Ht').
      rewrite Hinit in Ht by done. injection Ht as <-.
      rewrite Hk in Ht'. by injection Ht' as <-.
Qed.

(** X10. The caches that are built are the caches that are looked up.
    [identify_required_caches] returns exactly the keys of the account rows
    that have a FILTER or a REGEX, the key of a row being the one that
    [calculate_account_values] makes for its lookup; and when
    [build_all_filtered_caches] returns for these keys, its result has an
    entry for every such row and for nothing else. *)
Theorem required_caches_cover_lookups (elements : list ReportElement) :
  (forall key,
     key ∈ identify_required_caches elements <->
     exists e a, e ∈ elements /\ kind e = AccountElem a /\
                 needs_cache a = true /\ key = key_of_account a) /\
  (forall tree period_ranges filtered_caches,
     build_all_filtered_caches re_search tree period_ranges
         (identify_required_caches elements) = Ok filtered_caches ->
     (forall e a, e ∈ elements -> kind e = AccountElem a ->
                  needs_cache a = true ->
                  is_Some (filtered_caches !! key_of_account a)) /\
     (forall key, is_Some (filtered_caches !! key) ->
        exists e a, e ∈ elements /\ kind e = AccountElem a /\
                    needs_cache a = true /\ key = key_of_account a)).
Proof.
  split; [apply elem_of_identify_required_caches|].
  intros tree pr fc Hb. apply build_all_filtered_caches_dom in Hb as [Hdom _].
  split.
  - intros e a He Hk Hn. apply elem_of_dom. rewrite Hdom.
    apply elem_of_identify_required_caches. by exists e, a.
  - intros key Hk. apply elem_of_dom in Hk. rewrite Hdom in Hk.
    by apply elem_of_identify_required_caches.
Qed.

End CacheCoverage.

(** X10, at an input: one account row with a FILTER. *)
Lemma required_caches_cover_lookups_witness :
  exists filtered_caches,
    build_all_filtered_caches (fun _ _ => Ok true) example_store
        example_periods (identify_required_caches example_filtered_elements)
      = Ok filtered_caches /\
    is_Some (filtered_caches !! example_key2).
Proof.
  assert (Hok : is_Ok (build_all_filtered_caches (fun _ _ => Ok true)
                         example_store example_periods
                         (identify_required_caches example_filtered_elements))
                = true) by (vm_compute; reflexivity).
  destruct (build_all_filtered_caches (fun _ _ => Ok true) example_store
              example_periods
              (identify_required_caches example_filtered_elements))
    as [filtered_caches|ex] eqn:Hb; [|discriminate Hok].
  exists filtered_caches. split; [reflexivity|].
  exact (proj1 (proj2 (required_caches_cover_lookups (fun _ _ => Ok true)
                         example_filtered_elements)
                  example_store example_periods filtered_caches Hb)
           (mkElement 1 None (AccountElem example_filtered_account))
           example_filtered_account (list_elem_of_here _ _) eq_refl eq_refl).
Defined.

(** *** The regex test *)

Section RegexTest.
Variable re_search : string -> string -> result bool.

Lemma none_match_found patterns text (found : string -> bool) :
  (forall p, p ∈ patterns -> re_search p text = Ok (found p)) ->
  none_match re_search patterns text
    = Ok (forallb (fun p => negb (found p)) patterns).
Proof.
  induction patterns as [|p rest IH]; intros H; [done|].
  cbn [none_match forallb]. rewrite (H p) by left. cbn [mbind result_bind].
  destruct (found p); [done|]. cbn [negb andb]. apply IH.
  intros q Hq. apply H. by right.
Qed.

Lemma all_match_found patterns text (found : string -> bool) :
  (forall p, p ∈ patterns -> re_search p text = Ok (found p)) ->
  all_match re_search patterns text = Ok (forallb found patterns).
Proof.
  induction patterns as [|p rest IH]; intros H; [done|].
  cbn [all_match forallb]. rewrite (H p) by left. cbn [mbind result_bind].
  destruct (found p); [|done]. cbn [andb]. apply IH.
  intros q Hq. apply H. by right.
Qed.

(** X11. [transaction_matches_regex] searches the description and the notes
    of the transaction as Python prints them, joined by a space: the text
    of the element, the word None for an element without text, and the
    empty string for an element that the transaction does not have. When
    the searches of the patterns return, the transaction passes exactly
    when no exclude pattern is found and every include pattern is found;
    with an exclude pattern found it fails whatever the searches of the
    include patterns would do, and with no pattern at all it passes. *)
Theorem transaction_matches_regex_all_and_none (trn : Transaction)
    (include_patterns exclude_patterns : list string)
    (found : string -> bool) :
  (forall p, p ∈ exclude_patterns ->
             re_search p (search_text trn) = Ok (found p)) ->
  ((forall p, p ∈ include_patterns ->
              re_search p (search_text trn) = Ok (found p)) ->
   transaction_matches_regex re_search trn include_patterns exclude_patterns
     = Ok (forallb (fun p => negb (found p)) exclude_patterns
           && forallb found include_patterns)) /\
  (existsb found exclude_patterns = true ->
   transaction_matches_regex re_search trn include_patterns exclude_patterns
     = Ok false).
Proof.
  intros Hex. unfold transaction_matches_regex. cbv zeta.
  rewrite search_text_spec.
  rewrite (none_match_found _ _ found Hex). cbn [mbind result_bind].
  split.
  - intros Hin. destruct (forallb _ exclude_patterns); [|done].
    by rewrite (all_match_found _ _ found Hin).
  - intros Hfound.
    assert (E : forallb (fun p => negb (found p)) exclude_patterns = false).
    { apply not_true_iff_false. intros Hall.
      apply existsb_exists in Hfound as (p & Hp & Hf).
      rewrite forallb_forall in Hall. specialize (Hall p Hp).
      rewrite Hf in Hall. discriminate. }
    by rewrite E.
Qed.

End RegexTest.

(** X11, at an input: a search by containment of one character; the
    description is an element without text, searched as the word None, and
    the notes are [paid]. *)
Lemma transaction_matches_regex_all_and_none_witness :
  search_text (mkTransaction None (Some None) (Some (Some "paid")) [])
    = "None paid" /\
  transaction_matches_regex
      (fun p t => Ok (match p with
                      | String c _ => contains c t
                      | EmptyString => true
                      end))
      (mkTransaction None (Some None) (Some (Some "paid")) []) ["N"; "p"] ["x"]
    = Ok true.
Proof.
  split; [reflexivity|].
  apply (proj1 (transaction_matches_regex_all_and_none
                  (fun p t => Ok (match p with
                                  | String c _ => contains c t
                                  | EmptyString => true
                                  end))
                  (mkTransaction None (Some None) (Some (Some "paid")) [])
                  ["N"; "p"] ["x"]
                  (fun p => match p with
                            | String c _ => contains c "None paid"
                            | EmptyString => true
                            end)
                  (fun p _ => eq_refl))).
  intros p _. reflexivity.
Defined.

(** *** The base cache and the filtered caches *)

Section BaseCache.
Variable re_search : string -> string -> result bool.

Lemma add_account_splits_key guids idx g splits :
  g ∈ guids ->
  forall (cache cache' : gmap string (gmap nat Decimal)),
    add_account_splits guids idx splits cache = Ok cache' ->
    splits_totals (unfiltered_key g) idx splits (default ∅ (cache !! g))
      = Ok (default ∅ (cache' !! g)).
Proof.
  intros Hg. induction splits as [|split rest IH]; intros cache cache' H;
    cbn [add_account_splits splits_totals] in *.
  - by injection H as <-.
  - destruct (split_account split) as [acct|]; [|by apply IH].
    cbn [unfiltered_key account_guid].
    destruct (String.eqb_spec acct g) as [->|Hne]; cbn [negb].
    + rewrite bool_decide_eq_true_2 in H by done. cbn [negb] in H.
      destruct (split_value split) as [text|]; [|by apply IH].
      destruct (parse_gnucash_value text) as [value|]; [|discriminate].
      cbn [mbind result_bind] in *. unfold add_to_account in H.
      destruct (add_to_period (default ∅ (cache !! g)) idx value)
        as [totals|]; [|discriminate].
      cbn [mbind result_bind] in *. apply IH in H.
      by rewrite lookup_insert_eq in H.
    + destruct (negb (bool_decide (acct ∈ guids))); [by apply IH|].
      destruct (split_value split) as [text|]; [|by apply IH].
      destruct (parse_gnucash_value text) as [value|]; [|discriminate].
      cbn [mbind result_bind] in H. unfold add_to_account in H.
      destruct (add_to_period (default ∅ (cache !! acct)) idx value)
        as [totals|]; [|discriminate].
      cbn [mbind result_bind] in H. apply IH in H.
      by rewrite lookup_insert_ne in H.
Qed.

Lemma add_account_splits_others guids idx g splits :
  g ∉ guids ->
  forall (cache cache' : gmap string (gmap nat Decimal)),
    add_account_splits guids idx splits cache = Ok cache' ->
    cache' !! g = cache !! g.
Proof.
  intros Hg. induction splits as [|split rest IH]; intros cache cache' H;
    cbn [add_account_splits] in *.
  - by injection H as <-.
  - destruct (split_account split) as [acct|]; [|by apply IH].
    destruct (decide (acct ∈ guids)) as [Hin|Hout].
    + rewrite bool_decide_eq_true_2 in H by done. cbn [negb] in H.
      destruct (split_value split) as [text|]; [|by apply IH].
      destruct (parse_gnucash_value text) as [value|]; [|discriminate].
      cbn [mbind result_bind] in H. unfold add_to_account in H.
      destruct (add_to_period _ idx value) as [totals|]; [|discriminate].
      cbn [mbind result_bind] in H. apply IH in H. rewrite H.
      apply lookup_insert_ne. by intros ->.
    + rewrite bool_decide_eq_false_2 in H by done. by apply IH.
Qed.

Lemma transaction_cache_loop_key pr guids g tree :
  g ∈ guids ->
  forall (cache cache' : gmap string (gmap nat Decimal)),
    transaction_cache_loop pr guids tree cache = Ok cache' ->
    key_run re_search pr (unfiltered_key g) tree (default ∅ (cache !! g))
      = Ok (default ∅ (cache' !! g)).
Proof.
  intros Hg. induction tree as [|trn rest IH]; intros cache cache' H;
    cbn [transaction_cache_loop] in H; unfold key_run in *;
    cbn [fold_result].
  - by injection H as <-.
  - destruct (cache_transaction pr guids trn cache) as [cache1|] eqn:H1;
      [|discriminate].
    cbn [mbind result_bind] in H.
    assert (Hstep : transaction_totals re_search pr (unfiltered_key g) trn
                      (default ∅ (cache !! g))
                    = Ok (default ∅ (cache1 !! g))).
    { unfold cache_transaction in H1. unfold transaction_totals.
      destruct (date_posted trn) as [text|]; [|by injection H1 as <-].
      destruct (parse_gnucash_date text) as [d|]; [|discriminate].
      cbn [mbind result_bind] in *.
      destruct (find_period 0 pr d) as [idx|]; [|by injection H1 as <-].
      unfold key_totals. cbn [unfiltered_key key_filter_guid key_regex_include
                              key_regex_exclude truthy_str truthy_tuple andb orb].
      cbn [mbind result_bind].
      exact (add_account_splits_key guids idx g (splits trn) Hg _ _ H1). }
    rewrite Hstep. cbn [mbind result_bind]. by apply IH.
Qed.

Lemma transaction_cache_loop_others pr guids g tree :
  g ∉ guids ->
  forall (cache cache' : gmap string (gmap nat Decimal)),
    transaction_cache_loop pr guids tree cache = Ok cache' ->
    cache' !! g = cache !! g.
Proof.
  intros Hg. induction tree as [|trn rest IH]; intros cache cache' H;
    cbn [transaction_cache_loop] in H.
  - by injection H as <-.
  - destruct (cache_transaction pr guids trn cache) as [cache1|] eqn:H1;
      [|discriminate].
    cbn [mbind result_bind] in H. apply IH in H. rewrite H.
    unfold cache_transaction in H1.
    destruct (date_posted trn) as [text|]; [|by injection H1 as <-].
    destruct (parse_gnucash_date text) as [d|]; [|discriminate].
    cbn [mbind result_bind] in *.
    destruct (find_period 0 pr d) as [idx|]; [|by injection H1 as <-].
    by apply (add_account_splits_others guids idx g (splits trn)).
Qed.

(** X12. The base cache agrees with the filtered caches. When
    [build_transaction_cache] returns, its totals of every account of the
    registry are the totals that [build_all_filtered_caches] computes for
    that account with no FILTER and no REGEX (an account without
    transactions, which the base cache does not hold, having empty
    totals), and it holds no account outside the registry. *)
Theorem build_transaction_cache_agrees (tree : list Transaction)
    (period_ranges : list (date * date)) (account_guids : gset string)
    (cache : gmap string (gmap nat Decimal)) :
  build_transaction_cache tree period_ranges account_guids = Ok cache ->
  (forall g, g ∈ account_guids ->
     build_all_filtered_caches re_search tree period_ranges
         {[unfiltered_key g]}
       = Ok {[unfiltered_key g := default ∅ (cache !! g)]}) /\
  (forall g, g ∉ account_guids -> cache !! g = None).
Proof.
  unfold build_transaction_cache. intros H. split.
  - intros g Hg. apply single_key_Ok.
    apply (transaction_cache_loop_key period_ranges account_guids g tree Hg)
      in H.
    by rewrite lookup_empty in H.
  - intros g Hg.
    apply (transaction_cache_loop_others period_ranges account_guids g tree Hg)
      in H.
    by rewrite lookup_empty in H.
Qed.

End BaseCache.

(** X12, at an input: the example store, with the accounts A and C. *)
Lemma build_transaction_cache_agrees_witness :
  exists cache,
    build_transaction_cache example_store example_periods {["A"; "C"]}
      = Ok cache /\
    build_all_filtered_caches (fun _ _ => Ok true) example_store
        example_periods {[unfiltered_key "A"]}
      = Ok {[unfiltered_key "A" := default ∅ (cache !! "A")]}.
Proof.
  eexists. split; [vm_compute; reflexivity|].
  refine (proj1 (build_transaction_cache_agrees (fun _ _ => Ok true)
                   example_store example_periods {["A"; "C"]} _ _) "A" _).
  - vm_compute. reflexivity.
  - set_solver.
Defined.

(** *** The periods of the totals *)

Lemma find_period_bound pr d : forall start idx,
  find_period start pr d = Some idx ->
  (start <= idx < start + length pr)%nat.
Proof.
  induction pr as [|[s e] pr IH]; intros start idx H; cbn [find_period] in H;
    [discriminate|].
  destruct (date_leb s d && date_leb d e).
  - injection H as <-. cbn [length]. lia.
  - apply IH in H. cbn [length]. lia.
Qed.

Lemma add_to_period_within n totals idx value totals' :
  (idx < n)%nat -> periods_within n totals ->
  add_to_period totals idx value = Ok totals' -> periods_within n totals'.
Proof.
  unfold add_to_period. intros Hidx Hw H.
  destruct (add _ value) as [total|]; [|discriminate].
  cbn [mbind result_bind] in H. injection H as <-.
  intros j Hj. destruct (decide (j = idx)) as [->|Hne]; [done|].
  rewrite lookup_insert_ne in Hj by done. by apply Hw.
Qed.

Lemma splits_totals_within n key idx splits :
  (idx < n)%nat ->
  forall totals totals',
    periods_within n totals ->
    splits_totals key idx splits totals = Ok totals' ->
    periods_within n totals'.
Proof.
  intros Hidx. induction splits as [|split rest IH]; intros totals totals' Hw H;
    cbn [splits_totals] in H.
  - by injection H as <-.
  - destruct (split_account split) as [acct|]; [|by eapply IH].
    destruct (negb _); [by eapply IH|].
    destruct (split_value split) as [text|]; [|by eapply IH].
    destruct (parse_gnucash_value text) as [value|]; [|discriminate].
    cbn [mbind result_bind] in H.
    destruct (add_to_period totals idx value) as [totals1|] eqn:H1;
      [|discriminate].
    cbn [mbind result_bind] in H.
    eapply IH; [|exact H]. by eapply add_to_period_within.
Qed.

Section PeriodsOfTotals.
Variable re_search : string -> string -> result bool.

Lemma key_run_within pr key tree :
  forall totals totals',
    periods_within (length pr) totals ->
    key_run re_search pr key tree totals = Ok totals' ->
    periods_within (length pr) totals'.
Proof.
  unfold key_run. induction tree as [|trn rest IH]; intros totals totals' Hw H;
    cbn [fold_result] in H.
  - by injection H as <-.
  - destruct (transaction_totals re_search pr key trn totals) as [t1|] eqn:H1;
      [|discriminate].
    cbn [mbind result_bind] in H. eapply IH; [|exact H].
    unfold transaction_totals in H1.
    destruct (date_posted trn) as [text|]; [|by injection H1 as <-].
    destruct (parse_gnucash_date text) as [d|]; [|discriminate].
    cbn [mbind result_bind] in H1.
    destruct (find_period 0 pr d) as [idx|] eqn:Hf; [|by injection H1 as <-].
    apply find_period_bound in Hf. unfold key_totals in H1.
    destruct (_ && _); [by injection H1 as <-|].
    destruct (if _ : bool then _ else _) as [[|]|]; cbn [mbind result_bind] in H1;
      [|by injection H1 as <-|discriminate].
    eapply splits_totals_within; [|exact Hw|exact H1]. lia.
Qed.

(** X13. The totals of the caches have the periods of the report only. In
    what [build_all_filtered_caches] and [build_transaction_cache] return,
    every period index of every total is below the number of periods, so
    the calculator, which reads the indices below that number, reads every
    amount that was added. *)
Theorem cache_periods_within (tree : list Transaction)
    (period_ranges : list (date * date)) :
  (forall required_caches filtered_caches key totals,
     build_all_filtered_caches re_search tree period_ranges required_caches
       = Ok filtered_caches ->
     filtered_caches !! key = Some totals ->
     periods_within (length period_ranges) totals) /\
  (forall account_guids cache g totals,
     build_transaction_cache tree period_ranges account_guids = Ok cache ->
     cache !! g = Some totals ->
     periods_within (length period_ranges) totals).
Proof.
  split.
  - intros required fc key totals Hb Hk.
    apply build_all_filtered_caches_dom in Hb as [_ Hrun].
    apply Hrun in Hk. eapply key_run_within; [|exact Hk].
    intros j Hj. rewrite lookup_empty in Hj. by destruct Hj.
  - intros guids cache g totals Hb Hk.
    destruct (decide (g ∈ guids)) as [Hg|Hg].
    + unfold build_transaction_cache in Hb.
      apply (transaction_cache_loop_key re_search period_ranges guids g tree Hg)
        in Hb.
      rewrite lookup_empty, Hk in Hb. cbn [default] in Hb.
      eapply key_run_within; [|exact Hb].
      intros j Hj. rewrite lookup_empty in Hj. by destruct Hj.
    + unfold build_transaction_cache in Hb.
      apply (transaction_cache_loop_others period_ranges guids g tree Hg) in Hb.
      rewrite lookup_empty in Hb. congruence.
Qed.

End PeriodsOfTotals.

(** X13, at an input: the totals of the first example key. *)
Lemma cache_periods_within_witness :
  exists filtered_caches totals,
    build_all_filtered_caches (fun _ _ => Ok true) example_store
        example_periods {[example_key2]} = Ok filtered_caches /\
    filtered_caches !! example_key2 = Some totals /\
    periods_within 2 totals.
Proof.
  assert (Hok : match build_all_filtered_caches (fun _ _ => Ok true)
                        example_store example_periods {[example_key2]} with
                | Ok filtered_caches =>
                    bool_decide (is_Some (filtered_caches !! example_key2))
                | Raise _ => false
                end = true) by (vm_compute; reflexivity).
  destruct (build_all_filtered_caches (fun _ _ => Ok true) example_store
              example_periods {[example_key2]})
    as [filtered_caches|ex] eqn:Hb; [|discriminate Hok].
  apply bool_decide_eq_true_1 in Hok as [totals Hk].
  exists filtered_caches, totals. split; [reflexivity|]. split; [exact Hk|].
  exact (proj1 (cache_periods_within (fun _ _ => Ok true) example_store
                  example_periods)
           {[example_key2]} filtered_caches example_key2 totals Hb Hk).
Defined.

(** ** The parsed definition *)

(** *** Invariants of the parser *)

Ltac split_invariant :=
  split; [|split; [|split; [|split; [|split; [|split]]]]].

Lemma initial_parser_invariant : parser_invariant 0 initial_state.
Proof.
  unfold parser_invariant, initial_state.
  cbn [ps_references ps_elements ps_config]. split_invariant.
  - intros n l H. by rewrite lookup_empty in H.
  - intros i e n H. by rewrite lookup_nil in H.
  - intros i e d f n H. by rewrite lookup_nil in H.
  - intros i j ei ej _ H. by rewrite lookup_nil in H.
  - intros i e H. by rewrite lookup_nil in H.
  - split; [by left|by right].
  - unfold last_account_ok. cbn. done.
Qed.

Lemma parser_invariant_skip ln st :
  parser_invariant ln st -> parser_invariant (S ln) st.
Proof.
  intros (I1 & I2 & I3 & I4 & I5 & I6 & I7). split_invariant; try done.
  intros i e H. apply I5 in H. lia.
Qed.

Lemma parser_invariant_config ln st c :
  parser_invariant ln st -> config_ok c ->
  parser_invariant ln (with_config st c).
Proof.
  intros (I1 & I2 & I3 & I4 & I5 & I6 & I7) Hc. by split_invariant.
Qed.

Lemma line_num_update_account f e : line_num (update_account f e) = line_num e.
Proof. unfold update_account. by destruct (kind e). Qed.

Lemma is_account_update_account f e :
  is_account (update_account f e) = is_account e.
Proof. unfold update_account, is_account. by destruct (kind e) eqn:E; cbn; rewrite ?E. Qed.

Lemma update_account_other f e :
  is_account e = false -> update_account f e = e.
Proof. unfold update_account, is_account. by destruct (kind e). Qed.

Lemma lookup_alter_row f i (l : list ReportElement) j e' :
  alter (update_account f) i l !! j = Some e' ->
  exists e, l !! j = Some e /\ line_num e' = line_num e /\
            reference e' = reference e /\ is_account e' = is_account e /\
            (is_account e = false -> e' = e).
Proof.
  destruct (decide (i = j)) as [->|Hne].
  - rewrite list_lookup_alter_eq. intros H.
    apply fmap_Some in H as (e & He & ->). exists e. split; [done|].
    rewrite line_num_update_account, reference_update_account,
            is_account_update_account.
    repeat split; try done. apply update_account_other.
  - rewrite list_lookup_alter_ne by done. intros H. exists e'. by repeat split.
Qed.

Lemma lookup_alter_row_inv f i (l : list ReportElement) j e :
  l !! j = Some e ->
  exists e', alter (update_account f) i l !! j = Some e' /\
             line_num e' = line_num e /\ reference e' = reference e /\
             is_account e' = is_account e.
Proof.
  intros H. destruct (decide (i = j)) as [->|Hne].
  - rewrite list_lookup_alter_eq, H. eexists. split; [reflexivity|].
    by rewrite line_num_update_account, reference_update_account,
               is_account_update_account.
  - rewrite list_lookup_alter_ne by done. by exists e.
Qed.

Lemma last_alter f i (l : list ReportElement) e' :
  last (alter (update_account f) i l) = Some e' ->
  exists e, last l = Some e /\ is_account e' = is_account e.
Proof.
  rewrite !last_lookup, length_alter. intros H.
  apply lookup_alter_row in H as (e & He & _ & _ & Ha & _). by exists e.
Qed.

Lemma parser_invariant_alter ln st f i :
  parser_invariant ln st -> ps_last_account st = Some i ->
  parser_invariant ln
    (with_elements st (alter (update_account f) i (ps_elements st))).
Proof.
  intros (I1 & I2 & I3 & I4 & I5 & I6 & I7) Hlast.
  unfold with_elements. split_invariant;
    cbn [ps_references ps_elements ps_config].
  - intros n l H. destruct (I1 n l H) as (Hn & j & e & He & Hr & Hl).
    split; [done|].
    destruct (lookup_alter_row_inv f i _ j e He) as (e' & He' & Hl' & Hr' & _).
    exists j, e'. split; [done|]. by rewrite Hl', Hr'.
  - intros j e' n He' Hr Hn.
    apply lookup_alter_row in He' as (e & He & Hl & Hr' & _).
    rewrite Hl. apply (I2 j e n He); [|done]. by rewrite <- Hr'.
  - intros j e' d fo n He' Hk Hn.
    apply lookup_alter_row in He' as (e & He & _ & _ & Ha & Hsame).
    assert (Hacc : is_account e = false).
    { rewrite <- Ha. unfold is_account. by rewrite Hk. }
    rewrite (Hsame Hacc) in Hk.
    destruct (I3 j e d fo n He Hk Hn) as (k & ek & Hlt & Hek & Hrk).
    destruct (lookup_alter_row_inv f i _ k ek Hek) as (ek' & Hek' & _ & Hr' & _).
    exists k, ek'. split; [done|]. split; [done|]. by rewrite Hr'.
  - intros j k ej ek Hlt Hj Hk.
    apply lookup_alter_row in Hj as (ej0 & Hj & Hlj & _).
    apply lookup_alter_row in Hk as (ek0 & Hk & Hlk & _).
    rewrite Hlj, Hlk. by eapply I4.
  - intros j e' He'.
    apply lookup_alter_row in He' as (e & He & Hl & _). rewrite Hl. by eapply I5.
  - done.
  - unfold last_account_ok in *. cbn [ps_last_account ps_elements].
    rewrite Hlast in *. destruct I7 as (Hlen & e & He & Ha).
    rewrite length_alter. split; [done|].
    destruct (lookup_alter_row_inv f i _ i e He) as (e' & He' & _ & _ & Ha').
    exists e'. split; [done|]. by rewrite Ha'.
Qed.

Lemma record_reference_lookup refs cr ln n l :
  (forall m, cr = Some m -> refs !! m = None) ->
  record_reference refs cr ln !! n = Some l ->
  refs !! n = Some l \/ (cr = Some n /\ n <> 0%N /\ l = ln).
Proof.
  intros Hfresh. unfold record_reference. destruct cr as [m|]; [|by left].
  destruct (N.eqb_spec m 0); [by left|].
  destruct (decide (n = m)) as [->|Hne].
  - rewrite lookup_insert_eq. intros [= <-]. by right.
  - rewrite lookup_insert_ne by done. by left.
Qed.

Lemma parser_invariant_append ln st cr k b :
  parser_invariant ln st ->
  (forall m, cr = Some m -> ps_references st !! m = None) ->
  (forall d f n, k = CalcElement d f -> n ∈ find_refs f ->
                 is_Some (ps_references st !! n)) ->
  b = is_account (mkElement (S ln) cr k) ->
  parser_invariant (S ln) (append_element st (S ln) cr k b).
Proof.
  intros (I1 & I2 & I3 & I4 & I5 & I6 & I7) Hfresh Hcalc Hb.
  unfold append_element. split_invariant;
    cbn [ps_references ps_elements ps_config].
  - intros n l H.
    apply (record_reference_lookup _ _ _ _ _ Hfresh) in H as [H|(-> & Hn & ->)].
    + destruct (I1 n l H) as (Hn & i & e & He & Hr & Hl). split; [done|].
      exists i, e. split; [|done]. by apply lookup_app_l_Some.
    + split; [done|]. exists (length (ps_elements st)), (mkElement (S ln) (Some n) k).
      split; [|done]. rewrite lookup_app_r by lia. by rewrite Nat.sub_diag.
  - intros i e n He Hr Hn.
    apply lookup_app_Some in He as [He|[Hlen He]].
    + apply record_reference_mono; [done|]. by eapply I2.
    + apply list_lookup_singleton_Some in He as [_ <-]. cbn in Hr. subst cr.
      cbn [line_num]. by apply record_reference_new.
  - intros i e d f n He Hk Hn.
    apply lookup_app_Some in He as [He|[Hlen He]].
    + destruct (I3 i e d f n He Hk Hn) as (j & e' & Hlt & He' & Hr).
      exists j, e'. split; [done|]. split; [|done]. by apply lookup_app_l_Some.
    + apply list_lookup_singleton_Some in He as [Hi <-]. cbn in Hk. subst k.
      destruct (Hcalc d f n eq_refl Hn) as [l Hl].
      destruct (I1 n l Hl) as (_ & j & e' & He' & Hr & _).
      exists j, e'. split; [|split; [by apply lookup_app_l_Some|done]].
      apply lookup_lt_Some in He'. lia.
  - intros i j ei ej Hlt Hi Hj.
    apply lookup_app_Some in Hj as [Hj|[Hlen Hj]].
    + apply lookup_app_Some in Hi as [Hi|[Hlen' _]].
      * by eapply I4.
      * apply lookup_lt_Some in Hj. lia.
    + apply list_lookup_singleton_Some in Hj as [Hj <-]. cbn [line_num].
      apply lookup_app_Some in Hi as [Hi|[Hlen' _]]; [|lia].
      apply I5 in Hi. lia.
  - intros i e He.
    apply lookup_app_Some in He as [He|[Hlen He]].
    + apply I5 in He. lia.
    + apply list_lookup_singleton_Some in He as [_ <-]. cbn [line_num]. lia.
  - done.
  - unfold last_account_ok. cbn [ps_last_account ps_elements].
    subst b. destruct (is_account _) eqn:Ha.
    + rewrite length_app. cbn [length]. split; [lia|].
      exists (mkElement (S ln) cr k). split; [|done].
      rewrite lookup_app_r by lia. by rewrite Nat.sub_diag.
    + intros e. rewrite last_snoc. by intros [= <-].
Qed.

Lemma str_in_two s a b : str_in s [a; b] = true -> s = a \/ s = b.
Proof.
  unfold str_in. cbn [existsb]. rewrite orb_false_r.
  intros H. apply orb_true_iff in H as [H|H]; apply String.eqb_eq in H; auto.
Qed.

Lemma parse_config_line_ok today ln c line c' :
  config_ok c -> parse_config_line today ln c line = Ok c' -> config_ok c'.
Proof.
  intros [Hp Ha]. unfold parse_config_line.
  destruct (split_once ":" line) as [[key value]|]; [|by intros [= <-]].
  destruct (String.eqb _ "START_DATE").
  { destruct (parse_date _ _); cbn [mbind result_bind]; [|discriminate].
    by intros [= <-]. }
  destruct (String.eqb _ "END_DATE").
  { destruct (parse_date _ _); cbn [mbind result_bind]; [|discriminate].
    by intros [= <-]. }
  destruct (String.eqb _ "PERIOD").
  { destruct (str_in _ _) eqn:E; [|discriminate]. intros [= <-].
    apply str_in_two in E. by split. }
  destruct (String.eqb _ "ACCOUNT_NAME").
  { destruct (str_in _ _) eqn:E; [|discriminate]. intros [= <-].
    apply str_in_two in E. by split. }
  destruct (String.eqb _ "GNUCASH_FILE"); [by intros [= <-]|].
  destruct (String.eqb _ "CSV_FILE"); [by intros [= <-]|].
  destruct (String.eqb _ "INVERT_INCOME"); [|by intros [= <-]].
  destruct (str_in _ _); [by intros [= <-]|].
  destruct (str_in _ _); [by intros [= <-]|discriminate].
Qed.

Lemma find_none_refs (refs : gmap N nat) l :
  List.find (fun ref_num => negb (bool_decide (is_Some (refs !! ref_num)))) l
    = None ->
  forall n, n ∈ l -> is_Some (refs !! n).
Proof.
  intros H n Hn. apply list_elem_of_In in Hn.
  pose proof (List.find_none _ _ H n Hn) as Hf. cbn in Hf.
  apply negb_false_iff, bool_decide_eq_true in Hf. done.
Qed.

Lemma parse_command_invariant ln cr st line st' :
  parser_invariant ln st ->
  (forall m, cr = Some m -> ps_references st !! m = None) ->
  parse_command (S ln) cr st line = Ok st' ->
  parser_invariant (S ln) st'.
Proof.
  intros Hinv Hfresh. unfold parse_command.
  assert (Happ : forall k,
            (forall d f, k <> CalcElement d f) ->
            parser_invariant (S ln)
              (append_element st (S ln) cr k
                 (is_account (mkElement (S ln) cr k)))).
  { intros k Hk. apply parser_invariant_append; try done.
    intros d f n ->. by destruct (Hk d f). }
  destruct (startswith "SECTION:" line);
    [intros [= <-]; by apply (Happ (SectionElement _))|].
  destruct (startswith "TITLE:" line);
    [intros [= <-]; by apply (Happ (TitleElement _))|].
  destruct (startswith "ACCOUNT:" line || startswith "ACCOUNTS:" line).
  { destruct (parse_account_content _ _) as [a|]; cbn [mbind result_bind];
      [|discriminate].
    intros [= <-]. by apply (Happ (AccountElem a)). }
  destruct (startswith "FILTER:" line).
  { destruct (ps_last_account st) eqn:Hl; [|discriminate].
    intros [= <-]. by apply parser_invariant_skip, parser_invariant_alter. }
  destruct (startswith "REGEX:" line).
  { destruct (ps_last_account st) eqn:Hl; [|discriminate].
    intros [= <-]. by apply parser_invariant_skip, parser_invariant_alter. }
  destruct (startswith "PLACEHOLDER:" line).
  { destruct (split_once _ _) as [[d v]|]; [|discriminate].
    destruct (map_result _ _) as [vs|]; cbn [mbind result_bind]; [|discriminate].
    intros [= <-]. by apply (Happ (PlaceholderElement _ vs)). }
  destruct (startswith "SUM:" line);
    [intros [= <-]; by apply (Happ (SumElement _))|].
  destruct (startswith "CALC:" line).
  { destruct (split_once _ _) as [[d v]|]; [|discriminate].
    destruct (List.find _ _) eqn:Hfind; [discriminate|].
    intros [= <-].
    apply (parser_invariant_append ln st cr (CalcElement (strip d) (strip v))
             false Hinv Hfresh); [|done].
    intros d' f' n [= <- <-] Hn. by eapply find_none_refs. }
  destruct (upper line =? "BLANK:")%string; [|discriminate].
  intros [= <-].
  apply (parser_invariant_append ln st None BlankElement false Hinv); try done.
Qed.

Lemma process_line_invariant today ln st raw st' :
  parser_invariant ln st ->
  process_line today (S ln) st raw = Ok st' ->
  parser_invariant (S ln) st'.
Proof.
  intros Hinv. unfold process_line. fold (clean_line raw).
  destruct (clean_line raw) as [|c line] eqn:Hline.
  { intros [= <-]. by apply parser_invariant_skip. }
  intros H.
  assert (Hcfg : forall l c',
            parse_config_line today (S ln) (ps_config st) l = Ok c' ->
            parser_invariant (S ln) (with_config st c')).
  { intros l c' Hc. apply parser_invariant_config;
      [by apply parser_invariant_skip|].
    eapply parse_config_line_ok; [|exact Hc]. apply Hinv. }
  destruct (match_reference (String c line)) as [[n rest]|].
  - destruct (ps_references st !! n) eqn:Hn; [discriminate|].
    cbn [mbind result_bind] in H.
    destruct (contains ":" rest && _).
    + destruct (parse_config_line _ _ _ _) eqn:Hc; cbn [mbind result_bind] in H;
        [|discriminate].
      injection H as <-. by eapply Hcfg.
    + eapply parse_command_invariant; [exact Hinv| |exact H].
      by intros m [= <-].
  - cbn [mbind result_bind] in H.
    destruct (contains ":" (String c line) && _).
    + destruct (parse_config_line _ _ _ _) eqn:Hc; cbn [mbind result_bind] in H;
        [|discriminate].
      injection H as <-. by eapply Hcfg.
    + eapply parse_command_invariant; [exact Hinv| |exact H]. done.
Qed.

Lemma process_lines_parser_invariant today lines : forall ln st st',
  parser_invariant ln st ->
  process_lines today ln st lines = Ok st' ->
  parser_invariant (ln + length lines) st'.
Proof.
  induction lines as [|raw lines IH]; intros ln st st' Hinv H.
  - cbn in H. injection H as <-. by rewrite Nat.add_0_r.
  - cbn [process_lines] in H.
    destruct (process_line today (S ln) st raw) as [st1|] eqn:H1; [|discriminate].
    cbn [mbind result_bind] in H. cbn [length].
    rewrite Nat.add_succ_r, <- Nat.add_succ_l. eapply IH; [|exact H].
    by eapply process_line_invariant.
Qed.

Lemma parse_report_definition_state today lines config elements references :
  parse_report_definition today lines = Ok (config, elements, references) ->
  exists st start end_ period_ranges,
    process_lines today 0 initial_state lines = Ok st /\
    elements = ps_elements st /\ references = ps_references st /\
    config = set_config_end (set_config_start (ps_config st) start) end_ /\
    get_period_ranges start end_ (period (ps_config st)) = Ok period_ranges /\
    check_placeholders (length period_ranges) elements = Ok tt /\
    parser_invariant (length lines) st.
Proof.
  unfold parse_report_definition. intros H.
  destruct (process_lines today 0 initial_state lines) as [st|] eqn:Hst;
    [|discriminate].
  cbn [mbind result_bind] in H.
  destruct (match start_date (ps_config st) with
            | Some d => Ok d | None => parse_date today "BY" end)
    as [start|]; [|discriminate].
  cbn [mbind result_bind] in H.
  destruct (match end_date (ps_config st) with
            | Some d => Ok d | None => parse_date today "EY" end)
    as [end_|]; [|discriminate].
  cbn [mbind result_bind] in H.
  cbn [period set_config_end set_config_start] in H.
  destruct (get_period_ranges start end_ (period (ps_config st)))
    as [pr|] eqn:Hpr; [|discriminate].
  cbn [mbind result_bind] in H.
  destruct (check_placeholders (length pr) (ps_elements st)) as [[]|] eqn:Hc;
    [|discriminate].
  cbn [mbind result_bind] in H. injection H as <- <- <-.
  exists st, start, end_, pr.
  split; [done|]. split; [done|]. split; [done|]. split; [done|].
  split; [done|]. split; [done|].
  apply (process_lines_parser_invariant today lines 0 initial_state st
           initial_parser_invariant Hst).
Qed.

(** *** The reference table of a parsed definition *)

(** X14. The reference table that [parse_report_definition] returns agrees
    with the elements: a number is in the table, with a line number,
    exactly when it is not zero and an element carries it as its reference
    and stands on that line. *)
Theorem references_agree_with_elements (today : date) (lines : list string)
    (config : ReportConfig) (elements : list ReportElement)
    (references : gmap N nat) :
  parse_report_definition today lines = Ok (config, elements, references) ->
  forall n l,
    references !! n = Some l <->
    n <> 0%N /\ exists e, e ∈ elements /\ reference e = Some n /\
                          line_num e = l.
Proof.
  intros H.
  apply parse_report_definition_state in H
    as (st & s & e & pr & _ & -> & -> & _ & _ & _ & Hinv).
  destruct Hinv as (I1 & I2 & _). intros n l. split.
  - intros Hn. destruct (I1 n l Hn) as (Hn0 & i & el & Hel & Hr & Hl).
    split; [done|]. exists el. split; [|done]. by eapply list_elem_of_lookup_2.
  - intros (Hn0 & el & Hel & Hr & <-).
    apply list_elem_of_lookup_1 in Hel as [i Hi]. by eapply I2.
Qed.

(** X14, at the example definition. *)
Lemma references_agree_with_elements_witness :
  exists config elements references,
    parse_report_definition (mkdate 2026 11 3) example_definition
      = Ok (config, elements, references) /\
    (references !! 2%N = Some 7%nat <->
     2%N <> 0%N /\ exists e, e ∈ elements /\ reference e = Some 2%N /\
                             line_num e = 7%nat).
Proof.
  eexists _, _, _. split; [reflexivity|].
  exact (references_agree_with_elements (mkdate 2026 11 3) example_definition
           _ _ _ eq_refl 2%N 7%nat).
Defined.

Lemma find_reference_first n (l : list ReportElement) : forall k j0 e0,
  l !! j0 = Some e0 -> reference e0 = Some n ->
  exists j e', (j <= j0)%nat /\ l !! j = Some e' /\ reference e' = Some n /\
    find_reference n (imap (fun i x => ((k + i)%nat, x)) l)
      = Some ((k + j)%nat, e').
Proof.
  induction l as [|x l IH]; intros k j0 e0 H0 Hr; [by rewrite lookup_nil in H0|].
  cbn [imap find_reference].
  destruct (reference x) as [m|] eqn:Hx.
  - destruct (N.eqb_spec m n) as [->|Hne].
    + exists 0%nat, x. split; [lia|]. split; [done|]. split; [done|].
      by rewrite Nat.add_0_r.
    + destruct j0 as [|j0]; [cbn in H0; congruence|]. cbn in H0.
      destruct (IH (S k) j0 e0 H0 Hr) as (j & e' & Hj & He' & Hr' & Hf).
      exists (S j), e'. split; [lia|]. split; [done|]. split; [done|].
      rewrite <- Nat.add_succ_comm.
      erewrite imap_ext; [exact Hf|]. intros i y _. cbn. f_equal. lia.
  - destruct j0 as [|j0]; [cbn in H0; congruence|]. cbn in H0.
    destruct (IH (S k) j0 e0 H0 Hr) as (j & e' & Hj & He' & Hr' & Hf).
    exists (S j), e'. split; [lia|]. split; [done|]. split; [done|].
    rewrite <- Nat.add_succ_comm.
    erewrite imap_ext; [exact Hf|]. intros i y _. cbn. f_equal. lia.
Qed.

(** X15. In a parsed definition every reference of a CALC formula resolves
    to an earlier row: for each number that the formula references, the
    element that [calculate_calc_values] finds for it stands before the
    CALC element in the element list, so its value has been computed when
    the CALC is evaluated. *)
Theorem calc_references_resolve_earlier (today : date) (lines : list string)
    (config : ReportConfig) (elements : list ReportElement)
    (references : gmap N nat) :
  parse_report_definition today lines = Ok (config, elements, references) ->
  forall i e description formula n,
    elements !! i = Some e -> kind e = CalcElement description formula ->
    n ∈ find_refs formula ->
    exists j e', (j < i)%nat /\ elements !! j = Some e' /\
                 reference e' = Some n /\
                 find_reference n (indexed elements) = Some (j, e').
Proof.
  intros H.
  apply parse_report_definition_state in H
    as (st & s & e & pr & _ & -> & -> & _ & _ & _ & Hinv).
  destruct Hinv as (_ & _ & I3 & _).
  intros i el d f n Hel Hk Hn.
  destruct (I3 i el d f n Hel Hk Hn) as (j0 & e0 & Hlt & He0 & Hr0).
  destruct (find_reference_first n (ps_elements st) 0 j0 e0 He0 Hr0)
    as (j & e' & Hj & He' & Hr' & Hf).
  exists j, e'. split; [lia|]. split; [done|]. split; [done|]. exact Hf.
Qed.

(** X15, at the example definition: the CALC row is element 4, its
    formula references 1 and 2. *)
Lemma calc_references_resolve_earlier_witness :
  exists config elements references e,
    parse_report_definition (mkdate 2026 11 3) example_definition
      = Ok (config, elements, references) /\
    elements !! 4%nat = Some e /\
    exists j e', (j < 4)%nat /\ elements !! j = Some e' /\
                 reference e' = Some 2%N /\
                 find_reference 2%N (indexed elements) = Some (j, e').
Proof.
  eexists _, _, _, _. split; [reflexivity|]. split; [reflexivity|].
  refine (calc_references_resolve_earlier (mkdate 2026 11 3)
            example_definition _ _ _ eq_refl 4%nat _ "Share" "[1] / [2]" 2%N
            eq_refl eq_refl _).
  vm_compute. apply list_elem_of_further, list_elem_of_here.
Defined.

(** *** The rows and the configuration of a parsed definition *)

(** X16. The elements of a parsed definition are in the order of their
    lines: each carries the number of a line of the file (from 1 to the
    number of lines), and an element that stands before another one comes
    from an earlier line, so no line makes two elements. *)
Theorem elements_in_line_order (today : date) (lines : list string)
    (config : ReportConfig) (elements : list ReportElement)
    (references : gmap N nat) :
  parse_report_definition today lines = Ok (config, elements, references) ->
  (forall i e, elements !! i = Some e ->
               (1 <= line_num e <= length lines)%nat) /\
  (forall i j ei ej, (i < j)%nat -> elements !! i = Some ei ->
                     elements !! j = Some ej ->
                     (line_num ei < line_num ej)%nat).
Proof.
  intros H.
  apply parse_report_definition_state in H
    as (st & s & e & pr & _ & -> & -> & _ & _ & _ & Hinv).
  destruct Hinv as (_ & _ & _ & I4 & I5 & _). by split.
Qed.

(** X16, at the example definition. *)
Lemma elements_in_line_order_witness :
  exists config elements references,
    parse_report_definition (mkdate 2026 11 3) example_definition
      = Ok (config, elements, references) /\
    (forall i e, elements !! i = Some e ->
                 (1 <= line_num e <= 9)%nat).
Proof.
  eexists _, _, _. split; [reflexivity|].
  exact (proj1 (elements_in_line_order (mkdate 2026 11 3) example_definition
                  _ _ _ eq_refl)).
Defined.

Lemma check_placeholders_Ok n elements :
  check_placeholders n elements = Ok tt ->
  forall i e d vs, elements !! i = Some e ->
                   kind e = PlaceholderElement d vs -> length vs = n.
Proof.
  induction elements as [|x l IH]; intros H i e d vs Hi Hk;
    [by rewrite lookup_nil in Hi|].
  cbn [check_placeholders] in H.
  destruct i as [|i]; cbn in Hi.
  - injection Hi as ->. rewrite Hk in H.
    destruct (Nat.eqb_spec (length vs) n); [done|discriminate].
  - apply (IH ltac:(destruct (kind x); try done;
                    by destruct (length _ =? n)%nat) i e d vs Hi Hk).
Qed.

(** X17. A parsed definition is ready for the calculator. The returned
    configuration has a start date and an end date (the defaults BY and EY
    when the file gives none), the period type [m] or [q] and the account
    name format [full_path] or [name_only]; the periods of these dates can
    be generated, and every PLACEHOLDER row has exactly one value for each
    of them. *)
Theorem parsed_definition_ready (today : date) (lines : list string)
    (config : ReportConfig) (elements : list ReportElement)
    (references : gmap N nat) :
  parse_report_definition today lines = Ok (config, elements, references) ->
  exists start end_ period_ranges,
    start_date config = Some start /\ end_date config = Some end_ /\
    (period config = "m" \/ period config = "q") /\
    (account_name config = "full_path" \/ account_name config = "name_only") /\
    get_period_ranges start end_ (period config) = Ok period_ranges /\
    forall i e description values,
      elements !! i = Some e ->
      kind e = PlaceholderElement description values ->
      length values = length period_ranges.
Proof.
  intros H.
  apply parse_report_definition_state in H
    as (st & s & e & pr & _ & -> & -> & -> & Hpr & Hc & Hinv).
  destruct Hinv as (_ & _ & _ & _ & _ & [Hp Ha] & _).
  exists s, e, pr. cbn [start_date end_date period account_name
                         set_config_end set_config_start].
  repeat split; try done. by apply check_placeholders_Ok.
Qed.

(** X17, at the example definition. *)
Lemma parsed_definition_ready_witness :
  exists config elements references start end_ period_ranges,
    parse_report_definition (mkdate 2026 11 3) example_definition
      = Ok (config, elements, references) /\
    start_date config = Some start /\ end_date config = Some end_ /\
    (period config = "m" \/ period config = "q") /\
    (account_name config = "full_path" \/ account_name config = "name_only") /\
    get_period_ranges start end_ (period config) = Ok period_ranges /\
    forall i e description values,
      elements !! i = Some e ->
      kind e = PlaceholderElement description values ->
      length values = length period_ranges.
Proof.
  eexists _, _, _.
  destruct (parsed_definition_ready (mkdate 2026 11 3) example_definition
              _ _ _ eq_refl) as (s & e & pr & H).
  exists s, e, pr. split; [reflexivity|]. exact H.
Defined.

(** *** FILTER lines *)

Lemma startswith_first a p s :
  startswith (String a p) s = true -> exists r, s = String a r.
Proof.
  unfold startswith. destruct s as [|c s]; cbn; [discriminate|].
  destruct (ascii_dec a c) as [->|]; [|discriminate]. by eexists.
Qed.

Lemma parse_command_filter ln cr st line :
  startswith "FILTER:" line = true ->
  parse_command ln cr st line =
    match ps_last_account st with
    | None => Raise (ValueError (FilterWithoutAccount ln))
    | Some i =>
        Ok (with_elements st
              (alter (update_account (set_filter (strip (drop_chars 7 line))))
                     i (ps_elements st)))
    end.
Proof.
  intros HF. unfold parse_command.
  destruct (startswith "SECTION:" line) eqn:H1; [clash HF H1|].
  destruct (startswith "TITLE:" line) eqn:H2; [clash HF H2|].
  destruct (startswith "ACCOUNT:" line) eqn:H3; [clash HF H3|].
  destruct (startswith "ACCOUNTS:" line) eqn:H4; [clash HF H4|].
  cbn [orb]. by rewrite HF.
Qed.

Lemma process_line_filter today ln st raw :
  startswith "FILTER:" (clean_line raw) = true ->
  process_line today ln st raw =
    match ps_last_account st with
    | None => Raise (ValueError (FilterWithoutAccount ln))
    | Some i =>
        Ok (with_elements st
              (alter (update_account
                        (set_filter (strip (drop_chars 7 (clean_line raw)))))
                     i (ps_elements st)))
    end.
Proof.
  intros HF. unfold process_line. fold (clean_line raw).
  destruct (startswith_first _ _ _ HF) as [r Hr]. rewrite Hr in *.
  cbn [match_reference]. cbn [Ascii.eqb Bool.eqb].
  cbn [mbind result_bind].
  assert (Hc : existsb (fun k => startswith k (String "F" r)) commands = true).
  { unfold commands. cbn [existsb]. rewrite HF. by rewrite !orb_true_r. }
  rewrite Hc, andb_false_r. by apply parse_command_filter.
Qed.

Lemma last_account_of_account st init e :
  last_account_ok st -> ps_elements st = (init ++ [e])%list ->
  is_account e = true -> ps_last_account st = Some (length init).
Proof.
  unfold last_account_ok. intros H Hel Ha.
  destruct (ps_last_account st) as [i|].
  - destruct H as [Hlen _]. rewrite Hel, length_app in Hlen. cbn in Hlen.
    f_equal. lia.
  - specialize (H e). rewrite Hel, last_snoc in H. specialize (H eq_refl).
    congruence.
Qed.

Lemma last_account_of_other st :
  last_account_ok st ->
  (ps_elements st = [] \/
   exists init e, ps_elements st = (init ++ [e])%list /\ is_account e = false) ->
  ps_last_account st = None.
Proof.
  unfold last_account_ok. intros H Hel.
  destruct (ps_last_account st) as [i|]; [|done].
  destruct H as (Hlen & e0 & He0 & Ha0).
  destruct Hel as [Hel|(init & e & Hel & Ha)].
  - rewrite Hel in Hlen. cbn in Hlen. lia.
  - rewrite Hel in Hlen, He0. rewrite length_app in Hlen. cbn in Hlen.
    rewrite lookup_app_r in He0 by lia.
    replace (i - length init)%nat with 0%nat in He0 by lia.
    cbn in He0. injection He0 as <-. congruence.
Qed.

(** X18. A FILTER line applies to the last row, which must be an account
    row. When the lines before it parse and the last element so far is an
    account row, the line sets the filter of that row to the text after
    [FILTER:] and changes nothing else of the elements and the reference
    table; when there is no element yet, or the last element is no account
    row, parsing raises the error that FILTER must follow ACCOUNT or
    ACCOUNTS, with the number of the line. *)
Theorem filter_applies_to_last_account (today : date)
    (lines1 : list string) (line : string) (st : parser_state) :
  process_lines today 0 initial_state lines1 = Ok st ->
  startswith "FILTER:" (clean_line line) = true ->
  (forall init e a,
     ps_elements st = (init ++ [e])%list -> kind e = AccountElem a ->
     exists st',
       process_lines today 0 initial_state (lines1 ++ [line]) = Ok st' /\
       ps_elements st' =
         (init ++ [mkElement (line_num e) (reference e)
                     (AccountElem
                        (set_filter (strip (drop_chars 7 (clean_line line)))
                                    a))])%list /\
       ps_references st' = ps_references st) /\
  ((ps_elements st = [] \/
    exists init e, ps_elements st = (init ++ [e])%list /\
                   is_account e = false) ->
   forall lines2,
     parse_report_definition today (lines1 ++ line :: lines2)
       = Raise (ValueError (FilterWithoutAccount (length lines1 + 1)))).
Proof.
  intros Hst HF.
  pose proof (process_lines_parser_invariant today lines1 0 initial_state st
                initial_parser_invariant Hst) as Hinv.
  destruct Hinv as (_ & _ & _ & _ & _ & _ & I7).
  split.
  - intros init e a Hel Hk.
    assert (Ha : is_account e = true) by (unfold is_account; by rewrite Hk).
    pose proof (last_account_of_account st init e I7 Hel Ha) as Hlast.
    rewrite process_lines_app, Hst. cbn [mbind result_bind process_lines].
    rewrite process_line_filter, Hlast by done. cbn [mbind result_bind].
    eexists. split; [reflexivity|]. cbn [with_elements ps_elements ps_references].
    split; [|done]. rewrite Hel.
    rewrite alter_app_r_alt by lia. rewrite Nat.sub_diag. cbn [alter list_alter].
    unfold update_account. by rewrite Hk.
  - intros Hother lines2.
    pose proof (last_account_of_other st I7 Hother) as Hlast.
    unfold parse_report_definition.
    rewrite process_lines_app, Hst. cbn [mbind result_bind process_lines].
    rewrite process_line_filter, Hlast by done. cbn [mbind result_bind].
    do 3 f_equal. lia.
Qed.

(** X18, at an input: a FILTER after an ACCOUNT row. *)
Lemma filter_applies_to_last_account_witness :
  exists st st',
    process_lines (mkdate 2026 11 3) 0 initial_state ["ACCOUNT: A"] = Ok st /\
    process_lines (mkdate 2026 11 3) 0 initial_state
        (["ACCOUNT: A"] ++ ["FILTER: B "]) = Ok st' /\
    ps_elements st' =
      [mkElement 1 None
         (AccountElem (mkAccountElement "A" None None false (Some "B") [] []))].
Proof.
  eexists _.
  destruct (proj1 (filter_applies_to_last_account (mkdate 2026 11 3)
                     ["ACCOUNT: A"] "FILTER: B " _ eq_refl eq_refl)
              [] (mkElement 1 None
                    (AccountElem (mkAccountElement "A" None None false None
                                                   [] [])))
              (mkAccountElement "A" None None false None [] [])
              eq_refl eq_refl) as (st' & H1 & H2 & _).
  exists st'. split; [reflexivity|]. split; [exact H1|exact H2].
Defined.

(** ** The calculation of the report *)

(** *** The exceptions of the arithmetic *)

Lemma fix_finite_error s c e ex :
  fix_finite s c e = Raise ex -> ex = Overflow.
Proof.
  unfold fix_finite. destruct (c =? 0)%N; [discriminate|].
  destruct (Etop <? _); [by intros [= <-]|].
  destruct (e <? _); [|discriminate].
  destruct (if prec <? _ then _ else _) as [c2 e2].
  destruct (Etop <? e2); [by intros [= <-]|discriminate].
Qed.

Lemma fix_dec_error d ex : fix_dec d = Raise ex -> ex = Overflow.
Proof. destruct d; cbn; try discriminate. apply fix_finite_error. Qed.

Lemma check_nans_error a b ex :
  check_nans a b = Some (Raise ex) -> arithmetic_error ex.
Proof.
  unfold check_nans, arithmetic_error.
  destruct (is_snan a || is_snan b); [intros [= <-]; auto|].
  destruct (is_nan a); [intros [= H]; apply fix_dec_error in H; auto|].
  destruct (is_nan b); [intros [= H]; apply fix_dec_error in H; auto|].
  discriminate.
Qed.

Ltac arith_error :=
  unfold arithmetic_error;
  repeat match goal with
  | H : fix_finite _ _ _ = Raise _ |- _ => apply fix_finite_error in H; subst
  | H : Raise _ = Raise _ |- _ => injection H as <-
  | H : Ok _ = Raise _ |- _ => discriminate H
  | H : (if ?c then _ else _) = Raise _ |- _ => destruct c
  | H : (let '(_, _) := ?p in _) = Raise _ |- _ => destruct p
  | H : match ?d with DFin _ _ _ => _ | _ => _ end = Raise _ |- _ => destruct d
  end; auto.

Ltac by_cases a b Hn :=
  first [ discriminate
        | intros [= <-]; by eapply check_nans_error
        | destruct a, b; intros H; cbn [is_zero sign_of] in H; arith_error ].

Lemma add_error a b ex : add a b = Raise ex -> arithmetic_error ex.
Proof.
  unfold add. destruct (check_nans a b) as [[r|e]|] eqn:Hn; by_cases a b Hn.
Qed.

Lemma neg_error d ex : neg d = Raise ex -> arithmetic_error ex.
Proof.
  unfold neg. destruct (check_nans d d) as [[r|e]|] eqn:Hn.
  - discriminate.
  - intros [= <-]. by eapply check_nans_error.
  - destruct d; intros H; arith_error.
Qed.

Lemma mul_error a b ex : mul a b = Raise ex -> arithmetic_error ex.
Proof.
  unfold mul. destruct (check_nans a b) as [[r|e]|] eqn:Hn; by_cases a b Hn.
Qed.

Lemma sub_error a b ex : sub a b = Raise ex -> arithmetic_error ex.
Proof.
  unfold sub. destruct (check_nans a b) as [[r|e]|] eqn:Hn.
  - discriminate.
  - intros [= <-]. by eapply check_nans_error.
  - apply add_error.
Qed.

Lemma div_error a b ex : div a b = Raise ex -> arithmetic_error ex.
Proof.
  unfold div. destruct (check_nans a b) as [[r|e]|] eqn:Hn; by_cases a b Hn.
Qed.

Lemma quantize_error d q ex : quantize d q = Raise ex -> arithmetic_error ex.
Proof.
  unfold quantize. destruct (check_nans d q) as [[r|e]|] eqn:Hn; by_cases d q Hn.
Qed.

Lemma ne_zero_error d ex : ne_zero d = Raise ex -> arithmetic_error ex.
Proof. destruct d as [| |s [|] p]; cbn; intros H; arith_error. Qed.

Lemma apply_one_error op value ex :
  apply_one op value = Raise ex -> arithmetic_error ex.
Proof.
  unfold apply_one. destruct (operate op value) as [v|e] eqn:Ho.
  - cbn [mbind result_bind]. apply quantize_error.
  - cbn [mbind result_bind]. intros [= <-]. revert Ho.
    unfold operate. destruct op as [operator operand].
    destruct (String.eqb operator "*"); [apply mul_error|].
    destruct (String.eqb operator "/").
    { destruct (ne_zero operand) as [[|]|e'] eqn:Hz;
        [apply div_error|discriminate|].
      intros [= <-]. by eapply ne_zero_error. }
    destruct (String.eqb operator "+"); [apply add_error|].
    destruct (String.eqb operator "-"); [apply sub_error|].
    destruct (String.eqb operator "%"); [apply mul_error|discriminate].
Qed.

Lemma map_result_error {A B} (f : A -> result B) (P : exn -> Prop) l ex :
  (forall x e, x ∈ l -> f x = Raise e -> P e) ->
  map_result f l = Raise ex -> P ex.
Proof.
  induction l as [|x l IH]; intros Hf; [discriminate|].
  cbn [map_result]. destruct (f x) as [y|e] eqn:Hx.
  - cbn [mbind result_bind].
    destruct (map_result f l) as [ys|e] eqn:Hl; [discriminate|].
    cbn [mbind result_bind]. intros [= <-]. apply IH; [|done].
    intros z e' Hz. apply Hf. by right.
  - cbn [mbind result_bind]. intros [= <-]. by apply (Hf x); [left|].
Qed.

Lemma map_result_length {A B} (f : A -> result B) l rs :
  map_result f l = Ok rs -> length rs = length l.
Proof. intros H. by apply map_result_Ok_lookup in H as [? _]. Qed.

Lemma sum_decimals_error vs : forall acc ex,
  sum_decimals acc vs = Raise ex -> arithmetic_error ex.
Proof.
  induction vs as [|v vs IH]; intros acc ex; [discriminate|].
  cbn [sum_decimals]. destruct (add acc v) as [acc'|e] eqn:Ha.
  - cbn [mbind result_bind]. apply IH.
  - cbn [mbind result_bind]. intros [= <-]. by eapply add_error.
Qed.

(** *** The values of an account row *)

Lemma add_children_error accounts : forall fuel parent guids ex,
  add_children fuel accounts parent guids = Raise ex -> ex = RecursionError.
Proof.
  induction fuel as [|fuel IH]; intros parent guids ex; cbn [add_children];
    [by intros [= <-]|].
  match goal with
  | |- ?f accounts guids = Raise ex -> _ =>
      cut (forall items gs, f items gs = Raise ex -> ex = RecursionError);
        [intros Hcut; apply Hcut|]
  end.
  induction items as [|[g account] items IHi]; intros gs; [discriminate|].
  destruct (parent_guid account) as [pg|]; [|apply IHi].
  destruct (String.eqb pg parent); [|apply IHi].
  destruct (add_children fuel accounts g (gs ++ [g])) as [guids'|e] eqn:Hc;
    cbn [mbind result_bind].
  - apply IHi.
  - intros [= <-]. by eapply IH.
Qed.

Lemma calculate_account_values_shape frames elem pr accounts config tc fc :
  match calculate_account_values frames elem pr accounts config tc fc with
  | Ok values => length (raw values) = length pr /\
                 length (final values) = length pr
  | Raise ex => arithmetic_error ex \/ ex = RecursionError
  end.
Proof.
  unfold calculate_account_values.
  destruct (lookup_account (guid elem) accounts) as [account|];
    [|cbn [raw final]; by rewrite length_replicate].
  destruct (if recursive elem then _ else _) as [target_guids|e] eqn:Ht;
    cbn [mbind result_bind].
  2:{ right. destruct (recursive elem); [|discriminate].
      by eapply add_children_error. }
  destruct (map_result _ (seq 0 (length pr))) as [raw0|e] eqn:Hraw0;
    cbn [mbind result_bind].
  2:{ left. eapply (map_result_error _ arithmetic_error); [|exact Hraw0].
      intros p e' _. apply sum_decimals_error. }
  apply map_result_length in Hraw0. rewrite length_seq in Hraw0.
  set (invert := invert_income config && is_income account).
  destruct (if invert then map_result neg raw0 else Ok raw0)
    as [raw1|e] eqn:Hraw1; cbn [mbind result_bind].
  2:{ left. destruct invert; [|discriminate].
      eapply (map_result_error _ arithmetic_error); [|exact Hraw1].
      intros v e' _. apply neg_error. }
  assert (Hlen1 : length raw1 = length pr).
  { destruct invert; [|by injection Hraw1 as <-].
    apply map_result_length in Hraw1. lia. }
  match goal with
  | |- match (x ← ?w; _) with _ => _ end =>
      destruct w as [[[filtered regex_filtered] working]|e] eqn:Hw
  end; cbn [mbind result_bind].
  2:{ left. destruct (needs_cache elem); [|discriminate].
      destruct (fc !! key_of_account elem) as [totals|]; [|discriminate].
      destruct (map_result _ (seq 0 (length pr))) as [fv|e'] eqn:Hfv;
        cbn [mbind result_bind] in Hw.
      - by destruct (_ || _); [|destruct (truthy_str _)].
      - injection Hw as <-.
        eapply (map_result_error _ arithmetic_error); [|exact Hfv].
        intros p e'' _. destruct invert; [apply neg_error|discriminate]. }
  assert (Hlenw : length working = length pr).
  { destruct (needs_cache elem); [|by injection Hw as <- <- <-].
    destruct (fc !! key_of_account elem) as [totals|];
      [|by injection Hw as <- <- <-].
    destruct (map_result _ (seq 0 (length pr))) as [fv|e'] eqn:Hfv;
      cbn [mbind result_bind] in Hw; [|discriminate].
    apply map_result_length in Hfv. rewrite length_seq in Hfv.
    destruct (_ || _); [by injection Hw as <- <- <-|].
    destruct (truthy_str _); by injection Hw as <- <- <-. }
  destruct (acc_operation elem) as [op|]; cbn [mbind result_bind raw final].
  - destruct (apply_operation working op) as [fin|e] eqn:Hop;
      cbn [mbind result_bind raw final].
    + apply map_result_length in Hop. split; [done|lia].
    + left. eapply (map_result_error _ arithmetic_error); [|exact Hop].
      intros v e' _. apply apply_one_error.
  - done.
Qed.

(** *** The values of SUM and CALC rows *)

Lemma fold_add_at_error values k : forall a sums ex,
  (a + k <= length sums)%nat -> (a + k <= length values)%nat ->
  fold_result (add_at values) (seq a k) sums = Raise ex ->
  arithmetic_error ex.
Proof.
  induction k as [|k IH]; intros a sums ex Hs Hv; [discriminate|].
  cbn [seq fold_result].
  destruct (add_at values sums a) as [sums1|e] eqn:H1; cbn [mbind result_bind].
  - apply add_at_Ok in H1 as (s & v & t & _ & _ & _ & ->).
    apply IH; [rewrite length_insert|]; lia.
  - intros [= <-]. unfold add_at, getitem in H1.
    destruct (lookup_lt_is_Some_2 sums a ltac:(lia)) as [s Hs'].
    destruct (lookup_lt_is_Some_2 values a ltac:(lia)) as [v Hv'].
    rewrite Hs', Hv' in H1. cbn [mbind result_bind] in H1.
    destruct (add s v) as [t|e'] eqn:Ha; [discriminate|].
    cbn [mbind result_bind] in H1. injection H1 as <-. by eapply add_error.
Qed.

Lemma add_series_shape n values sums :
  length sums = n ->
  match add_series n values sums with
  | Ok sums' => length sums' = n
  | Raise ex => length values = n -> arithmetic_error ex
  end.
Proof.
  intros Hl. destruct (add_series n values sums) as [sums'|ex] eqn:H.
  - apply add_series_Ok in H as [H _]. lia.
  - intros Hv. eapply (fold_add_at_error values n 0 sums); [lia|lia|exact H].
Qed.

Section Stored.
Variable num_periods : nat.
Variable elements : list ReportElement.

Lemma sum_scan_shape k stored before :
  stored_upto num_periods elements k stored ->
  Forall (fun item => (fst item < k)%nat /\
                      elements !! fst item = Some (snd item)) before ->
  forall sums, length sums = num_periods ->
  match sum_scan num_periods stored before sums with
  | Ok r => length r = num_periods
  | Raise ex => elements_ready num_periods elements -> arithmetic_error ex
  end.
Proof.
  intros [Hup _] Hb. induction Hb as [|[i e] rest [Hi He] _ IH]; intros sums Hl;
    [done|].
  cbn [fst snd] in Hi, He. cbn [sum_scan].
  specialize (Hup i e Hi He). unfold stored_row in Hup.
  destruct (kind e) as [| |a|d values| | |] eqn:Hk; try done; try apply IH;
    try done.
  - destruct Hup as (v & -> & _ & Hf).
    pose proof (add_series_shape num_periods (final v) sums Hl) as Ha.
    destruct (add_series num_periods (final v) sums) as [sums'|ex];
      cbn [mbind result_bind]; [by apply IH|].
    intros _. by apply Ha.
  - pose proof (add_series_shape num_periods values sums Hl) as Ha.
    destruct (add_series num_periods values sums) as [sums'|ex];
      cbn [mbind result_bind]; [by apply IH|].
    intros [Hp _]. apply Ha. by eapply Hp.
Qed.

Lemma calculate_sum_values_shape i stored :
  stored_upto num_periods elements i stored ->
  match calculate_sum_values i elements stored num_periods with
  | Ok r => length r = num_periods
  | Raise ex => elements_ready num_periods elements -> arithmetic_error ex
  end.
Proof.
  intros Hup. unfold calculate_sum_values.
  apply (sum_scan_shape i); [done| |by rewrite length_replicate].
  apply Forall_forall. intros [j e] Hin.
  apply list_elem_of_In, in_rev, list_elem_of_In, indexed_elem in Hin as [? ?].
  done.
Qed.

Section Calc.
Variable float_repr : Decimal -> string.
Variable World : Type.
Variable eval_str : ReportElement -> nat -> string -> calc_scope World ->
                    eval_outcome * calc_scope World.
Hypothesis evaluations_keep_scope :
  formulas_keep_scope float_repr eval_str elements num_periods.

Lemma referenced_value_ready k stored j e p :
  stored_upto num_periods elements k stored ->
  elements_ready num_periods elements ->
  (j < k)%nat -> elements !! j = Some e -> (p < num_periods)%nat ->
  exists value, referenced_value stored (j, e) p = Ok value.
Proof.
  intros [Hup _] [Hp _] Hj He Hlt. specialize (Hup j e Hj He).
  unfold stored_row in Hup. unfold referenced_value, getitem.
  destruct (kind e) as [| |a|d values| | |] eqn:Hk; try by eexists.
  - destruct Hup as (v & -> & _ & Hf).
    destruct (lookup_lt_is_Some_2 (final v) p ltac:(lia)) as [x ->]. by eexists.
  - specialize (Hp j e d values He Hk).
    destruct (lookup_lt_is_Some_2 values p ltac:(lia)) as [x ->]. by eexists.
  - destruct Hup as (l & -> & Hl).
    destruct (lookup_lt_is_Some_2 l p ltac:(lia)) as [x ->]. by eexists.
  - destruct Hup as (l & -> & Hl).
    destruct (lookup_lt_is_Some_2 l p ltac:(lia)) as [x ->]. by eexists.
Qed.

Lemma substitute_refs_error i e d formula stored p ex :
  stored_upto num_periods elements i stored ->
  elements_ready num_periods elements ->
  elements !! i = Some e -> kind e = CalcElement d formula ->
  (p < num_periods)%nat ->
  substitute_refs float_repr formula elements stored p = Raise ex ->
  ex = ValueError SignalingNaNToFloat.
Proof.
  intros Hup Hready He Hk Hp. unfold substitute_refs.
  assert (Hrefs : forall n, n ∈ find_refs formula ->
            exists j e', (j < i)%nat /\
              find_reference n (indexed elements) = Some (j, e') /\
              elements !! j = Some e').
  { intros n Hn. destruct Hready as [_ Hc]. by eapply Hc. }
  clear He Hk. revert Hrefs. generalize formula at 3 as acc.
  generalize (find_refs formula) as refs.
  induction refs as [|n refs IH]; intros acc Hrefs; [discriminate|].
  cbn [fold_result].
  destruct (Hrefs n ltac:(left)) as (j & e' & Hj & Hf & He').
  rewrite Hf.
  destruct (referenced_value_ready i stored j e' p Hup Hready Hj He' Hp)
    as [value Hv].
  rewrite Hv. cbn [mbind result_bind]. unfold str_float.
  destruct (is_snan value); cbn [mbind result_bind]; [by intros [= <-]|].
  apply IH. intros m Hm. apply Hrefs. by right.
Qed.

(** The loop over the periods when no evaluation changes the scope: the
    dictionary stays the one of the call and each period adds a value. *)
Lemma calc_loop_shape i e d formula stored k : forall a scope,
  elements !! i = Some e -> kind e = CalcElement d formula ->
  scope_stored scope = stored -> (a + k <= num_periods)%nat ->
  match fold_result (calc_period float_repr eval_str e formula elements)
                    (seq a k) scope with
  | Ok scope' =>
      scope_stored scope' = stored /\
      length (scope_values scope') = (length (scope_values scope) + k)%nat
  | Raise ex =>
      stored_upto num_periods elements i stored ->
      elements_ready num_periods elements ->
      ex = ValueError SignalingNaNToFloat \/ exists name, ex = Uncaught name
  end.
Proof.
  induction k as [|k IH]; intros a scope He Hk Hst Hle; cbn [seq fold_result].
  - split; [done|lia].
  - assert (Hstep : calc_period float_repr eval_str e formula elements scope a
                    = (formula_str ← substitute_refs float_repr formula
                                       elements stored a;
                       evaluate_formula eval_str e a
                                        (percent_rewrite formula_str) scope))
      by (unfold calc_period; by rewrite Hst).
    rewrite Hstep.
    destruct (substitute_refs float_repr formula elements stored a)
      as [formula_str|ex] eqn:Hs; cbn [mbind result_bind].
    2:{ intros Hup Hready. left.
        eapply substitute_refs_error; [exact Hup|exact Hready|exact He|exact Hk|
                                       |exact Hs]. lia. }
    pose proof (evaluate_formula_cases World eval_str e a
                  (percent_rewrite formula_str) scope) as Hc.
    destruct (evaluations_keep_scope i e d formula stored a formula_str He Hk
                ltac:(lia) Hs scope) as (Hni & Hv & Hs').
    destruct (fst (eval_str e a (percent_rewrite formula_str) scope))
      as [text| |name|]; [| | |done];
      rewrite Hc; cbn [mbind result_bind]; [| |intros _ _; right; by eexists].
    all: match goal with
         | |- context [fold_result _ _ ?s] =>
             specialize (IH (S a) s He Hk); destruct (fold_result _ _ s)
         end;
      [|apply IH; [unfold append_value; cbn [scope_stored]; congruence|lia]].
    all: destruct IH as [H1 H2];
      [unfold append_value; cbn [scope_stored]; congruence|lia|].
    all: split; [done|]; rewrite H2; unfold append_value; cbn [scope_values];
      rewrite length_app, Hv; cbn [length]; lia.
Qed.

Lemma calculate_calc_values_shape i e d formula stored world :
  elements !! i = Some e -> kind e = CalcElement d formula ->
  match calculate_calc_values float_repr eval_str e formula stored elements
                              num_periods world with
  | Ok scope => scope_stored scope = stored /\
                length (scope_values scope) = num_periods
  | Raise ex =>
      stored_upto num_periods elements i stored ->
      elements_ready num_periods elements ->
      ex = ValueError SignalingNaNToFloat \/ exists name, ex = Uncaught name
  end.
Proof.
  intros He Hk. unfold calculate_calc_values.
  exact (calc_loop_shape i e d formula stored num_periods 0
           (mkScope world [] stored) He Hk eq_refl ltac:(lia)).
Qed.

Variable frames : nat.
Variable config : ReportConfig.
Variable gnucash : option (list (string * Account)).
Variable period_ranges : list (date * date).
Variable transaction_cache : gmap string (gmap nat Decimal).
Variable filtered_caches : gmap CacheKey (gmap nat Decimal).
Hypothesis num_periods_eq : num_periods = length period_ranges.

Lemma stored_upto_insert i e stored v :
  elements !! i = Some e ->
  stored_upto num_periods elements i stored ->
  stored_row num_periods e (Some v) ->
  stored_upto num_periods elements (S i) (<[i := v]> stored).
Proof.
  intros He [Hup Hnone] Hrow. split.
  - intros j ej Hj Hej. destruct (decide (j = i)) as [->|Hne].
    + rewrite lookup_insert_eq. rewrite He in Hej. by injection Hej as <-.
    + rewrite lookup_insert_ne by done. apply Hup; [lia|done].
  - intros j Hj. rewrite lookup_insert_ne by lia. apply Hnone. lia.
Qed.

Lemma stored_upto_skip i e stored :
  elements !! i = Some e ->
  stored_upto num_periods elements i stored ->
  stored_row num_periods e None ->
  stored_upto num_periods elements (S i) stored.
Proof.
  intros He [Hup Hnone] Hrow. split.
  - intros j ej Hj Hej. destruct (decide (j = i)) as [->|Hne].
    + rewrite (Hnone i) by lia. rewrite He in Hej. by injection Hej as <-.
    + apply Hup; [lia|done].
  - intros j Hj. apply Hnone. lia.
Qed.

Lemma process_element_step i e world stored :
  elements !! i = Some e ->
  stored_upto num_periods elements i stored ->
  match process_element float_repr eval_str frames config elements gnucash
          period_ranges transaction_cache filtered_caches (world, stored)
          (i, e) with
  | Ok state => stored_upto num_periods elements (S i) (snd state)
  | Raise ex => elements_ready num_periods elements -> calculation_error ex
  end.
Proof.
  intros He Hup. unfold process_element. rewrite <- num_periods_eq.
  destruct (kind e) as [| |a|d values|d|d formula|] eqn:Hk; cbn [snd].
  - apply (stored_upto_skip i e); try done. unfold stored_row. by rewrite Hk.
  - apply (stored_upto_skip i e); try done. unfold stored_row. by rewrite Hk.
  - assert (Hzero : stored_upto num_periods elements (S i)
              (<[i := AccountValues
                        (mkValues (replicate num_periods zero) None None
                                  (replicate num_periods zero) true)]> stored)).
    { apply (stored_upto_insert i e); try done. unfold stored_row. rewrite Hk.
      eexists. split; [done|]. cbn [raw final]. by rewrite length_replicate. }
    destruct gnucash as [[|item accounts]|]; try exact Hzero.
    pose proof (calculate_account_values_shape frames a period_ranges
                  (item :: accounts) config transaction_cache filtered_caches)
      as Hs.
    destruct (calculate_account_values _ _ _ _ _ _ _) as [v|ex];
      cbn [mbind result_bind snd].
    + apply (stored_upto_insert i e); try done. unfold stored_row. rewrite Hk.
      exists v. split; [done|]. rewrite num_periods_eq. done.
    + intros _. unfold calculation_error. destruct Hs as [?|?]; auto.
  - apply (stored_upto_skip i e); try done. unfold stored_row. by rewrite Hk.
  - pose proof (calculate_sum_values_shape i stored Hup) as Hs.
    destruct (calculate_sum_values _ _ _ _) as [r|ex];
      cbn [mbind result_bind snd].
    + apply (stored_upto_insert i e); try done. unfold stored_row. rewrite Hk.
      by exists r.
    + intros Hready. left. by apply Hs.
  - pose proof (calculate_calc_values_shape i e d formula stored world He Hk)
      as Hs.
    destruct (calculate_calc_values _ _ _ _ _ _ _ _) as [scope|ex];
      cbn [mbind result_bind snd].
    + destruct Hs as [-> Hl].
      apply (stored_upto_insert i e); try done. unfold stored_row. rewrite Hk.
      by eexists.
    + intros Hready. right. right. by apply Hs.
  - apply (stored_upto_skip i e); try done. unfold stored_row. by rewrite Hk.
Qed.

Lemma process_elements_from l : forall k world stored,
  (forall j, l !! j = elements !! (k + j)%nat) ->
  stored_upto num_periods elements k stored ->
  match fold_result
          (process_element float_repr eval_str frames config elements gnucash
             period_ranges transaction_cache filtered_caches)
          (imap (fun j x => ((k + j)%nat, x)) l) (world, stored) with
  | Ok state => stored_upto num_periods elements (k + length l) (snd state)
  | Raise ex => elements_ready num_periods elements -> calculation_error ex
  end.
Proof.
  induction l as [|x l IH]; intros k world stored Hl Hup.
  - cbn. by rewrite Nat.add_0_r.
  - cbn [imap fold_result]. rewrite Nat.add_0_r.
    assert (Hx : elements !! k = Some x).
    { specialize (Hl 0%nat). cbn in Hl. by rewrite Nat.add_0_r in Hl. }
    pose proof (process_element_step k x world stored Hx Hup) as Hstep.
    destruct (process_element _ _ _ _ _ _ _ _ _ _ (k, x))
      as [[world1 stored1]|ex]; cbn [mbind result_bind]; [|done].
    specialize (IH (S k) world1 stored1).
    cbn [length]. rewrite Nat.add_succ_r.
    assert (Himap : imap ((fun j x => ((k + j)%nat, x)) ∘ S) l
                    = imap (fun j x => ((S k + j)%nat, x)) l).
    { apply imap_ext. intros j y _. cbn. f_equal. lia. }
    rewrite Himap. apply IH; [|done].
    intros j. specialize (Hl (S j)). rewrite Nat.add_succ_r in Hl. exact Hl.
Qed.

Lemma process_report_elements_shape world :
  match process_report_elements float_repr eval_str frames config elements
          gnucash period_ranges transaction_cache filtered_caches world with
  | Ok stored => stored_upto num_periods elements (length elements) stored
  | Raise ex => elements_ready num_periods elements -> calculation_error ex
  end.
Proof.
  unfold process_report_elements, indexed.
  pose proof (process_elements_from elements 0 world ∅ ltac:(done)) as H.
  cbn [Nat.add] in H.
  destruct (fold_result _ _ (world, ∅)) as [state|ex];
    cbn [mbind result_bind]; apply H;
    (split; [intros i e Hi; lia|]; intros i _; apply lookup_empty).
Qed.

End Calc.
End Stored.

(** X19. [process_report_elements] gives every row its values, one per
    period, when the evaluations of the CALC formulas change no object
    that the calculation reads ([calc_values] and [stored_values] among
    them). When it then returns, the stored
    values hold, for each account row, a dictionary whose raw and final
    series have one value for each period; for each SUM and each CALC row a
    list with one value for each period; and nothing for the other rows. In
    particular an account row never holds the list of a SUM or CALC row. *)
Theorem process_report_elements_stores_rows
    (float_repr : Decimal -> string) (World : Type)
    (eval_str : ReportElement -> nat -> string -> calc_scope World ->
                eval_outcome * calc_scope World)
    (frames : nat) (config : ReportConfig) (elements : list ReportElement)
    (gnucash : option (list (string * Account)))
    (period_ranges : list (date * date))
    (transaction_cache : gmap string (gmap nat Decimal))
    (filtered_caches : gmap CacheKey (gmap nat Decimal))
    (world : World) (stored_values : gmap nat stored_value) :
  formulas_keep_scope float_repr eval_str elements (length period_ranges) ->
  process_report_elements float_repr eval_str frames config elements gnucash
      period_ranges transaction_cache filtered_caches world
    = Ok stored_values ->
  (forall i e, elements !! i = Some e ->
     stored_row (length period_ranges) e (stored_values !! i)) /\
  (forall i, (length elements <= i)%nat -> stored_values !! i = None) /\
  stored_consistent elements stored_values.
Proof.
  intros Hpure H.
  pose proof (process_report_elements_shape (length period_ranges) elements
                float_repr World eval_str Hpure frames config gnucash
                period_ranges transaction_cache filtered_caches eq_refl world)
    as Hs.
  rewrite H in Hs. destruct Hs as [Hup Hnone].
  assert (Hrow : forall i e, elements !! i = Some e ->
            stored_row (length period_ranges) e (stored_values !! i)).
  { intros i e He. apply Hup; [|done]. by eapply lookup_lt_Some. }
  split; [done|]. split; [done|].
  intros i e v He Hv. specialize (Hrow i e He). unfold stored_row in Hrow.
  unfold is_account. destruct (kind e); try done.
  destruct Hrow as (values & Hrow & _). congruence.
Qed.

Lemma example_eval_keeps_scope elements num_periods :
  formulas_keep_scope example_float example_eval elements num_periods.
Proof.
  intros i e d formula stored p formula_str _ _ _ _ scope.
  split; [|by split]. cbn [example_eval fst]. unfold example_outcome.
  by repeat case_match.
Qed.

(** X19, at the example rows with a CALC row, over two periods and with no
    GnuCash file loaded: the CALC row gets the values 0 and 0.31. *)
Lemma process_report_elements_stores_rows_witness :
  exists stored_values,
    process_report_elements example_float example_eval 990 default_config
        example_calc_elements None example_periods ∅ ∅ tt
      = Ok stored_values /\
    stored_values !! 2%nat = Some (SeriesValues [zero; DFin false 31 (-2)]) /\
    (forall i e, example_calc_elements !! i = Some e ->
       stored_row 2 e (stored_values !! i)).
Proof.
  eexists. split; [reflexivity|]. split; [reflexivity|].
  exact (proj1 (process_report_elements_stores_rows example_float unit
                  example_eval 990 default_config example_calc_elements None
                  example_periods ∅ ∅ tt _
                  (example_eval_keeps_scope example_calc_elements 2)
                  eq_refl)).
Defined.

Lemma parsed_elements_ready today lines config elements references
    start end_ period_ranges :
  parse_report_definition today lines = Ok (config, elements, references) ->
  start_date config = Some start -> end_date config = Some end_ ->
  get_period_ranges start end_ (period config) = Ok period_ranges ->
  elements_ready (length period_ranges) elements.
Proof.
  intros H Hs He Hpr.
  apply parse_report_definition_state in H
    as (st & s & e & pr & _ & -> & -> & -> & Hpr' & Hc & Hinv).
  cbn [start_date end_date period set_config_end set_config_start] in *.
  injection Hs as ->. injection He as ->.
  rewrite Hpr' in Hpr. injection Hpr as ->.
  destruct Hinv as (_ & _ & I3 & _). split.
  - by apply check_placeholders_Ok.
  - intros i el d f n Hel Hk Hn.
    destruct (I3 i el d f n Hel Hk Hn) as (j0 & e0 & Hlt & He0 & Hr0).
    destruct (find_reference_first n (ps_elements st) 0 j0 e0 He0 Hr0)
      as (j & e' & Hj & He' & Hr' & Hf).
    exists j, e'. split; [lia|]. split; [exact Hf|done].
Qed.

(** X20. The calculation of a parsed definition fails on no lookup when
    the evaluations of its CALC formulas change no object that the
    calculation reads ([calc_values] and [stored_values] among them). For a
    definition that
    [parse_report_definition] accepts and the periods of its configuration,
    [process_report_elements] then raises, whatever the account registry
    and the caches hold, only an exception of the decimal arithmetic, the
    recursion error of the account hierarchy, the conversion error of a
    signaling NaN in a CALC formula or what an evaluation raises outside
    the class Exception: no KeyError, IndexError or TypeError, since every
    referenced row has been computed and every series has a value for each
    period. *)
Theorem calculation_raises_no_lookup_error
    (float_repr : Decimal -> string) (World : Type)
    (eval_str : ReportElement -> nat -> string -> calc_scope World ->
                eval_outcome * calc_scope World)
    (today : date) (lines : list string)
    (config : ReportConfig) (elements : list ReportElement)
    (references : gmap N nat) (start end_ : date)
    (period_ranges : list (date * date)) :
  parse_report_definition today lines = Ok (config, elements, references) ->
  start_date config = Some start -> end_date config = Some end_ ->
  get_period_ranges start end_ (period config) = Ok period_ranges ->
  formulas_keep_scope float_repr eval_str elements (length period_ranges) ->
  forall frames gnucash transaction_cache filtered_caches world ex,
    process_report_elements float_repr eval_str frames config elements gnucash
        period_ranges transaction_cache filtered_caches world = Raise ex ->
    calculation_error ex /\
    ex <> KeyError /\ ex <> IndexError /\ ex <> TypeError.
Proof.
  intros H Hs He Hpr Hpure frames gnucash tc fc world ex Hraise.
  pose proof (parsed_elements_ready _ _ _ _ _ _ _ _ H Hs He Hpr) as Hready.
  pose proof (process_report_elements_shape (length period_ranges) elements
                float_repr World eval_str Hpure frames config gnucash
                period_ranges tc fc eq_refl world)
    as Hshape.
  rewrite Hraise in Hshape. specialize (Hshape Hready).
  split; [done|].
  unfold calculation_error, arithmetic_error in Hshape.
  repeat split; intros ->;
    destruct Hshape as [[?|[?|?]]|[?|[?|[? ?]]]]; discriminate.
Qed.

(** X20, at an input: the CALC row of a definition whose placeholder is a
    signaling NaN raises the error of its conversion. *)
Lemma calculation_raises_no_lookup_error_witness :
  exists config elements references period_ranges,
    parse_report_definition (mkdate 2026 11 3) example_nan_definition
      = Ok (config, elements, references) /\
    start_date config = Some (mkdate 2025 1 1) /\
    end_date config = Some (mkdate 2025 1 31) /\
    get_period_ranges (mkdate 2025 1 1) (mkdate 2025 1 31) (period config)
      = Ok period_ranges /\
    process_report_elements example_float example_eval 990 config elements
        None period_ranges ∅ ∅ tt
      = Raise (ValueError SignalingNaNToFloat) /\
    calculation_error (ValueError SignalingNaNToFloat) /\
    ValueError SignalingNaNToFloat <> KeyError /\
    ValueError SignalingNaNToFloat <> IndexError /\
    ValueError SignalingNaNToFloat <> TypeError.
Proof.
  eexists _, _, _, _.
  split; [reflexivity|]. split; [reflexivity|]. split; [reflexivity|].
  split; [reflexivity|]. split; [reflexivity|].
  exact (calculation_raises_no_lookup_error example_float unit example_eval
           (mkdate 2026 11 3) example_nan_definition _ _ _ _ _ _
           eq_refl eq_refl eq_refl eq_refl (example_eval_keeps_scope _ _)
           990 None ∅ ∅ tt (ValueError SignalingNaNToFloat) eq_refl).
Defined.

(** What the hypothesis on the evaluations of X19 and X20 excludes: a
    formula that empties [stored_values] makes the CALC row after it fail
    on the lookup of a row that had been computed. *)
Example calculation_lookup_error_example :
  process_report_elements example_float example_eval_changing 990
      default_config
      [mkElement 1 (Some 1%N) (SumElement "a");
       mkElement 2 None (CalcElement "x" "stored_values.clear()");
       mkElement 3 None (CalcElement "y" "[1] + 1")]
      None example_periods ∅ ∅ tt
    = Raise KeyError.
Proof. reflexivity. Qed.

(** ** The account hierarchy *)

(** *** The descendants of an account *)

Lemma descends_trans accounts root p g :
  descends accounts root p -> descends accounts p g ->
  descends accounts root g.
Proof.
  intros Hp Hg. induction Hg as [|g q _ IH Hc]; [done|].
  by eapply descends_child.
Qed.

Section Descendants.
Variable accounts : list (string * Account).

Lemma add_children_appends : forall fuel parent guids guids',
  add_children fuel accounts parent guids = Ok guids' ->
  exists new, guids' = (guids ++ new)%list /\ appended accounts parent new /\
              forall g, child_of accounts g parent -> g ∈ new.
Proof.
  induction fuel as [|fuel IH]; intros parent guids guids'; [discriminate|].
  cbn [add_children].
  match goal with
  | |- ?f accounts guids = Ok guids' -> _ =>
      cut (forall items gs gs',
             (forall x, x ∈ items -> x ∈ accounts) ->
             f items gs = Ok gs' ->
             exists new, gs' = (gs ++ new)%list /\ appended accounts parent new /\
               forall g a, (g, a) ∈ items -> parent_guid a = Some parent ->
                           g ∈ new)
  end.
  { intros Hcut H. destruct (Hcut accounts guids guids' (fun _ h => h) H)
      as (new & -> & Hap & Hc).
    exists new. split; [done|]. split; [done|].
    intros g (a & Ha & Hp). by eapply Hc. }
  induction items as [|[acc_guid account] rest IHitems]; intros gs gs' Hsub.
  - intros [= <-]. exists []. rewrite app_nil_r. split; [done|].
    split; [split|].
    + intros g Hg. by apply elem_of_nil in Hg.
    + intros p g Hp. by apply elem_of_nil in Hp.
    + intros g a Hg. by apply elem_of_nil in Hg.
  - assert (Hrest : forall x, x ∈ rest -> x ∈ accounts)
      by (intros x Hx; apply Hsub; by right).
    assert (Hhere : (acc_guid, account) ∈ accounts) by (apply Hsub; by left).
    destruct (parent_guid account) as [pg|] eqn:Hpg.
    + destruct (String.eqb_spec pg parent) as [->|Hne].
      * destruct (add_children fuel accounts acc_guid (gs ++ [acc_guid])%list)
          as [g1|] eqn:H1; [|discriminate].
        cbn [mbind result_bind]. intros H2.
        apply IH in H1 as (new1 & -> & [Hd1 Hc1] & Hall1).
        apply IHitems in H2 as (new2 & -> & [Hd2 Hc2] & Hall2); [|done].
        assert (Hchild : child_of accounts acc_guid parent)
          by (by exists account).
        exists (acc_guid :: new1 ++ new2)%list.
        split; [by rewrite <- !app_assoc|]. split; [split|].
        -- intros g Hg. apply elem_of_cons in Hg as [->|Hg].
           { eapply descends_child; [apply descends_root|done]. }
           apply elem_of_app in Hg as [Hg|Hg]; [|by apply Hd2].
           eapply descends_trans; [|by apply Hd1].
           eapply descends_child; [apply descends_root|done].
        -- intros p g Hp Hc. right. apply elem_of_app.
           apply elem_of_cons in Hp as [->|Hp]; [left; by apply Hall1|].
           apply elem_of_app in Hp as [Hp|Hp];
             [left; by eapply Hc1|right; by eapply Hc2].
        -- intros g a Hg Hp. apply elem_of_cons in Hg as [[= -> ->]|Hg];
             [by left|].
           right. apply elem_of_app. right. by eapply Hall2.
      * intros H2. apply IHitems in H2 as (new2 & -> & Hap & Hall2); [|done].
        exists new2. split; [done|]. split; [done|].
        intros g a Hg Hp. apply elem_of_cons in Hg as [[= -> ->]|Hg];
          [congruence|by eapply Hall2].
    + intros H2. apply IHitems in H2 as (new2 & -> & Hap & Hall2); [|done].
      exists new2. split; [done|]. split; [done|].
      intros g a Hg Hp. apply elem_of_cons in Hg as [[= -> ->]|Hg];
        [congruence|by eapply Hall2].
Qed.

Lemma add_children_returns (rank : string -> nat) :
  (forall g p, child_of accounts g p -> (rank g < rank p)%nat) ->
  forall fuel parent guids,
    (rank parent < fuel)%nat ->
    is_Ok (add_children fuel accounts parent guids) = true.
Proof.
  intros Hrank. induction fuel as [|fuel IH]; intros parent guids Hlt; [lia|].
  cbn [add_children].
  match goal with
  | |- is_Ok (?f accounts guids) = true =>
      cut (forall items gs, (forall x, x ∈ items -> x ∈ accounts) ->
                            is_Ok (f items gs) = true)
  end.
  { intros Hcut. by apply Hcut. }
  induction items as [|[acc_guid account] rest IHitems]; intros gs Hsub;
    [done|].
  assert (Hrest : forall x, x ∈ rest -> x ∈ accounts)
    by (intros x Hx; apply Hsub; by right).
  assert (Hhere : (acc_guid, account) ∈ accounts) by (apply Hsub; by left).
  destruct (parent_guid account) as [pg|] eqn:Hpg; [|by apply IHitems].
  destruct (String.eqb_spec pg parent) as [->|Hne]; [|by apply IHitems].
  assert (Hc : (rank acc_guid < rank parent)%nat)
    by (apply Hrank; by exists account).
  specialize (IH acc_guid (gs ++ [acc_guid])%list ltac:(lia)).
  destruct (add_children fuel accounts acc_guid (gs ++ [acc_guid])%list)
    as [g1|]; [|discriminate].
  cbn [mbind result_bind]. by apply IHitems.
Qed.

Lemma add_children_deep : forall frames parent guids,
  deep accounts frames parent ->
  add_children frames accounts parent guids = Raise RecursionError.
Proof.
  induction frames as [|n IH]; intros parent guids Hdeep; [reflexivity|].
  inversion Hdeep as [|n' p g (a & Hin & Hp) Hg]; subst.
  cbn [add_children].
  match goal with
  | |- ?f accounts guids = _ =>
      cut (forall items gs, (g, a) ∈ items ->
                            f items gs = Raise RecursionError);
        [intros Hcut; by apply Hcut|]
  end.
  induction items as [|[g' a'] items IHi]; intros gs Hitems;
    [by apply elem_of_nil in Hitems|].
  apply elem_of_cons in Hitems as [[= <- <-]|Hitems].
  - rewrite Hp, String.eqb_refl, (IH g _ Hg). reflexivity.
  - destruct (parent_guid a') as [pg|]; [|by apply IHi].
    destruct (String.eqb pg parent); [|by apply IHi].
    destruct (add_children n accounts g' (gs ++ [g'])) as [guids'|ex] eqn:Hc;
      cbn [mbind result_bind]; [by apply IHi|].
    f_equal. by eapply add_children_error.
Qed.

End Descendants.

(** X21. [get_descendant_guids] returns the descendants of the account.
    When it returns, the list starts with the account itself and holds
    exactly the account and the accounts that are registered, directly or
    through other accounts, with it as their parent. It returns when the
    hierarchy below the account is less deep than the interpreter allows
    calls to nest: when the accounts can be ranked so that every account
    ranks below its parent, with the rank of the starting account below the
    number of nested calls left (about 1000 in CPython). A hierarchy
    that is at least as many levels deep as calls are left raises
    RecursionError, be it without a cycle. *)
Theorem get_descendant_guids_descendants (frames : nat)
    (account_guid : string) (accounts : list (string * Account)) :
  (forall guids,
     get_descendant_guids frames account_guid accounts = Ok guids ->
     head guids = Some account_guid /\
     forall g, g ∈ guids <-> descends accounts account_guid g) /\
  (forall rank : string -> nat,
     (forall g p, child_of accounts g p -> (rank g < rank p)%nat) ->
     (rank account_guid < frames)%nat ->
     is_Ok (get_descendant_guids frames account_guid accounts) = true) /\
  (deep accounts frames account_guid ->
   get_descendant_guids frames account_guid accounts = Raise RecursionError).
Proof.
  split.
  - intros guids H. unfold get_descendant_guids in H.
    apply add_children_appends in H as (new & -> & [Hd Hc] & Hall).
    split; [done|]. intros g. split.
    + intros Hg. apply elem_of_cons in Hg as [->|Hg];
        [apply descends_root|by apply Hd].
    + intros Hg. induction Hg as [|g p _ IH Hch]; [by left|].
      right. apply elem_of_cons in IH as [->|IH];
        [by apply Hall|by eapply Hc].
  - split.
    + intros rank Hrank Hroot. unfold get_descendant_guids.
      eapply add_children_returns; [exact Hrank|lia].
    + intros Hdeep. by apply add_children_deep.
Qed.

Lemma example_rank_decreases g p :
  child_of example_accounts g p -> (example_rank g < example_rank p)%nat.
Proof.
  intros (a & Ha & Hp). unfold example_accounts in Ha.
  repeat (apply elem_of_cons in Ha as [Ha|Ha];
          [injection Ha as -> ->; cbn in Hp; try discriminate;
           injection Hp as <-; cbn; lia|]).
  by apply elem_of_nil in Ha.
Qed.

(** X21, at the example registry: the descendants of Income. *)
Lemma get_descendant_guids_descendants_witness :
  get_descendant_guids 990 "i" example_accounts = Ok ["i"; "s"; "b"] /\
  (forall g, g ∈ ["i"; "s"; "b"] <-> descends example_accounts "i" g) /\
  is_Ok (get_descendant_guids 3 "i" example_accounts) = true /\
  get_descendant_guids 1 "i" example_accounts = Raise RecursionError.
Proof.
  split; [reflexivity|]. split; [|split].
  - exact (proj2 (proj1 (get_descendant_guids_descendants 990 "i"
                           example_accounts)
                    ["i"; "s"; "b"] eq_refl)).
  - refine (proj1 (proj2 (get_descendant_guids_descendants 3 "i"
                            example_accounts))
              example_rank example_rank_decreases _).
    cbn. lia.
  - refine (proj2 (proj2 (get_descendant_guids_descendants 1 "i"
                            example_accounts)) _).
    apply (deep_child _ 0 "i" "s"); [|apply deep_zero].
    exists (mkAccount "Salary" "s" (Some "i") (Some "INCOME")).
    split; [|reflexivity]. do 2 right. left.
Defined.

(** *** The values of a filtered row *)

Lemma key_of_account_eq elem elem' :
  guid elem' = guid elem -> filter_guid elem' = filter_guid elem ->
  regex_include elem' = regex_include elem ->
  regex_exclude elem' = regex_exclude elem ->
  key_of_account elem' = key_of_account elem /\
  needs_cache elem' = needs_cache elem.
Proof.
  intros Hg Hf Hi He. unfold key_of_account, needs_cache.
  by rewrite Hg, Hf, Hi, He.
Qed.

Ltac bind_ok H x :=
  match type of H with
  | (?m ≫= _) = Ok _ =>
      revert H; destruct m as [x|]; cbn [mbind result_bind]; intros H;
      [|discriminate H]
  end.

(** X22. A row with a FILTER or a REGEX is computed from its filtered cache
    alone. When the cache of the row has been built, the final values, the
    filtered values and the validity flag that [calculate_account_values]
    returns depend neither on the base transaction cache nor on the row
    being an ACCOUNT or an ACCOUNTS row: the sub-accounts of an ACCOUNTS row
    with a filter are not counted. *)
Theorem filtered_row_ignores_base_cache
    (frames : nat) (elem elem' : AccountElement)
    (period_ranges : list (date * date))
    (accounts : list (string * Account)) (config : ReportConfig)
    (transaction_cache transaction_cache' : gmap string (gmap nat Decimal))
    (filtered_caches : gmap CacheKey (gmap nat Decimal))
    (values values' : account_values) :
  guid elem' = guid elem -> filter_guid elem' = filter_guid elem ->
  regex_include elem' = regex_include elem ->
  regex_exclude elem' = regex_exclude elem ->
  acc_operation elem' = acc_operation elem ->
  needs_cache elem = true ->
  is_Some (filtered_caches !! key_of_account elem) ->
  calculate_account_values frames elem period_ranges accounts config
      transaction_cache filtered_caches = Ok values ->
  calculate_account_values frames elem' period_ranges accounts config
      transaction_cache' filtered_caches = Ok values' ->
  final values' = final values /\ filtered values' = filtered values /\
  regex_filtered values' = regex_filtered values /\
  valid values' = valid values.
Proof.
  intros Hg Hf Hi He Hop Hn [totals Hk].
  destruct (key_of_account_eq elem elem' Hg Hf Hi He) as [Hkey Hneeds].
  unfold calculate_account_values.
  rewrite Hg, Hkey, Hneeds, Hn, Hk, Hf, Hi, He, Hop.
  destruct (lookup_account (guid elem) accounts) as [account|].
  2:{ intros [= <-] [= <-]. done. }
  remember (map_result
              (fun period_idx =>
                 let value := default zero (totals !! period_idx) in
                 if invert_income config && is_income account
                 then neg value else Ok value)
              (seq 0 (length period_ranges))) as fm eqn:Efm.
  clear Efm. intros H1 H2.
  bind_ok H1 t1. bind_ok H1 r1. bind_ok H1 r1'.
  bind_ok H2 t2. bind_ok H2 r2. bind_ok H2 r2'.
  destruct fm as [fv|]; cbn [mbind result_bind] in H1, H2; [|discriminate H1].
  destruct (nonempty (regex_include elem) || nonempty (regex_exclude elem));
    [|destruct (truthy_str (filter_guid elem))];
    cbn [mbind result_bind] in H1, H2;
    (destruct (match acc_operation elem with
               | Some op => apply_operation fv op
               | None => Ok fv
               end) as [fin|]; cbn [mbind result_bind] in H1, H2;
     [|discriminate H1]);
    injection H1 as <-; injection H2 as <-; done.
Qed.

(** X22, at an input: an ACCOUNTS row of Income with a filter has the
    values of an ACCOUNT row, whatever the base cache holds. *)
Lemma filtered_row_ignores_base_cache_witness :
  exists values values',
    calculate_account_values 990
        (mkAccountElement "i" None None false (Some "f") [] [])
        example_periods example_accounts default_config
        ∅ {[make_CacheKey "i" (Some "f") [] [] := {[0%nat := cent]}]}
      = Ok values /\
    calculate_account_values 990
        (mkAccountElement "i" None None true (Some "f") [] [])
        example_periods example_accounts default_config
        {["s" := {[0%nat := hundred]}]}
        {[make_CacheKey "i" (Some "f") [] [] := {[0%nat := cent]}]}
      = Ok values' /\
    final values' = final values.
Proof.
  eexists _, _. split; [vm_compute; reflexivity|].
  split; [vm_compute; reflexivity|].
  refine (proj1 (filtered_row_ignores_base_cache 990
                   (mkAccountElement "i" None None false (Some "f") [] [])
                   (mkAccountElement "i" None None true (Some "f") [] [])
                   example_periods example_accounts default_config
                   ∅ {["s" := {[0%nat := hundred]}]}
                   {[make_CacheKey "i" (Some "f") [] [] := {[0%nat := cent]}]}
                   _ _ eq_refl eq_refl eq_refl eq_refl eq_refl eq_refl _ _ _)).
  - vm_compute. by eexists.
  - vm_compute. reflexivity.
  - vm_compute. reflexivity.
Defined.

(** *** Division by zero *)

(** X23. Dividing a row by zero gives zeros and raises nothing. For the
    operator [/] with an operand that is a zero (of any sign and exponent),
    [apply_operation] returns 0.00 for every value, whatever the values
    are, infinities and NaNs included. *)
Theorem apply_operation_divide_by_zero (values : list Decimal)
    (operand : Decimal) :
  is_zero operand = true ->
  apply_operation values ("/", operand)
    = Ok (replicate (length values) (DFin false 0 (-2))).
Proof.
  intros Hz. destruct operand as [s c e| |]; try discriminate.
  cbn [is_zero] in Hz. unfold apply_operation.
  induction values as [|v values IH]; [done|].
  cbn [map_result length replicate].
  assert (H1 : apply_one ("/", DFin s c e) v = Ok (DFin false 0 (-2))).
  { unfold apply_one, operate. cbn [ne_zero]. rewrite Hz. reflexivity. }
  rewrite H1. cbn [mbind result_bind]. rewrite IH. reflexivity.
Qed.

(** X23, at an input: an infinity and a NaN divided by a negative zero. *)
Lemma apply_operation_divide_by_zero_witness :
  apply_operation [DInf false; DNaN false false 0; DFin false 1234 (-2)]
                  ("/", DFin true 0 3)
    = Ok [DFin false 0 (-2); DFin false 0 (-2); DFin false 0 (-2)].
Proof.
  exact (apply_operation_divide_by_zero
           [DInf false; DNaN false false 0; DFin false 1234 (-2)]
           (DFin true 0 3) eq_refl).
Defined.

